(** * nostr-wot: key codec, event signer, cipher layer, relay aggregator
      and remote-signer session, embedded from the TypeScript sources.

    Conventions of the embedding.
    - A JavaScript string is modelled by a Rocq [string] holding the UTF-8
      bytes of a well-formed text; [TextEncoder.encode] is then the
      identity on the bytes.  Case mapping and white space are the ASCII
      ones.
    - A JavaScript number used with the bit operators is a [Z] brought
      back to the signed 32-bit range by [int32] after every operator.
    - A function that can throw returns [option]; [None] is the throw
      (or, for [bech32ToHex], the [null] result).
    - A socket or timer callback is an event; a run is a list of events
      applied in order to the state that the callbacks share. *)

From Stdlib Require Import ZArith Lia Bool List Ascii String DecimalString.
From stdpp Require Import base decidable option list strings gmap sets.

Local Open Scope Z_scope.

(** ** JavaScript primitives used by the sources *)

Module JS.

(** ToInt32: wrap-around of the 32-bit bit operators. *)
Definition int32 (z : Z) : Z := (z + 2 ^ 31) mod 2 ^ 32 - 2 ^ 31.

Definition shl (a n : Z) : Z := int32 (Z.shiftl (int32 a) (n mod 32)).
Definition sar (a n : Z) : Z := Z.shiftr (int32 a) (n mod 32).
Definition bor (a b : Z) : Z := int32 (Z.lor (int32 a) (int32 b)).
Definition band (a b : Z) : Z := int32 (Z.land (int32 a) (int32 b)).
Definition bxor (a b : Z) : Z := int32 (Z.lxor (int32 a) (int32 b)).

Definition charCode (c : ascii) : Z := Z.of_N (N_of_ascii c).
Definition fromCharCode (z : Z) : ascii := ascii_of_N (Z.to_N (z mod 256)).

Definition chars (s : string) : list ascii := list_ascii_of_string s.
Definition str (l : list ascii) : string := string_of_list_ascii l.

(** [String.prototype.toLowerCase] on ASCII letters. *)
Definition lowerChar (c : ascii) : ascii :=
  let n := charCode c in
  if (65 <=? n) && (n <=? 90) then fromCharCode (n + 32) else c.

Definition toLowerCase (s : string) : string := str (map lowerChar (chars s)).

(** [s.startsWith(p)] *)
Fixpoint startsWith (p s : string) : bool :=
  match p, s with
  | EmptyString, _ => true
  | String a p', String b s' => if Ascii.eqb a b then startsWith p' s' else false
  | String _ _, EmptyString => false
  end.

(** [s.slice(n)] for a non-negative [n]. *)
Definition sliceFrom (n : nat) (s : string) : string := str (drop n (chars s)).

(** [a.slice(0, -n)] on an array. *)
Definition sliceDropLast {A} (n : nat) (l : list A) : list A :=
  take (length l - n)%nat l.

(** [s.indexOf(c)] for a one-character [c]; [None] is [-1]. *)
Fixpoint indexOf (c : ascii) (s : string) : option Z :=
  match s with
  | EmptyString => None
  | String d s' =>
      if Ascii.eqb c d then Some 0
      else match indexOf c s' with Some i => Some (i + 1) | None => None end
  end.

(** [s[i]] for an index inside the string (the sources index the bech32
    alphabet with a 5-bit value only). *)
Definition charAt (s : string) (i : Z) : ascii :=
  nth (Z.to_nat i) (chars s) "000"%char.

(** [s.includes(sep)] *)
Fixpoint includes (sep s : string) : bool :=
  startsWith sep s ||
  match s with
  | EmptyString => false
  | String _ s' => includes sep s'
  end.

(** [s.split(sep)] for a non-empty separator: [skip] counts the characters
    of a matched separator still to be passed over, [cur] is the piece
    being collected, in reverse. *)
Fixpoint splitGo (sep : string) (skip : nat) (cur : list ascii) (s : string)
  : list string :=
  match s with
  | EmptyString => [str (rev cur)]
  | String c s' =>
      match skip with
      | S k => splitGo sep k cur s'
      | O =>
          if startsWith sep s
          then str (rev cur) :: splitGo sep (String.length sep - 1) [] s'
          else splitGo sep O (c :: cur) s'
      end
  end.

Definition split (sep s : string) : list string := splitGo sep O [] s.

(** ASCII white space removed by [trim] (tab, LF, VT, FF, CR, space). *)
Definition isSpace (c : ascii) : bool :=
  let n := charCode c in
  ((9 <=? n) && (n <=? 13)) || (n =? 32).

Fixpoint dropSpaces (l : list ascii) : list ascii :=
  match l with
  | c :: l' => if isSpace c then dropSpaces l' else l
  | [] => []
  end.

Definition trim (s : string) : string :=
  str (rev (dropSpaces (rev (dropSpaces (chars s))))).

(** [s.padStart(n, "0")] *)
Definition padStart0 (n : nat) (s : string) : string :=
  str (replicate (n - String.length s) "0"%char ++ chars s).

(** One hexadecimal digit of [n.toString(16)]. *)
Definition hexDigit (d : Z) : ascii := charAt "0123456789abcdef" d.

(** [b.toString(16).padStart(2, "0")] for a byte value. *)
Definition hex2 (b : Z) : string :=
  String (hexDigit (b / 16)) (String (hexDigit (b mod 16)) EmptyString).

Definition join (l : list string) : string := fold_right String.append "" l.

End JS.

(** ** KeyCodec: [hexToNpub], [bech32ToHex], [normalizePrivateKey]
    (src/lib/nostr/crypto.ts) *)

Module KeyCodec.
Import JS.

Definition ALPHABET : string := "qpzry9x8gf2tvdw0s3jn54khce6mua7l".

(** [parseInt(s, 16)]: leading white space, an optional sign, an optional
    [0x], then the longest run of hexadecimal digits; [None] is [NaN]. *)
Definition hexVal (c : ascii) : option Z :=
  let n := charCode c in
  if (48 <=? n) && (n <=? 57) then Some (n - 48)
  else if (97 <=? n) && (n <=? 102) then Some (n - 87)
  else if (65 <=? n) && (n <=? 70) then Some (n - 55)
  else None.

Fixpoint hexRun (acc : option Z) (l : list ascii) : option Z :=
  match l with
  | c :: l' =>
      match hexVal c with
      | Some d => hexRun (Some (default 0 acc * 16 + d)) l'
      | None => acc
      end
  | [] => acc
  end.

Definition strip0x (l : list ascii) : list ascii :=
  match l with
  | "0"%char :: "x"%char :: l' => l'
  | "0"%char :: "X"%char :: l' => l'
  | _ => l
  end.

Definition parseInt16 (s : string) : option Z :=
  match dropSpaces (chars s) with
  | "-"%char :: l => Z.opp <$> hexRun None (strip0x l)
  | "+"%char :: l => hexRun None (strip0x l)
  | l => hexRun None (strip0x l)
  end.

(** The loop [for (i = 0; i < hex.length; i += 2) bytes.push(parseInt(hex.substr(i, 2), 16))]. *)
Fixpoint hexPairs (l : list ascii) : list (option Z) :=
  match l with
  | a :: b :: l' => parseInt16 (str [a; b]) :: hexPairs l'
  | [a] => [parseInt16 (str [a])]
  | [] => []
  end.

(** [while (bits >= w) { bits -= w; out.push((acc >> bits) & mask) }];
    every turn lowers [bits], so [fuel = bits] turns are enough. *)
Fixpoint drain (fuel : nat) (w mask acc bits : Z) (out : list Z) : Z * list Z :=
  match fuel with
  | O => (bits, out)
  | S f =>
      if w <=? bits
      then drain f w mask acc (bits - w) (out ++ [band (sar acc (bits - w)) mask])
      else (bits, out)
  end.

(** The regrouping loops, [from] bits in and [to] bits out; the state is
    [(acc, bits, out)]. *)
Definition regroupStep (from to mask : Z) (st : Z * Z * list Z) (v : Z)
  : Z * Z * list Z :=
  let '(acc, bits, out) := st in
  let acc := bor (shl acc from) v in
  let bits := bits + from in
  let '(bits, out) := drain (Z.to_nat bits) to mask acc bits out in
  (acc, bits, out).

Definition regroup (from to mask : Z) (vs : list Z) : Z * Z * list Z :=
  fold_left (regroupStep from to mask) vs (0, 0, []).

Definition polymodStep (chk v : Z) : Z :=
  let GEN := [0x3b6a57b2; 0x26508e6d; 0x1ea119fa; 0x3d4233dd; 0x2a1462b3] in
  let b := sar chk 25 in
  let chk := bxor (shl (band chk 0x1ffffff) 5) v in
  fold_left
    (fun chk i => if band (sar b i) 1 =? 0 then chk
                  else bxor chk (nth (Z.to_nat i) GEN 0))
    [0; 1; 2; 3; 4] chk.

Definition polymod (values : list Z) : Z := fold_left polymodStep values 1.

Definition hrpExpand (hrp : string) : list Z :=
  map (fun c => sar (charCode c) 5) (chars hrp) ++ [0] ++
  map (fun c => band (charCode c) 31) (chars hrp).

Definition createChecksum (hrp : string) (data : list Z) : list Z :=
  let polymodValue := bxor (polymod (hrpExpand hrp ++ data ++ [0; 0; 0; 0; 0; 0])) 1 in
  map (fun i => band (sar polymodValue (5 * (5 - i))) 31) [0; 1; 2; 3; 4; 5].

Definition hexToNpub (hex : string) : string :=
  let hrp := "npub" in
  let bytes := hexPairs (chars hex) in
  let '(acc, bits, values) := regroup 8 5 0x1f (map (default 0) bytes) in
  let values :=
    if 0 <? bits then values ++ [band (shl acc (5 - bits)) 0x1f] else values in
  let checksum := createChecksum hrp values in
  let combined := values ++ checksum in
  hrp +:+ "1" +:+ str (map (charAt ALPHABET) combined).

Inductive KeyType := nsec | npub.

Record Decoded := { type : KeyType; hex : string }.

Definition prefixName (t : KeyType) : string :=
  match t with nsec => "nsec" | npub => "npub" end.

(** The loop [for (const char of data) { idx = ALPHABET.indexOf(char); if (idx === -1) return null; values.push(idx) }]. *)
Fixpoint alphabetValues (data : list ascii) : option (list Z) :=
  match data with
  | [] => Some []
  | c :: data' =>
      match indexOf c ALPHABET with
      | None => None
      | Some idx => cons idx <$> alphabetValues data'
      end
  end.

Definition bech32ToHex (bech32 : string) : option Decoded :=
  let lower := toLowerCase bech32 in
  let prefix :=
    if startsWith "nsec" lower then Some nsec
    else if startsWith "npub" lower then Some npub else None in
  match prefix with
  | None => None
  | Some prefix =>
      let data := sliceFrom (String.length (prefixName prefix) + 1) lower in
      match alphabetValues (chars data) with
      | None => None
      | Some values =>
          let '(_, _, bytes) := regroup 5 8 0xff (sliceDropLast 6 values) in
          Some {| type := prefix; hex := join (map hex2 bytes) |}
      end
  end.

(** The text of a data part given by its 5-bit values. *)
Definition dataChars (values : list Z) : list ascii := map (charAt ALPHABET) values.

(** The bytes that [bech32ToHex] reads from the data part. *)
Definition payloadHex (body : list Z) : string :=
  let '(_, _, bytes) := regroup 5 8 0xff body in join (map hex2 bytes).

(** Whether a string with a recognised prefix carries the checksum that
    [createChecksum] computes for its data part (the check that a
    verifying decoder would make; [bech32ToHex] does not make it). *)
Definition checksumOk (hrp : string) (values : list Z) : bool :=
  bool_decide (createChecksum hrp (sliceDropLast 6 values)
               = drop (length values - 6)%nat values).

Definition hasValidChecksum (bech32 : string) : bool :=
  let lower := toLowerCase bech32 in
  let hrp := str (take 4 (chars lower)) in
  match alphabetValues (chars (sliceFrom 5 lower)) with
  | Some values => (6 <=? Z.of_nat (length values)) && checksumOk hrp values
  | None => false
  end.

(** [normalizePrivateKey]; [None] is either of the two thrown errors. *)
Definition normalizePrivateKey (privateKey : string) : option string :=
  let trimmed := trim privateKey in
  h ←
    (if startsWith "nsec" trimmed
     then match bech32ToHex trimmed with
          | Some decoded =>
              match type decoded with nsec => Some (hex decoded) | npub => None end
          | None => None
          end
     else Some trimmed);
  let h := if (String.length h <? 64)%nat then padStart0 64 h else h in
  if (String.length h =? 64)%nat then Some h else None.

End KeyCodec.

(** ** JSON values, property access and [JSON.stringify] *)

Module Json.
Import JS.

(** A parsed JSON value.  Numbers are the integers; [undefined] (an absent
    property) is [None] in an [option json]. *)
#[warnings="-register-all"]
Inductive json :=
| JNull
| JBool (b : bool)
| JNum (n : Z)
| JStr (s : string)
| JArr (items : list json)
| JObj (fields : list (string * json)).

Abbreviation jsval := (option json).

(** ToBoolean *)
Definition truthy (v : jsval) : bool :=
  match v with
  | None => false
  | Some JNull => false
  | Some (JBool b) => b
  | Some (JNum n) => negb (n =? 0)
  | Some (JStr s) => negb (String.eqb s "")
  | Some (JArr _) | Some (JObj _) => true
  end.

(** Own property of a parsed object: the last of duplicate keys wins. *)
Fixpoint lookupField (k : string) (fields : list (string * json)) : jsval :=
  match fields with
  | [] => None
  | (k', v) :: rest =>
      match lookupField k rest with
      | Some w => Some w
      | None => if String.eqb k k' then Some v else None
      end
  end.

(** [v.name] for the property names the sources read ([id], [result],
    [error], [method], [message], [ciphertext], [iv], [pubkey],
    [content]); none of them exists on a string, number, boolean or
    array.  The outer [None] is the TypeError of reading a property of
    [null] or [undefined]. *)
Definition getProp (name : string) (v : jsval) : option jsval :=
  match v with
  | None | Some JNull => None
  | Some (JObj fields) => Some (lookupField name fields)
  | Some _ => Some None
  end.

(** [response.name] of a response that is not [null]. *)
Definition field (name : string) (response : json) : jsval :=
  default None (getProp name (Some response)).

Definition decimal (n : Z) : string := NilZero.string_of_int (Z.to_int n).

(** Strict equality with a string. *)
Definition strictEqStr (v : jsval) (s : string) : bool :=
  match v with
  | Some (JStr t) => String.eqb t s
  | _ => false
  end.

(** The double quote character. *)
Definition dquote : ascii := "034"%char.

(** QuoteJSONString on the UTF-8 bytes of a well-formed text. *)
Definition quoteChar (c : ascii) : list ascii :=
  let n := charCode c in
  if n =? 34 then ["\"%char; dquote]
  else if n =? 92 then chars "\\"
  else if n =? 8 then chars "\b"
  else if n =? 12 then chars "\f"
  else if n =? 10 then chars "\n"
  else if n =? 13 then chars "\r"
  else if n =? 9 then chars "\t"
  else if n <? 32 then chars "\u00" ++ [hexDigit (n / 16); hexDigit (n mod 16)]
  else [c].

Definition quote (s : string) : string :=
  str ([dquote] ++ concat (map quoteChar (chars s)) ++ [dquote]).

Fixpoint commaJoin (l : list string) : string :=
  match l with
  | [] => ""
  | [x] => x
  | x :: rest => x +:+ "," +:+ commaJoin rest
  end.

(** [JSON.stringify] without indentation.  Object members are written in
    the order of [fields] (the sources only build objects with
    non-numeric keys, which keep their insertion order). *)
Fixpoint stringify (v : json) : string :=
  match v with
  | JNull => "null"
  | JBool true => "true"
  | JBool false => "false"
  | JNum n => decimal n
  | JStr s => quote s
  | JArr items => "[" +:+ commaJoin (List.map stringify items) +:+ "]"
  | JObj fields =>
      "{" +:+ commaJoin (List.map (fun kv => quote (fst kv) +:+ ":" +:+ stringify (snd kv)) fields)
          +:+ "}"
  end.

(** ToString, as applied by [JSON.parse] to a non-string argument and by
    [new Error] to its message. *)
Fixpoint toString (v : json) : string :=
  match v with
  | JNull => "null"
  | JBool true => "true"
  | JBool false => "false"
  | JNum n => decimal n
  | JStr s => s
  | JArr items =>
      commaJoin (List.map (fun x => match x with JNull => "" | _ => toString x end) items)
  | JObj _ => "[object Object]"
  end.

End Json.

(** ** Platform text and base64 codecs: [btoa], [atob], [TextEncoder],
    [TextDecoder] *)

Module Codec.
Import JS.

Abbreviation bytes := (list Byte.byte).

(** [Uint8Array.from(s, c => c.charCodeAt(0))] on a binary string, and
    [String.fromCharCode(...bytes)]. *)
Definition bytesOfBinary (s : string) : bytes := list_byte_of_string s.
Definition binaryOfBytes (b : bytes) : string := string_of_list_byte b.

Definition b64chars : string :=
  "ABCDEFGHIJKLMNOPQRSTUVWXYZabcdefghijklmnopqrstuvwxyz0123456789+/".

Definition b64char (v : Z) : ascii := charAt b64chars v.
Definition b64val (c : ascii) : option Z := indexOf c b64chars.

(** [btoa]: RFC 4648 base64 with padding. *)
Fixpoint encodeGroups (l : list ascii) : list ascii :=
  match l with
  | a :: b :: c :: rest =>
      let '(x, y, z) := (charCode a, charCode b, charCode c) in
      b64char (x / 4) :: b64char (x mod 4 * 16 + y / 16)
        :: b64char (y mod 16 * 4 + z / 64) :: b64char (z mod 64)
        :: encodeGroups rest
  | [a; b] =>
      let '(x, y) := (charCode a, charCode b) in
      [b64char (x / 4); b64char (x mod 4 * 16 + y / 16); b64char (y mod 16 * 4); "="%char]
  | [a] =>
      let x := charCode a in
      [b64char (x / 4); b64char (x mod 4 * 16); "="%char; "="%char]
  | [] => []
  end.

Definition btoa (s : string) : string := str (encodeGroups (chars s)).

(** The sextets and the padding that [btoa] writes. *)
Fixpoint sextetsOf (l : list ascii) : list Z :=
  match l with
  | a :: b :: c :: rest =>
      let '(x, y, z) := (charCode a, charCode b, charCode c) in
      x / 4 :: x mod 4 * 16 + y / 16 :: y mod 16 * 4 + z / 64 :: z mod 64 :: sextetsOf rest
  | [a; b] =>
      let '(x, y) := (charCode a, charCode b) in
      [x / 4; x mod 4 * 16 + y / 16; y mod 16 * 4]
  | [a] => let x := charCode a in [x / 4; x mod 4 * 16]
  | [] => []
  end.

Fixpoint paddingOf (l : list ascii) : list ascii :=
  match l with
  | _ :: _ :: _ :: rest => paddingOf rest
  | [_; _] => ["="%char]
  | [_] => ["="%char; "="%char]
  | [] => []
  end.

(** [atob]: the forgiving-base64 decode of the HTML standard.  ASCII
    white space (tab, LF, FF, CR, space) is removed; when the length is a
    multiple of four, one or two trailing [=] are removed; a length of
    1 modulo 4 or a character outside the alphabet is an
    InvalidCharacterError ([None]). *)
Definition isB64Space (c : ascii) : bool :=
  let n := charCode c in
  (n =? 9) || (n =? 10) || (n =? 12) || (n =? 13) || (n =? 32).

Definition stripPadding (d : list ascii) : list ascii :=
  match rev d with
  | c1 :: r1 =>
      if Ascii.eqb c1 "="
      then match r1 with
           | c2 :: r2 => if Ascii.eqb c2 "=" then rev r2 else rev r1
           | [] => rev r1
           end
      else d
  | [] => d
  end.

Fixpoint sextets (d : list ascii) : option (list Z) :=
  match d with
  | [] => Some []
  | c :: d' =>
      match b64val c with
      | None => None
      | Some v => cons v <$> sextets d'
      end
  end.

Fixpoint decodeGroups (vs : list Z) : list ascii :=
  match vs with
  | s1 :: s2 :: s3 :: s4 :: rest =>
      fromCharCode (s1 * 4 + s2 / 16) :: fromCharCode (s2 mod 16 * 16 + s3 / 4)
        :: fromCharCode (s3 mod 4 * 64 + s4) :: decodeGroups rest
  | [s1; s2; s3] =>
      [fromCharCode (s1 * 4 + s2 / 16); fromCharCode (s2 mod 16 * 16 + s3 / 4)]
  | [s1; s2] => [fromCharCode (s1 * 4 + s2 / 16)]
  | _ => []
  end.

Definition atob (s : string) : option string :=
  let d := filter (fun c => isB64Space c = false) (chars s) in
  let d := if (length d mod 4 =? 0)%nat then stripPadding d else d in
  if (length d mod 4 =? 1)%nat then None
  else vs ← sextets d; Some (str (decodeGroups vs)).

(** A character that [atob] tolerates: white space, a character of the
    alphabet, or the padding sign. *)
Definition b64Tolerated (c : ascii) : bool :=
  isB64Space c || bool_decide (is_Some (b64val c)) || Ascii.eqb c "=".

(** [new TextEncoder().encode(s)]: the UTF-8 bytes of the text. *)
Definition TextEncoder_encode (s : string) : bytes := list_byte_of_string s.

(** [new TextDecoder().decode(b)]: the UTF-8 decoder of the Encoding
    standard.  A malformed sequence becomes U+FFFD and, the decoder being
    created with its default [ignoreBOM = false], a leading U+FEFF is
    removed from the result.  The text is given back as UTF-8 bytes. *)
Definition replacement : list ascii := ["239"%char; "191"%char; "189"%char].
Definition BOM : list ascii := ["239"%char; "187"%char; "191"%char].

Definition utf8Lead (b : Z) : option (nat * Z * Z) :=
  if (0xC2 <=? b) && (b <=? 0xDF) then Some (1%nat, 0x80, 0xBF)
  else if (0xE0 <=? b) && (b <=? 0xEF)
  then Some (2%nat, if b =? 0xE0 then 0xA0 else 0x80, if b =? 0xED then 0x9F else 0xBF)
  else if (0xF0 <=? b) && (b <=? 0xF4)
  then Some (3%nat, if b =? 0xF0 then 0x90 else 0x80, if b =? 0xF4 then 0x8F else 0xBF)
  else None.

Fixpoint utf8Decode (needed : nat) (lower upper : Z) (pending : list ascii)
    (l : list ascii) : list ascii :=
  match l with
  | [] => match needed with O => [] | S _ => replacement end
  | c :: rest =>
      let b := charCode c in
      let start (_ : unit) :=
        if b <=? 0x7F then c :: utf8Decode O 0x80 0xBF [] rest
        else match utf8Lead b with
             | Some (n, lo, hi) => utf8Decode n lo hi [c] rest
             | None => replacement ++ utf8Decode O 0x80 0xBF [] rest
             end in
      match needed with
      | O => start ()
      | S k =>
          if (lower <=? b) && (b <=? upper)
          then match k with
               | O => pending ++ [c] ++ utf8Decode O 0x80 0xBF [] rest
               | S _ => utf8Decode k 0x80 0xBF (pending ++ [c]) rest
               end
          else replacement ++ start ()
      end
  end.

Definition stripBOM (l : list ascii) : list ascii :=
  match l with
  | a :: b :: c :: rest =>
      if (charCode a =? 0xEF) && (charCode b =? 0xBB) && (charCode c =? 0xBF)
      then rest else l
  | _ => l
  end.

(** Well-formed UTF-8 (table 3-7 of the Unicode standard). *)
Definition inRange (lo hi : Z) (c : ascii) : bool :=
  (lo <=? charCode c) && (charCode c <=? hi).

Fixpoint utf8Valid (l : list ascii) : bool :=
  match l with
  | [] => true
  | c :: r =>
      if charCode c <=? 0x7F then utf8Valid r
      else match utf8Lead (charCode c) with
           | Some (1%nat, lo, hi) =>
               match r with
               | c1 :: r1 => inRange lo hi c1 && utf8Valid r1
               | _ => false
               end
           | Some (2%nat, lo, hi) =>
               match r with
               | c1 :: c2 :: r2 => inRange lo hi c1 && inRange 0x80 0xBF c2 && utf8Valid r2
               | _ => false
               end
           | Some (_, lo, hi) =>
               match r with
               | c1 :: c2 :: c3 :: r3 =>
                   inRange lo hi c1 && inRange 0x80 0xBF c2 && inRange 0x80 0xBF c3
                   && utf8Valid r3
               | _ => false
               end
           | None => false
           end
  end.

(** Whether a text starts with U+FEFF. *)
Definition startsWithBOM (s : string) : bool :=
  match chars s with
  | a :: b :: c :: _ => (charCode a =? 0xEF) && (charCode b =? 0xBB) && (charCode c =? 0xBF)
  | _ => false
  end.

Definition TextDecoder_decode (b : bytes) : string :=
  str (stripBOM (utf8Decode O 0x80 0xBF [] (chars (string_of_list_byte b)))).

End Codec.

(** ** The cryptographic and parsing primitives the sources import

    SHA-256, the hex helpers and secp256k1 of the noble libraries, AES-CBC
    of WebCrypto ([importKey] followed by [encrypt] or [decrypt]), NIP-44
    of nostr-tools and [JSON.parse].  A primitive that can throw returns
    [option]. *)

Class Platform := {
  sha256 : Codec.bytes -> Codec.bytes;
  bytesToHex : Codec.bytes -> string;
  hexToBytes : string -> option Codec.bytes;
  (* schnorr.sign: message, secret key, fresh randomness *)
  schnorr_sign : Codec.bytes -> Codec.bytes -> Codec.bytes -> option Codec.bytes;
  (* getSharedSecret: secret key, compressed point *)
  getSharedSecret : Codec.bytes -> Codec.bytes -> option Codec.bytes;
  (* AES-CBC: raw key, IV, data *)
  aes_cbc_encrypt : Codec.bytes -> Codec.bytes -> Codec.bytes -> option Codec.bytes;
  aes_cbc_decrypt : Codec.bytes -> Codec.bytes -> Codec.bytes -> option Codec.bytes;
  (* nip44.v2: secret key and x-only key; payload and conversation key *)
  nip44_getConversationKey : Codec.bytes -> string -> option Codec.bytes;
  nip44_decrypt : string -> Codec.bytes -> option string;
  JSON_parse : string -> option Json.json;
  (* crypto.subtle is defined *)
  subtleAvailable : bool
}.

(** ** EventSigner: [getEventHash], [signEvent] (src/lib/nostr/crypto.ts) *)

Module EventSigner.
Import JS Json Codec KeyCodec.

Record NostrEvent := {
  id : option string;
  pubkey : string;
  created_at : Z;
  kind : Z;
  tags : list (list string);
  content : string;
  sig : option string
}.

(** The array literal [[0, event.pubkey, event.created_at, event.kind,
    event.tags, event.content]]. *)
Definition preimageArray (event : NostrEvent) : json :=
  JArr [JNum 0; JStr (pubkey event); JNum (created_at event); JNum (kind event);
        JArr (map (fun tag => JArr (map JStr tag)) (tags event));
        JStr (content event)].

Section WithPlatform.
Context `{P : Platform}.

Definition getEventHash (event : NostrEvent) : string :=
  let serialized := stringify (preimageArray event) in
  bytesToHex (sha256 (TextEncoder_encode serialized)).

(** [aux] is the fresh randomness that [schnorr.sign] draws. *)
Definition signEvent (event : NostrEvent) (privateKey : string) (aux : bytes)
  : option string :=
  normalizedKey ← normalizePrivateKey privateKey;
  let serialized := stringify (preimageArray event) in
  let hash := sha256 (TextEncoder_encode serialized) in
  key ← hexToBytes normalizedKey;
  sig ← schnorr_sign hash key aux;
  Some (bytesToHex sig).

End WithPlatform.

(** The canonical serialization in the words of the specification: the
    six fields in the fixed order, separated by single commas, with no
    white space between the tokens. *)
Definition tagSpec (tag : list string) : string :=
  "[" +:+ commaJoin (map quote tag) +:+ "]".

Definition canonicalSerialize (event : NostrEvent) : string :=
  "[" +:+ "0" +:+ "," +:+ quote (pubkey event) +:+ ","
      +:+ decimal (created_at event) +:+ "," +:+ decimal (kind event) +:+ ","
      +:+ ("[" +:+ commaJoin (map tagSpec (tags event)) +:+ "]") +:+ ","
      +:+ quote (content event) +:+ "]".

End EventSigner.

(** ** CipherLayer: [nip04Encrypt], [nip44DecryptMessage],
    [nip04DecryptOnly], [nip04Decrypt] (src/lib/nostr/crypto.ts) *)

Module CipherLayer.
Import JS Json Codec KeyCodec.

Inductive Error :=
| WebCryptoUnavailable   (* "WebCrypto not available in this context" *)
| NoIVSeparator          (* "Invalid NIP-04 ciphertext format: no IV separator found" *)
| InvalidIVLength        (* "Invalid IV length: expected 16 bytes, ..." *)
| EmptyCiphertext        (* "Empty ciphertext" *)
| UnknownFormat          (* "Unknown encryption format. Content preview: ..." *)
| Thrown.                (* an exception of a callee: atob, key handling, a primitive *)

Inductive Result :=
| Ok (plaintext : string)
| Err (e : Error).

(** The lines written to the console, in order. *)
Inductive LogLine :=
| LogNip44Detected       (* "Detected NIP-44 format, decrypting with nostr-tools..." *)
| LogNip44Error          (* console.error of nip44DecryptMessage *)
| LogTryingNip04         (* "Base64 decode failed or NIP-44 decrypt failed, trying NIP-04:" *)
| LogNip04Separator      (* "Detected NIP-04 format with IV separator" *)
| LogNip04Json.          (* "Detected NIP-04 JSON format" *)

(** [Uint8Array.from(atob(s), c => c.charCodeAt(0))] *)
Definition decodeBase64 (s : string) : option bytes := bytesOfBinary <$> atob s.

Definition hasSeparator (ciphertext : string) : bool :=
  includes "?iv=" ciphertext || includes "&iv=" ciphertext || includes "_iv=" ciphertext.

Definition orThrown (o : option string) : Result :=
  match o with Some p => Ok p | None => Err Thrown end.

Section WithPlatform.
Context `{P : Platform}.

(** [sharedPoint.slice(1, 33)] of the ECDH point of a private key and the
    x-only key of the counterparty. *)
Definition sharedX (privateKey counterparty : string) : option bytes :=
  normalizedKey ← normalizePrivateKey privateKey;
  key ← hexToBytes normalizedKey;
  point ← hexToBytes ("02" +:+ counterparty);
  sharedPoint ← getSharedSecret key point;
  Some (take 32 (drop 1 sharedPoint)).

(** [iv] is the value of [crypto.getRandomValues(new Uint8Array(16))]. *)
Definition nip04Encrypt (privateKey recipientPubkey message : string) (iv : bytes)
  : option string :=
  sharedX ← sharedX privateKey recipientPubkey;
  encrypted ← (if subtleAvailable
               then aes_cbc_encrypt sharedX iv (TextEncoder_encode message)
               else None);
  let encryptedBase64 := btoa (binaryOfBytes encrypted) in
  let ivBase64 := btoa (binaryOfBytes iv) in
  Some (encryptedBase64 +:+ "?iv=" +:+ ivBase64).

Definition nip44DecryptMessage (privateKey senderPubkey ciphertext : string)
  : option string :=
  normalizedKey ← normalizePrivateKey privateKey;
  key ← hexToBytes normalizedKey;
  conversationKey ← nip44_getConversationKey key senderPubkey;
  nip44_decrypt ciphertext conversationKey.

(** The two parts taken by [const [encryptedBase64, ivBase64] =
    ciphertext.split(sep)]; a missing part is [undefined], which [atob]
    reads as the text "undefined". *)
Definition splitParts (sep ciphertext : string) : string * string :=
  let parts := split sep ciphertext in
  (default "undefined" (parts !! 0%nat), default "undefined" (parts !! 1%nat)).

(** The JSON branch of [nip04DecryptOnly]: both byte arrays, each [None]
    when it stayed [undefined]. *)
Definition jsonParts (ciphertext : string) : option bytes * option bytes :=
  match JSON_parse ciphertext with
  | None => (None, None)
  | Some json =>
      match getProp "ciphertext" (Some json), getProp "iv" (Some json) with
      | Some c, Some i =>
          if truthy c && truthy i
          then match decodeBase64 (default "" (toString <$> c)) with
               | None => (None, None)
               | Some e => (Some e, decodeBase64 (default "" (toString <$> i)))
               end
          else (None, None)
      | _, _ => (None, None)
      end
  end.

Definition separatorParts (sep ciphertext : string) : option (bytes * bytes) :=
  let '(encryptedBase64, ivBase64) := splitParts sep ciphertext in
  encryptedBytes ← decodeBase64 encryptedBase64;
  ivBytes ← decodeBase64 ivBase64;
  Some (encryptedBytes, ivBytes).

Definition decryptParts (privateKey senderPubkey : string)
    (encryptedBytes ivBytes : bytes) : Result :=
  if negb (length ivBytes =? 16)%nat then Err InvalidIVLength
  else if (length encryptedBytes =? 0)%nat then Err EmptyCiphertext
  else orThrown (
    sharedX ← sharedX privateKey senderPubkey;
    decrypted ← aes_cbc_decrypt sharedX ivBytes encryptedBytes;
    Some (TextDecoder_decode decrypted)).

Definition nip04DecryptOnly (privateKey senderPubkey ciphertext : string) : Result :=
  if negb subtleAvailable then Err WebCryptoUnavailable
  else
    let viaSeparator sep :=
      match separatorParts sep ciphertext with
      | None => Err Thrown
      | Some (e, i) => decryptParts privateKey senderPubkey e i
      end in
    if includes "?iv=" ciphertext then viaSeparator "?iv="
    else if includes "&iv=" ciphertext then viaSeparator "&iv="
    else if includes "_iv=" ciphertext then viaSeparator "_iv="
    else
      match jsonParts ciphertext with
      | (Some e, Some i) => decryptParts privateKey senderPubkey e i
      | _ => Err NoIVSeparator
      end.

(** The test [decoded[0] === 2 && decoded.length >= 65]. *)
Definition looksVersioned (decoded : bytes) : bool :=
  match decoded with
  | b :: _ => (Byte.to_N b =? 2)%N
  | [] => false
  end && (65 <=? length decoded)%nat.

(** The test of the last [try] block: [json.ciphertext && json.iv] on the
    parsed text; a SyntaxError or a TypeError makes it [false]. *)
Definition jsonHasFields (ciphertext : string) : bool :=
  match JSON_parse ciphertext with
  | None => false
  | Some json =>
      match getProp "ciphertext" (Some json), getProp "iv" (Some json) with
      | Some c, Some i => truthy c && truthy i
      | _, _ => false
      end
  end.

(** The part of [nip04Decrypt] after the first [try] block. *)
Definition legacyDispatch (privateKey senderPubkey ciphertext : string)
  : list LogLine * Result :=
  if hasSeparator ciphertext
  then ([LogNip04Separator], nip04DecryptOnly privateKey senderPubkey ciphertext)
  else if jsonHasFields ciphertext
  then ([LogNip04Json], nip04DecryptOnly privateKey senderPubkey ciphertext)
  else ([], Err UnknownFormat).

Definition nip04Decrypt (privateKey senderPubkey ciphertext : string)
  : list LogLine * Result :=
  let continue (log : list LogLine) :=
    let '(log', r) := legacyDispatch privateKey senderPubkey ciphertext in
    (log ++ log', r) in
  match decodeBase64 ciphertext with
  | None => continue [LogTryingNip04]
  | Some decoded =>
      if looksVersioned decoded
      then match nip44DecryptMessage privateKey senderPubkey ciphertext with
           | Some plaintext => ([LogNip44Detected], Ok plaintext)
           | None => continue [LogNip44Detected; LogNip44Error; LogTryingNip04]
           end
      else continue []
  end.

End WithPlatform.

(** The classification in the words of the specification: versioned when
    the text base64-decodes to at least 65 bytes the first of which is
    0x02; otherwise legacy when it holds one of the three separators or
    parses as JSON with [ciphertext] and [iv]; otherwise unknown. *)
Inductive Format := Versioned | Legacy | Unknown.

Definition isVersioned (ciphertext : string) : bool :=
  match decodeBase64 ciphertext with
  | Some decoded =>
      bool_decide (Byte.to_N <$> head decoded = Some 2%N /\ (65 <= length decoded)%nat)
  | None => false
  end.

Definition classify `{P : Platform} (ciphertext : string) : Format :=
  if isVersioned ciphertext then Versioned
  else if hasSeparator ciphertext || jsonHasFields ciphertext then Legacy
  else Unknown.

End CipherLayer.

(** ** RemoteSignerSession: the acknowledgement test of
    [startNostrConnect] and [requestSignature] (src/lib/nostr/crypto.ts,
    second part)

    [requestSignature] is modelled from the point where a stored session
    was found.  Each handler runs in one step: the awaits inside a handler
    are not interleaved with other events. *)

Module Connect.
Import JS Json Codec KeyCodec EventSigner CipherLayer.

(** A parsed relay message, typed as the handlers type it: an ["EVENT"]
    message whose third element is a [NostrEvent], or anything else (text
    that does not parse, another first element). *)
Inductive RelayMessage :=
| MsgEvent (event : NostrEvent)
| MsgOther.

(** The value of [isConnectResponse] as the following [if] reads it; the
    operands are those of the source, in order.  [None] is the TypeError
    of reading a property of [null], which the handler catches. *)
Definition isConnectResponse (response : json) (secret : string) : option bool :=
  result ← getProp "result" (Some response);
  method ← getProp "method" (Some response);
  error ← getProp "error" (Some response);
  id ← getProp "id" (Some response);
  Some (strictEqStr result "ack"
        || strictEqStr result secret
        || strictEqStr method "connect"
        || (truthy result && negb (truthy error))
        || (truthy id && bool_decide (result <> None))).

(** The five conditions in the words of the specification, with "present"
    read as "the field is there" and "absent" as its negation. *)
Definition specAckPresent (response : json) (secret : string) : Prop :=
  field "result" response = Some (JStr "ack")
  \/ field "result" response = Some (JStr secret)
  \/ field "method" response = Some (JStr "connect")
  \/ (field "result" response <> None /\ field "error" response = None)
  \/ (field "id" response <> None /\ field "result" response <> None).

(** The same with "present" read as "truthy" and "absent" as "falsy". *)
Definition specAckTruthy (response : json) (secret : string) : Prop :=
  field "result" response = Some (JStr "ack")
  \/ field "result" response = Some (JStr secret)
  \/ field "method" response = Some (JStr "connect")
  \/ (truthy (field "result" response) = true /\ truthy (field "error" response) = false)
  \/ (truthy (field "id" response) = true /\ truthy (field "result" response) = true).

Record StoredSession := {
  clientPrivateKey : string;
  clientPubkey : string;
  remotePubkey : string;
  relay : string
}.

Inductive Promise :=
| Pending
| Resolved (value : json)
| Rejected (message : string).

Record SignState := {
  promise : Promise;
  timerArmed : bool;        (* the 60000 ms timer is pending *)
  closed : bool;            (* ws.close() has been called *)
  sent : list string        (* ws.send calls, oldest first *)
}.

Definition resolve (v : json) (st : SignState) : SignState :=
  match promise st with
  | Pending => {| promise := Resolved v; timerArmed := timerArmed st;
                  closed := closed st; sent := sent st |}
  | _ => st
  end.

Definition reject (msg : string) (st : SignState) : SignState :=
  match promise st with
  | Pending => {| promise := Rejected msg; timerArmed := timerArmed st;
                  closed := closed st; sent := sent st |}
  | _ => st
  end.

Definition clearTimeout (st : SignState) : SignState :=
  {| promise := promise st; timerArmed := false; closed := closed st; sent := sent st |}.

Definition wsClose (st : SignState) : SignState :=
  {| promise := promise st; timerArmed := timerArmed st; closed := true; sent := sent st |}.

Definition wsSend (m : string) (st : SignState) : SignState :=
  {| promise := promise st; timerArmed := timerArmed st; closed := closed st;
     sent := sent st ++ [m] |}.

Definition armTimeout (st : SignState) : SignState :=
  {| promise := promise st; timerArmed := true; closed := closed st; sent := sent st |}.

Definition eventJson (e : NostrEvent) : json :=
  JObj ([("pubkey", JStr (pubkey e)); ("created_at", JNum (created_at e));
         ("kind", JNum (kind e));
         ("tags", JArr (map (fun tag => JArr (map JStr tag)) (tags e)));
         ("content", JStr (content e))]
        ++ match EventSigner.id e with Some i => [("id", JStr i)] | None => [] end
        ++ match sig e with Some s => [("sig", JStr s)] | None => [] end).

(** The message of the rejection: [response.error.message || "Signing rejected"]. *)
Definition rejectionMessage (error : jsval) : string :=
  match getProp "message" error with
  | Some (Some m) => if truthy (Some m) then toString m else "Signing rejected"
  | _ => "Signing rejected"
  end.

Section WithPlatform.
Context `{P : Platform}.

Variable session : StoredSession.
Variable requestId : string.
Variable event : json.

(** Events of one request: the socket opens ([now] is [Date.now()], [iv]
    and [aux] the randomness drawn while the request is built), a message
    arrives, the socket reports an error, the timer fires. *)
Inductive Event :=
| EvOpen (now : Z) (iv aux : bytes)
| EvMessage (m : RelayMessage)
| EvError
| EvTimeout.

Definition initial : SignState :=
  {| promise := Pending; timerArmed := false; closed := false; sent := [] |}.

Definition onopen (now : Z) (iv aux : bytes) (st : SignState) : SignState :=
  let subId := "sign-" +:+ decimal now in
  let st := wsSend (stringify (JArr [JStr "REQ"; JStr subId;
              JObj [("kinds", JArr [JNum 24133]);
                    ("#p", JArr [JStr (clientPubkey session)]);
                    ("since", JNum (now / 1000 - 10))]])) st in
  let request := JObj [("id", JStr requestId); ("method", JStr "sign_event");
                       ("params", JArr [JStr (stringify event)])] in
  match nip04Encrypt (clientPrivateKey session) (remotePubkey session)
          (stringify request) iv with
  | None => st
  | Some encrypted =>
      let requestEvent :=
        {| id := None; pubkey := clientPubkey session; created_at := now / 1000;
           kind := 24133; tags := [["p"; remotePubkey session]];
           content := encrypted; sig := None |} in
      let hash := getEventHash requestEvent in
      match signEvent requestEvent (clientPrivateKey session) aux with
      | None => st
      | Some sg =>
          let requestEvent :=
            {| id := Some hash; pubkey := pubkey requestEvent;
               created_at := created_at requestEvent; kind := kind requestEvent;
               tags := tags requestEvent; content := content requestEvent;
               sig := Some sg |} in
          armTimeout (wsSend (stringify (JArr [JStr "EVENT"; eventJson requestEvent])) st)
      end
  end.

(** The body of [if (response.id === requestId) { ... }]. *)
Definition onMatch (response : json) (st : SignState) : SignState :=
  let st := wsClose (clearTimeout st) in
  match getProp "result" (Some response), getProp "error" (Some response) with
  | Some result, Some error =>
      if truthy result
      then match JSON_parse (default "" (toString <$> result)) with
           | Some signed => resolve signed st
           | None => st
           end
      else if truthy error then reject (rejectionMessage error) st
      else st
  | _, _ => st
  end.

(** The response carried by a message: the parsed plaintext of its event.
    A failure on the way (a decryption that throws, a plaintext that does
    not parse) is caught by the handler. *)
Definition responseOf (m : RelayMessage) : option json :=
  match m with
  | MsgOther => None
  | MsgEvent responseEvent =>
      match snd (nip04Decrypt (clientPrivateKey session) (pubkey responseEvent)
                   (content responseEvent)) with
      | Err _ => None
      | Ok decrypted => JSON_parse decrypted
      end
  end.

Definition onmessage (m : RelayMessage) (st : SignState) : SignState :=
  match responseOf m with
  | None => st
  | Some response =>
      match getProp "id" (Some response) with
      | None => st
      | Some rid => if strictEqStr rid requestId then onMatch response st else st
      end
  end.

Definition onerror (st : SignState) : SignState :=
  reject "Connection error" (clearTimeout st).

(** The callback of the 60000 ms timer; having fired, the timer is no
    longer pending. *)
Definition ontimeout (st : SignState) : SignState :=
  reject "Signing request timed out" (wsClose (clearTimeout st)).

(** Delivery of an event by the platform: a cleared timer does not fire,
    and a socket on which [close()] was called dispatches no further
    message. *)
Definition step (st : SignState) (e : Event) : SignState :=
  match e with
  | EvOpen now iv aux => onopen now iv aux st
  | EvMessage m => if closed st then st else onmessage m st
  | EvError => onerror st
  | EvTimeout => if timerArmed st then ontimeout st else st
  end.

Definition run (st : SignState) (es : list Event) : SignState := fold_left step es st.

(** A message whose response, if it has one, does not carry the id of the
    request. *)
Definition nonMatching (m : RelayMessage) : Prop :=
  forall response, responseOf m = Some response ->
    field "id" response <> Some (JStr requestId).

(** Events that a closed request can still see without a transport
    error: messages and the timer. *)
Definition quiet (e : Event) : Prop :=
  match e with
  | EvMessage _ | EvTimeout => True
  | EvOpen _ _ _ | EvError => False
  end.

End WithPlatform.

End Connect.

(** ** RelayAggregator: [fetchNotesStreaming] of the profile-notes hook
    (src/unnamed/part_001) *)

Module ProfileNotes.

Definition RELAYS : list string :=
  ["wss://relay.damus.io"; "wss://relay.nostr.band"; "wss://nos.lol";
   "wss://relay.snort.social"].

Definition NOTES_PER_PAGE : nat := 20.
Definition RELAY_TIMEOUT : Z := 5000.
Definition FIRST_RESULT_TIMEOUT : Z := 2000.

Record NostrNote := {
  id : string;
  pubkey : string;
  content : string;
  created_at : Z;
  tags : list (list string);
  kind : Z;
  sig : string
}.

(** A parsed relay message: an ["EVENT"] with its event, an ["EOSE"], or
    anything else (text that does not parse, another first element). *)
Inductive RelayMessage :=
| MsgEvent (event : NostrNote)
| MsgEOSE
| MsgOther.

(** Events of one query; sockets are numbered by the position of their
    relay in [RELAYS]. *)
Inductive Event :=
| Open (i : nat)
| Message (i : nat) (m : RelayMessage)
| SockError (i : nat)
| SockClose (i : nat)
| HardTimeout
| EarlyTimeout.

Record State := {
  seenIds : gset string;
  completedRelays : nat;
  hasReceivedAny : bool;
  timeoutId : bool;               (* the RELAY_TIMEOUT timer is pending *)
  earlyTimeoutId : bool;          (* the FIRST_RESULT_TIMEOUT timer is pending *)
  activeConnections : list nat;   (* activeConnectionsRef.current *)
  closing : list nat;             (* sockets on which close() was called *)
  subscribed : list nat;          (* sockets that sent their REQ *)
  delivered : list NostrNote;     (* calls of onNote, oldest first *)
  completions : nat               (* calls of onComplete *)
}.

Definition onComplete (st : State) : State :=
  {| seenIds := seenIds st; completedRelays := completedRelays st;
     hasReceivedAny := hasReceivedAny st; timeoutId := timeoutId st;
     earlyTimeoutId := earlyTimeoutId st; activeConnections := activeConnections st;
     closing := closing st; subscribed := subscribed st; delivered := delivered st;
     completions := S (completions st) |}.

Definition closeConnections (st : State) : State :=
  {| seenIds := seenIds st; completedRelays := completedRelays st;
     hasReceivedAny := hasReceivedAny st; timeoutId := timeoutId st;
     earlyTimeoutId := earlyTimeoutId st; activeConnections := [];
     closing := closing st ++ activeConnections st; subscribed := subscribed st;
     delivered := delivered st; completions := completions st |}.

Definition wsClose (i : nat) (st : State) : State :=
  {| seenIds := seenIds st; completedRelays := completedRelays st;
     hasReceivedAny := hasReceivedAny st; timeoutId := timeoutId st;
     earlyTimeoutId := earlyTimeoutId st; activeConnections := activeConnections st;
     closing := closing st ++ [i]; subscribed := subscribed st;
     delivered := delivered st; completions := completions st |}.

Definition setTimers (hard early : bool) (st : State) : State :=
  {| seenIds := seenIds st; completedRelays := completedRelays st;
     hasReceivedAny := hasReceivedAny st; timeoutId := hard;
     earlyTimeoutId := early; activeConnections := activeConnections st;
     closing := closing st; subscribed := subscribed st;
     delivered := delivered st; completions := completions st |}.

(** The state when [fetchNotesStreaming] returns: [constructed i] tells
    whether [new WebSocket] succeeded for relay [i]; a constructor that
    throws is counted as a completed relay. *)
Definition start (constructed : nat -> bool) : State :=
  let sockets := seq 0 (length RELAYS) in
  {| seenIds := ∅;
     completedRelays := length (filter (fun i => constructed i = false) sockets);
     hasReceivedAny := false; timeoutId := true; earlyTimeoutId := false;
     activeConnections := filter (fun i => constructed i = true) sockets;
     closing := []; subscribed := []; delivered := []; completions := 0 |}.

Definition onopen (i : nat) (st : State) : State :=
  {| seenIds := seenIds st; completedRelays := completedRelays st;
     hasReceivedAny := hasReceivedAny st; timeoutId := timeoutId st;
     earlyTimeoutId := earlyTimeoutId st; activeConnections := activeConnections st;
     closing := closing st; subscribed := subscribed st ++ [i];
     delivered := delivered st; completions := completions st |}.

(** The body of [if (!seenIds.has(note.id)) { ... }]. *)
Definition acceptNote (note : NostrNote) (st : State) : State :=
  {| seenIds := {[ id note ]} ∪ seenIds st; completedRelays := completedRelays st;
     hasReceivedAny := true; timeoutId := timeoutId st;
     earlyTimeoutId := if hasReceivedAny st then earlyTimeoutId st else true;
     activeConnections := activeConnections st; closing := closing st;
     subscribed := subscribed st; delivered := delivered st ++ [note];
     completions := completions st |}.

Definition onmessage (i : nat) (m : RelayMessage) (st : State) : State :=
  match m with
  | MsgEvent ev =>
      if kind ev =? 1
      then if decide (id ev ∈ seenIds st) then st else acceptNote ev st
      else st
  | MsgEOSE => wsClose i st
  | MsgOther => st
  end.

Definition checkComplete (st : State) : State :=
  if (length RELAYS <=? completedRelays st)%nat
  then onComplete (setTimers false false st)
  else st.

Definition countCompleted (st : State) : State :=
  {| seenIds := seenIds st; completedRelays := S (completedRelays st);
     hasReceivedAny := hasReceivedAny st; timeoutId := timeoutId st;
     earlyTimeoutId := earlyTimeoutId st; activeConnections := activeConnections st;
     closing := closing st; subscribed := subscribed st; delivered := delivered st;
     completions := completions st |}.

Definition onerror (i : nat) (st : State) : State := checkComplete (countCompleted st).
Definition onclose (i : nat) (st : State) : State := checkComplete (countCompleted st).

(** The callback of the RELAY_TIMEOUT timer. *)
Definition onHardTimeout (st : State) : State :=
  onComplete (closeConnections (setTimers false (earlyTimeoutId st) st)).

(** The callback of the FIRST_RESULT_TIMEOUT timer. *)
Definition onEarlyTimeout (st : State) : State :=
  let st := setTimers (timeoutId st) false st in
  if (NOTES_PER_PAGE / 2 <=? size (seenIds st))%nat
  then onComplete (closeConnections (setTimers false false st))
  else st.

(** Delivery of an event by the platform: a timer that is not pending (not
    yet set, cleared, or already fired) does not fire. *)
Definition step (st : State) (e : Event) : State :=
  match e with
  | Open i => onopen i st
  | Message i m => onmessage i m st
  | SockError i => onerror i st
  | SockClose i => onclose i st
  | HardTimeout => if timeoutId st then onHardTimeout st else st
  | EarlyTimeout => if earlyTimeoutId st then onEarlyTimeout st else st
  end.

Definition run (st : State) (es : list Event) : State := fold_left step es st.

(** The ids handed to [onNote], oldest first. *)
Definition deliveredIds (st : State) : list string := map id (delivered st).

(** The link between what was handed to [onNote] and the dedup set. *)
Definition consistent (st : State) : Prop :=
  NoDup (deliveredIds st) /\ (forall x, x ∈ deliveredIds st <-> x ∈ seenIds st).

End ProfileNotes.

(** ** The follow count of the profile-data hook (src/unnamed/part_000,
    the kind-3 socket of [fetchProfile]) *)

Module ProfileData.

Record ContactEvent := {
  kind : Z;
  tags : list (list string)
}.

Inductive RelayMessage :=
| MsgEvent (event : ContactEvent)
| MsgEOSE
| MsgOther.

Record FollowsState := {
  followsReceived : bool;
  followingCount : option nat;      (* null until setFollowingCount is called *)
  isLoadingFollowing : bool;
  closing : list nat                (* follow sockets on which close() was called *)
}.

(** The predicate of [tags.filter]: [tag[0] === "p" && tag[1]]. *)
Definition isFollowTag (tag : list string) : bool :=
  match tag with
  | t0 :: t1 :: _ => String.eqb t0 "p" && negb (String.eqb t1 "")
  | _ => false
  end.

Definition initial : FollowsState :=
  {| followsReceived := false; followingCount := None; isLoadingFollowing := true;
     closing := [] |}.

Definition followsOnMessage (i : nat) (m : RelayMessage) (st : FollowsState)
  : FollowsState :=
  match m with
  | MsgEvent ev =>
      if (kind ev =? 3) && negb (followsReceived st)
      then
        let pTags := filter (fun tag => isFollowTag tag = true) (tags ev) in
        {| followsReceived := true; followingCount := Some (length pTags);
           isLoadingFollowing := false; closing := closing st ++ [i] |}
      else st
  | MsgEOSE =>
      {| followsReceived := followsReceived st; followingCount := followingCount st;
         isLoadingFollowing := isLoadingFollowing st; closing := closing st ++ [i] |}
  | MsgOther => st
  end.

(** The count in the words of the specification: the tags whose first
    element is the string "p". *)
Definition pTagged (tag : list string) : bool :=
  match tag with
  | t0 :: _ => String.eqb t0 "p"
  | [] => false
  end.

Definition specFollowCount (tags : list (list string)) : nat :=
  length (filter (fun tag => pTagged tag = true) tags).

End ProfileData.

(** ** A small platform on which the model runs

    An instance of the primitives used to evaluate the model on closed
    examples.  Its cipher appends one byte and its decryption removes it;
    every pair of keys shares the same secret; its NIP-44 decryption
    always throws; [JSON.parse] knows the texts of [sampleTexts] and
    throws on every other text. *)

Module Sample.
Import JS Json Codec EventSigner CipherLayer Connect.

Definition signedEvent : json :=
  JObj [("id", JStr "e1"); ("pubkey", JStr "ab"); ("sig", JStr "f0")].

Definition respOk : json :=
  JObj [("id", JStr "req1"); ("result", JStr (stringify signedEvent))].
Definition respError : json :=
  JObj [("id", JStr "req1"); ("error", JStr "denied")].
Definition respBoth : json :=
  JObj [("id", JStr "req1"); ("result", JStr (stringify signedEvent));
        ("error", JStr "denied")].
Definition respOther : json :=
  JObj [("id", JStr "other"); ("result", JStr (stringify signedEvent))].
Definition respBare : json := JObj [("id", JStr "req1")].
Definition respGarbled : json :=
  JObj [("id", JStr "req1"); ("result", JStr "not json")].

Definition sampleTexts : list json :=
  [signedEvent; respOk; respError; respBoth; respOther; respBare; respGarbled].

Definition sampleParse (text : string) : option json :=
  head (filter (fun v => String.eqb (stringify v) text = true) sampleTexts).

Definition samplePlatform : Platform := {|
  sha256 := fun b => b;
  bytesToHex := string_of_list_byte;
  hexToBytes := fun s => Some (list_byte_of_string s);
  schnorr_sign := fun msg key aux => Some (msg ++ aux);
  getSharedSecret := fun _ _ => Some (replicate 33 Byte.x2a);
  aes_cbc_encrypt := fun _ _ data => Some (data ++ [Byte.x01]);
  aes_cbc_decrypt := fun _ _ data =>
    match data with [] => None | _ => Some (removelast data) end;
  nip44_getConversationKey := fun _ _ => None;
  nip44_decrypt := fun _ _ => None;
  JSON_parse := sampleParse;
  subtleAvailable := true
|}.

Definition clientKey : string :=
  "1111111111111111111111111111111111111111111111111111111111111111".
Definition clientPub : string :=
  "2222222222222222222222222222222222222222222222222222222222222222".
Definition signerKey : string :=
  "3333333333333333333333333333333333333333333333333333333333333333".
Definition signerPub : string :=
  "4444444444444444444444444444444444444444444444444444444444444444".

Definition sampleIV : bytes := replicate 16 Byte.x07.
Definition sampleSecret : bytes := replicate 32 Byte.x2a.

Definition sampleSession : StoredSession :=
  {| clientPrivateKey := clientKey; clientPubkey := clientPub;
     remotePubkey := signerPub; relay := "wss://relay.example" |}.

(** The control event in which the signer sends a response. *)
Definition controlEvent (response : json) : RelayMessage :=
  MsgEvent
    {| id := None; pubkey := signerPub; created_at := 1700000000; kind := 24133;
       tags := [["p"; clientPub]];
       content := default "" (nip04Encrypt (P := samplePlatform) signerKey clientPub
                                (stringify response) sampleIV);
       sig := None |}.

(** The event that the caller asks to have signed. *)
Definition unsignedEvent : json :=
  JObj [("pubkey", JStr "ab"); ("created_at", JNum 1700000000); ("kind", JNum 1);
        ("tags", JArr []); ("content", JStr "hello")].

(** The state of a request once its socket has opened. *)
Definition opened : SignState :=
  run (P := samplePlatform) sampleSession "req1" unsignedEvent initial
    [EvOpen 1700000000000 sampleIV []].

(** The encoding of a public key by [hexToNpub] (the test vector of
    NIP-19), and the same text with its last checksum character changed
    from 6 to 7. *)
Definition vectorHex : string :=
  "3bf0c63fcb93463407af97a5e5ee64fa883d107ef9e558472c4eb9aaaefa459d".
Definition vectorNpub : string :=
  "npub180cvv07tjdrrgpa0j7j7tmnyl2yr6yr7l8j4s3evf6u64th6gkwsyjh6w6".
Definition flippedNpub : string :=
  "npub180cvv07tjdrrgpa0j7j7tmnyl2yr6yr7l8j4s3evf6u64th6gkwsyjh6w7".

(** A text that base64-decodes to 65 bytes, the first of which is 0x02. *)
Definition versionedText : string :=
  btoa (binaryOfBytes (Byte.x02 :: replicate 64 Byte.x00)).

(** The fixture event of the specification. *)
Definition fixture : NostrEvent :=
  {| id := None;
     pubkey := "aaaaaaaaaaaaaaaaaaaaaaaaaaaaaaaaaaaaaaaaaaaaaaaaaaaaaaaaaaaaaaaa";
     created_at := 1700000000; kind := 1; tags := []; content := "hello";
     sig := None |}.

End Sample.

(** * Further parts of the sources *)

From Stdlib Require Import Sorted DecimalZ DecimalPos.

(** ** Reading back what [JSON.stringify] writes *)

Module JsonRead.
Import JS Json KeyCodec.

(** The character that [quoteChar] wrote at the head of a text, and the
    rest of the text; [None] at the closing quote or at a malformed
    escape. *)
Definition unquoteChar (l : list ascii) : option (ascii * list ascii) :=
  match l with
  | [] => None
  | c :: r =>
      if charCode c =? 34 then None
      else if charCode c =? 92
      then match r with
           | [] => None
           | e :: r' =>
               let n := charCode e in
               if n =? 34 then Some (dquote, r')
               else if n =? 92 then Some (e, r')
               else if n =? 98 then Some (fromCharCode 8, r')
               else if n =? 102 then Some (fromCharCode 12, r')
               else if n =? 110 then Some (fromCharCode 10, r')
               else if n =? 114 then Some (fromCharCode 13, r')
               else if n =? 116 then Some (fromCharCode 9, r')
               else if n =? 117
               then match r' with
                    | _ :: _ :: h :: l' :: r'' =>
                        match hexVal h, hexVal l' with
                        | Some a, Some b => Some (fromCharCode (a * 16 + b), r'')
                        | _, _ => None
                        end
                    | _ => None
                    end
               else None
           end
      else Some (c, r)
  end.

(** [commaJoin] on lists of characters. *)
Fixpoint commaJoinChars (l : list (list ascii)) : list ascii :=
  match l with
  | [] => []
  | [x] => x
  | x :: rest => x ++ ","%char :: commaJoinChars rest
  end.

(** The fixture event with an id and a signature. *)
Definition signedFixture : EventSigner.NostrEvent :=
  {| EventSigner.id := Some "e1"; EventSigner.pubkey := EventSigner.pubkey Sample.fixture;
     EventSigner.created_at := 1700000000; EventSigner.kind := 1;
     EventSigner.tags := []; EventSigner.content := "hello";
     EventSigner.sig := Some "f0" |}.

End JsonRead.

(** ** Texts without white space at either end *)

Module Text.
Import JS.

(** A text of ASCII characters: for such a text the length, the case
    mapping and the white space of the model are those of JavaScript. *)
Definition isAscii (s : string) : Prop := Forall (fun c => charCode c < 128) (chars s).

(** Neither the first nor the last character is white space that [trim]
    removes. *)
Definition tight (l : list ascii) : Prop :=
  dropSpaces l = l /\ dropSpaces (rev l) = rev l.

End Text.

(** ** The bit regrouping of the bech32 codec, seen as numbers *)

Module Regroup.
Import JS KeyCodec.

(** The 5-bit values that [hexToNpub] computes from its bytes: the
    [regroup] loop followed by the padding of the left-over bits. *)
Definition fiveBitGroups (bytes : list Z) : list Z :=
  let '(acc, bits, values) := regroup 8 5 0x1f bytes in
  if 0 <? bits then values ++ [band (shl acc (5 - bits)) 0x1f] else values.

(** The number written by a list of [w]-bit digits, most significant
    first. *)
Definition digitsValue (w : Z) (ds : list Z) : Z :=
  fold_left (fun a d => a * 2 ^ w + d) ds 0.

(** What the state [(acc, bits, out)] of a regrouping loop holds after
    the input [vs]: the low word of [acc] is that of the number read so
    far, [bits] of its low bits are pending, and [out] writes the rest. *)
Definition regroupInv (from to : Z) (vs : list Z) (st : Z * Z * list Z) : Prop :=
  let '(acc, bits, out) := st in
  acc mod 2 ^ 32 = digitsValue from vs mod 2 ^ 32
  /\ 0 <= bits < to
  /\ digitsValue to out = digitsValue from vs / 2 ^ bits
  /\ Forall (fun d => 0 <= d < 2 ^ to) out
  /\ to * Z.of_nat (length out) + bits = from * Z.of_nat (length vs).

(** A digit of lower-case hexadecimal text. *)
Definition isHexLower (c : ascii) : bool :=
  let n := charCode c in
  ((48 <=? n) && (n <=? 57)) || ((97 <=? n) && (n <=? 102)).

(** The lower-case hexadecimal text of a list of bytes. *)
Definition hexOfBytes (bs : list Z) : string := join (map hex2 bs).

End Regroup.

(** ** API security utilities: [validateOrigin], [checkRateLimit],
    [getClientIdentifier] (src/lib/nostr/crypto.ts, third part)

    Times, limits and counts are integers; [Date.now()] is an argument
    of the function that reads it. *)

Module Security.
Import JS.

Definition ALLOWED_ORIGINS : list string :=
  ["https://nostr-wot.com"; "https://www.nostr-wot.com"].

Definition DEV_ORIGINS : list string :=
  ["http://localhost:3000"; "http://127.0.0.1:3000"].

(** The headers that the functions read; [None] is the [null] of
    [request.headers.get]. *)
Record Request := {
  origin : option string;
  referer : option string;
  xForwardedFor : option string;
  xRealIp : option string
}.

(** The two properties read from [new URL(referer)]. *)
Record URL := { protocol : string; host : string }.

(** The test [if (header)]: the header is there and is not empty. *)
Definition nonEmpty (header : option string) : option string :=
  match header with
  | Some s => if String.eqb s "" then None else Some s
  | None => None
  end.

(** [allowedOrigins.some((allowed) => o === allowed)] *)
Definition someEqual (o : string) (allowedOrigins : list string) : bool :=
  existsb (fun allowed => String.eqb o allowed) allowedOrigins.

(** [parseURL] is [new URL(text)], [None] when it throws; [development]
    is [process.env.NODE_ENV === "development"]. *)
Definition validateOrigin (parseURL : string -> option URL) (development : bool)
    (request : Request) : bool :=
  let allowedOrigins :=
    if development then ALLOWED_ORIGINS ++ DEV_ORIGINS else ALLOWED_ORIGINS in
  match nonEmpty (origin request) with
  | Some o => someEqual o allowedOrigins
  | None =>
      match nonEmpty (referer request) with
      | Some r =>
          match parseURL r with
          | Some refererUrl =>
              let refererOrigin := protocol refererUrl +:+ "//" +:+ host refererUrl in
              someEqual refererOrigin allowedOrigins
          | None => false
          end
      | None => development
      end
  end.

Record RateLimitEntry := { count : Z; resetTime : Z }.

Record RateLimitConfig := { limit : Z; windowMs : Z }.

Record RateLimitResult := { allowed : bool; remaining : Z; resetIn : Z }.

(** The module state: [rateLimitStore] and whether [cleanupTimer] is set. *)
Record State := {
  rateLimitStore : gmap string RateLimitEntry;
  cleanupTimer : bool
}.

Definition CLEANUP_INTERVAL : Z := 5 * 60 * 1000.

(** [Math.ceil(ms / 1000)] on an integer. *)
Definition ceilSeconds (ms : Z) : Z := - ((- ms) / 1000).

Definition startCleanup (st : State) : State :=
  if cleanupTimer st then st
  else {| rateLimitStore := rateLimitStore st; cleanupTimer := true |}.

(** The callback of the cleanup interval at time [now]. *)
Definition cleanupTick (now : Z) (st : State) : State :=
  {| rateLimitStore :=
       filter (fun kv => ~ (resetTime (snd kv) < now)) (rateLimitStore st);
     cleanupTimer := cleanupTimer st |}.

Definition setEntry (identifier : string) (entry : RateLimitEntry) (st : State) : State :=
  {| rateLimitStore := <[identifier := entry]> (rateLimitStore st);
     cleanupTimer := cleanupTimer st |}.

Definition checkRateLimit (now : Z) (identifier : string) (config : RateLimitConfig)
    (st : State) : RateLimitResult * State :=
  let st := startCleanup st in
  let fresh :=
    ({| allowed := true; remaining := limit config - 1;
        resetIn := ceilSeconds (windowMs config) |},
     setEntry identifier {| count := 1; resetTime := now + windowMs config |} st) in
  match rateLimitStore st !! identifier with
  | None => fresh
  | Some entry =>
      if resetTime entry <? now then fresh
      else
        let entry := {| count := count entry + 1; resetTime := resetTime entry |} in
        let st := setEntry identifier entry st in
        if limit config <? count entry
        then ({| allowed := false; remaining := 0;
                 resetIn := ceilSeconds (resetTime entry - now) |}, st)
        else ({| allowed := true; remaining := limit config - count entry;
                 resetIn := ceilSeconds (resetTime entry - now) |}, st)
  end.

(** Successive calls of [checkRateLimit] for one identifier and one
    configuration, at the given times. *)
Fixpoint checkEach (times : list Z) (identifier : string) (config : RateLimitConfig)
    (st : State) : list RateLimitResult * State :=
  match times with
  | [] => ([], st)
  | now :: times' =>
      let '(r, st) := checkRateLimit now identifier config st in
      let '(rs, st) := checkEach times' identifier config st in
      (r :: rs, st)
  end.

(** The result of the call number [n] of a window that ends at [r]. *)
Definition nthResult (config : RateLimitConfig) (r : Z) (n : Z) (now : Z)
  : RateLimitResult :=
  {| allowed := n <=? limit config;
     remaining := if n <=? limit config then limit config - n else 0;
     resetIn := ceilSeconds (r - now) |}.

(** What happens to the store: a call of [checkRateLimit], or the
    cleanup interval firing (it fires only once it was set). *)
Inductive Event :=
| Call (now : Z) (identifier : string) (config : RateLimitConfig)
| CleanupTick (now : Z).

Definition step (st : State) (e : Event) : State :=
  match e with
  | Call now identifier config => snd (checkRateLimit now identifier config st)
  | CleanupTick now => if cleanupTimer st then cleanupTick now st else st
  end.

Definition run (st : State) (es : list Event) : State := fold_left step es st.

(** The entry of an identifier that a call at [now] would still honour. *)
Definition liveEntry (now : Z) (identifier : string) (st : State)
  : option RateLimitEntry :=
  match rateLimitStore st !! identifier with
  | Some entry => if resetTime entry <? now then None else Some entry
  | None => None
  end.

(** An event that is a call for another identifier, or a cleanup that ran
    no later than [now]. *)
Definition elsewhere (identifier : string) (now : Z) (e : Event) : Prop :=
  match e with
  | Call _ identifier' _ => identifier' <> identifier
  | CleanupTick now' => now' <= now
  end.

(** [forwardedFor.split(",")[0].trim()]; [split] gives at least one
    piece. *)
Definition getClientIdentifier (request : Request) : string :=
  match nonEmpty (xForwardedFor request) with
  | Some forwardedFor => trim (default "" (head (split "," forwardedFor)))
  | None =>
      match nonEmpty (xRealIp request) with
      | Some realIp => realIp
      | None => "unknown"
      end
  end.

Definition RATE_LIMITS_contact : RateLimitConfig :=
  {| limit := 5; windowMs := 60 * 60 * 1000 |}.
Definition RATE_LIMITS_newsletter : RateLimitConfig :=
  {| limit := 3; windowMs := 60 * 60 * 1000 |}.
Definition RATE_LIMITS_api : RateLimitConfig :=
  {| limit := 100; windowMs := 60 * 1000 |}.

End Security.

(** ** Pairing with a remote signer: [generateNostrConnectURI],
    [startNostrConnect], [hasNostrConnectSession],
    [clearNostrConnectSession] (src/lib/nostr/crypto.ts, second part)

    The message handler of [startNostrConnect] awaits the decryption:
    the part of the handler that follows the await runs later, and other
    events may come in between.  A message that carries an event is
    therefore taken in two steps, its arrival and the return of its
    decryption.  The write to [sessionStorage] is taken to succeed. *)

Module Pairing.
Import JS Json Codec KeyCodec CipherLayer.

Definition DEFAULT_RELAY : string := "wss://relay.mappingbitcoin.com".
Definition CONNECTION_TIMEOUT : Z := 120000.

Record NostrConnectSession := {
  clientPrivateKey : string;
  clientPubkey : string;
  relay : string;
  secret : string;
  remotePubkey : option string
}.

(** The serializer of [URLSearchParams.toString()]
    (application/x-www-form-urlencoded) on the UTF-8 bytes of a text:
    letters, digits and [* - . _] stay, a space becomes [+], every other
    byte is written [%XX] with upper-case digits. *)
Definition formSafe (c : ascii) : bool :=
  let n := charCode c in
  ((48 <=? n) && (n <=? 57)) || ((65 <=? n) && (n <=? 90)) || ((97 <=? n) && (n <=? 122))
  || (n =? 42) || (n =? 45) || (n =? 46) || (n =? 95).

Definition upperHexDigit (d : Z) : ascii := charAt "0123456789ABCDEF" d.

Definition formEncodeChar (c : ascii) : list ascii :=
  let n := charCode c in
  if formSafe c then [c]
  else if n =? 32 then ["+"%char]
  else ["%"%char; upperHexDigit (n / 16); upperHexDigit (n mod 16)].

Definition formEncode (s : string) : string :=
  str (concat (map formEncodeChar (chars s))).

(** The parser of the same format, as the application that reads the
    URI applies it to a value: [+] is a space and [%XX] a byte; a [%] not
    followed by two hexadecimal digits stays. *)
Fixpoint formDecodeChars (l : list ascii) : list ascii :=
  match l with
  | [] => []
  | c :: tl =>
      if charCode c =? 43 then " "%char :: formDecodeChars tl
      else if charCode c =? 37
      then match tl with
           | h :: l' :: r =>
               match hexVal h, hexVal l' with
               | Some a, Some b => fromCharCode (a * 16 + b) :: formDecodeChars r
               | _, _ => c :: formDecodeChars tl
               end
           | _ => c :: formDecodeChars tl
           end
      else c :: formDecodeChars tl
  end.

Definition formDecode (s : string) : string := str (formDecodeChars (chars s)).

Fixpoint ampJoin (l : list string) : string :=
  match l with
  | [] => ""
  | [x] => x
  | x :: rest => x +:+ "&" +:+ ampJoin rest
  end.

Definition URLSearchParams_toString (params : list (string * string)) : string :=
  ampJoin (map (fun kv => formEncode (fst kv) +:+ "=" +:+ formEncode (snd kv)) params).

Definition generateNostrConnectURI (session : NostrConnectSession) (appName : string)
  : string :=
  let params := [("relay", relay session); ("secret", secret session); ("name", appName)] in
  "nostrconnect://" +:+ clientPubkey session +:+ "?" +:+ URLSearchParams_toString params.

(** The calls made on [callbacks]. *)
Inductive Callback :=
| OnConnected (remote : string)
| OnError (message : string)
| OnTimeout.

(** The key under which the session is stored. *)
Definition storageKey : string := "nostr_connect_session".

Record PairState := {
  listening : bool;          (* the socket was constructed and has its handlers *)
  ws : bool;                 (* the variable [ws] is not null *)
  socketClosed : bool;       (* close() was called on the socket *)
  opened : bool;             (* the open event was dispatched *)
  timeoutId : bool;          (* the CONNECTION_TIMEOUT timer is pending *)
  isConnected : bool;
  sessionRemotePubkey : option string;       (* session.remotePubkey *)
  sessionStorage : gmap string string;
  sent : list string;        (* ws.send calls, oldest first *)
  inflight : list Connect.RelayMessage;      (* handlers waiting at their await *)
  calls : list Callback      (* calls on [callbacks], oldest first *)
}.

Definition call (c : Callback) (st : PairState) : PairState :=
  {| listening := listening st; ws := ws st; socketClosed := socketClosed st;
     opened := opened st; timeoutId := timeoutId st; isConnected := isConnected st;
     sessionRemotePubkey := sessionRemotePubkey st; sessionStorage := sessionStorage st;
     sent := sent st; inflight := inflight st; calls := calls st ++ [c] |}.

Definition setInflight (l : list Connect.RelayMessage) (st : PairState) : PairState :=
  {| listening := listening st; ws := ws st; socketClosed := socketClosed st;
     opened := opened st; timeoutId := timeoutId st; isConnected := isConnected st;
     sessionRemotePubkey := sessionRemotePubkey st; sessionStorage := sessionStorage st;
     sent := sent st; inflight := l; calls := calls st |}.

Definition cleanup (st : PairState) : PairState :=
  {| listening := listening st; ws := false;
     socketClosed := if ws st then true else socketClosed st;
     opened := opened st; timeoutId := false; isConnected := isConnected st;
     sessionRemotePubkey := sessionRemotePubkey st; sessionStorage := sessionStorage st;
     sent := sent st; inflight := inflight st; calls := calls st |}.

(** The state when [startNostrConnect] returns; [constructed] tells
    whether [new WebSocket] succeeded. *)
Definition start (constructed : bool) (storage : gmap string string) : PairState :=
  let st :=
    {| listening := constructed; ws := constructed; socketClosed := false;
       opened := false; timeoutId := false; isConnected := false;
       sessionRemotePubkey := None; sessionStorage := storage; sent := [];
       inflight := []; calls := [] |} in
  if constructed then st else call (OnError "Failed to connect to relay.") st.

(** The object written to [sessionStorage]. *)
Definition storedSession (session : NostrConnectSession) (remote : string) : json :=
  JObj [("clientPrivateKey", JStr (clientPrivateKey session));
        ("clientPubkey", JStr (clientPubkey session));
        ("remotePubkey", JStr remote);
        ("relay", JStr (relay session))].

Definition hasNostrConnectSession (storage : gmap string string) : bool :=
  match storage !! storageKey with
  | Some text => negb (String.eqb text "")
  | None => false
  end.

Definition clearNostrConnectSession (storage : gmap string string) : gmap string string :=
  delete storageKey storage.

Section WithPlatform.
Context `{P : Platform}.

Variable session : NostrConnectSession.

Inductive Event :=
| EvOpen (now : Z)
| EvMessage (m : Connect.RelayMessage)
| EvDecrypted (k : nat)    (* the await of the handler number [k] in flight returns *)
| EvError
| EvClose
| EvTimeout
| EvCleanup.               (* the caller runs the function that was returned *)

Definition onopen (now : Z) (st : PairState) : PairState :=
  let subId := "nostrconnect-" +:+ decimal now in
  let filter := JObj [("kinds", JArr [JNum 24133]);
                      ("#p", JArr [JStr (clientPubkey session)])] in
  let request := stringify (JArr [JStr "REQ"; JStr subId; filter]) in
  {| listening := listening st; ws := ws st; socketClosed := socketClosed st;
     opened := true; timeoutId := true; isConnected := isConnected st;
     sessionRemotePubkey := sessionRemotePubkey st; sessionStorage := sessionStorage st;
     sent := if ws st then sent st ++ [request] else sent st; inflight := inflight st;
     calls := calls st |}.

(** The body of [if (isConnectResponse) { ... }]. *)
Definition connected (remote : string) (st : PairState) : PairState :=
  let st :=
    {| listening := listening st; ws := ws st; socketClosed := socketClosed st;
       opened := opened st; timeoutId := timeoutId st; isConnected := true;
       sessionRemotePubkey := Some remote;
       sessionStorage :=
         <[storageKey := stringify (storedSession session remote)]> (sessionStorage st);
       sent := sent st; inflight := inflight st; calls := calls st |} in
  call (OnConnected remote) (cleanup st).

(** The response carried by a message, as in [Connect.responseOf]. *)
Definition responseOf (m : Connect.RelayMessage) : option (string * json) :=
  match m with
  | Connect.MsgOther => None
  | Connect.MsgEvent nostrEvent =>
      match snd (nip04Decrypt (clientPrivateKey session) (EventSigner.pubkey nostrEvent)
                   (EventSigner.content nostrEvent)) with
      | Err _ => None
      | Ok decrypted =>
          response ← JSON_parse decrypted; Some (EventSigner.pubkey nostrEvent, response)
      end
  end.

(** The part of the message handler before the await: a message that
    carries an event starts a decryption and waits for it. *)
Definition onmessage (m : Connect.RelayMessage) (st : PairState) : PairState :=
  match m with
  | Connect.MsgOther => st
  | Connect.MsgEvent _ => setInflight (inflight st ++ [m]) st
  end.

(** The part of the handler after the await. *)
Definition ondecrypted (m : Connect.RelayMessage) (st : PairState) : PairState :=
  match responseOf m with
  | None => st
  | Some (remote, response) =>
      match Connect.isConnectResponse response (secret session) with
      | Some true => connected remote st
      | _ => st
      end
  end.

Definition onerror (st : PairState) : PairState :=
  call (OnError "Connection failed. Please try again.") (cleanup st).

(** The callback of the timer; having fired, the timer is no longer
    pending. *)
Definition ontimeout (st : PairState) : PairState :=
  let st :=
    {| listening := listening st; ws := ws st; socketClosed := socketClosed st;
       opened := opened st; timeoutId := false; isConnected := isConnected st;
       sessionRemotePubkey := sessionRemotePubkey st; sessionStorage := sessionStorage st;
       sent := sent st; inflight := inflight st; calls := calls st |} in
  if isConnected st then st else call OnTimeout (cleanup st).

(** Delivery of an event by the platform: a socket that was not
    constructed has no handler; the open event comes once, and not after
    [close()]; a closed socket dispatches no message; a timer that is not
    pending does not fire; a decryption returns once, to the handler that
    awaits it. *)
Definition step (st : PairState) (e : Event) : PairState :=
  match e with
  | EvOpen now =>
      if listening st && negb (opened st) && negb (socketClosed st)
      then onopen now st else st
  | EvMessage m =>
      if listening st && negb (socketClosed st) then onmessage m st else st
  | EvDecrypted k =>
      match inflight st !! k with
      | Some m => ondecrypted m (setInflight (delete k (inflight st)) st)
      | None => st
      end
  | EvError => if listening st then onerror st else st
  | EvClose => st
  | EvTimeout => if timeoutId st then ontimeout st else st
  | EvCleanup => cleanup st
  end.

Definition run (st : PairState) (es : list Event) : PairState := fold_left step es st.

End WithPlatform.

(** The keys with which [onConnected] was called, oldest first. *)
Definition connectedKeys (l : list Callback) : list string :=
  omap (fun c => match c with OnConnected remote => Some remote | _ => None end) l.

(** The number of calls of [onTimeout]. *)
Definition isTimeout (c : Callback) : bool :=
  match c with OnTimeout => true | _ => false end.

Definition timeouts (l : list Callback) : nat :=
  length (filter (fun c => isTimeout c = true) l).

(** The invariant of a pairing, for the storage [storage] it started
    with.  The session kept is that of the last call of [onConnected];
    a pending timer means that the socket opened and that nothing ended
    the pairing yet; [onTimeout] was called at most once, and then before
    any [onConnected]. *)
Definition pairingInv (session : NostrConnectSession) (storage : gmap string string)
    (st : PairState) : Prop :=
  match last (connectedKeys (calls st)) with
  | Some remote =>
      isConnected st = true /\ sessionRemotePubkey st = Some remote
      /\ sessionStorage st !! storageKey = Some (stringify (storedSession session remote))
      /\ timeoutId st = false /\ socketClosed st = true
  | None =>
      isConnected st = false /\ sessionRemotePubkey st = None
      /\ sessionStorage st = storage
  end
  /\ (listening st = true -> ws st = negb (socketClosed st))
  /\ (inflight st <> [] -> listening st = true)
  /\ (timeoutId st = true -> opened st = true /\ timeouts (calls st) = 0%nat)
  /\ (opened st = false -> timeouts (calls st) = 0%nat)
  /\ (timeouts (calls st) <= 1)%nat
  /\ (forall before after, calls st = before ++ OnTimeout :: after ->
        connectedKeys before = []).

(** A pairing session of the sample platform. *)
Definition pairingSession : NostrConnectSession :=
  {| clientPrivateKey := Sample.clientKey; clientPubkey := Sample.clientPub;
     relay := DEFAULT_RELAY; secret := "5ecf3a1b"; remotePubkey := None |}.

End Pairing.

(** ** The profile-notes hook around the aggregator: [fetchNotes]
    (src/unnamed/part_001)

    The React state is the value last given to its setter. *)

Module NotesHook.
Import ProfileNotes.

(** [list.sort((a, b) => b.created_at - a.created_at)]: the stable sort
    by descending [created_at] (notes of equal time keep their order). *)
Fixpoint insertNote (x : NostrNote) (l : list NostrNote) : list NostrNote :=
  match l with
  | [] => [x]
  | y :: l' => if created_at y <=? created_at x then x :: l else y :: insertNote x l'
  end.

Definition sortNotes (l : list NostrNote) : list NostrNote := foldr insertNote [] l.

Record HookState := {
  notes : list NostrNote;
  isLoading : bool;
  hasMore : bool;
  error : option string;
  currentPubkey : option string;       (* currentPubkeyRef.current *)
  oldestTimestamp : option Z;          (* oldestTimestampRef.current *)
  notesBuffer : list NostrNote         (* the buffer of the running fetchNotes *)
}.

(** The state set by [fetchNotes(pubkey)] before it starts the query. *)
Definition fetchNotes (pubkey : string) : HookState :=
  {| notes := []; isLoading := true; hasMore := true; error := None;
     currentPubkey := Some pubkey; oldestTimestamp := None; notesBuffer := [] |}.

(** The [onNote] callback that [fetchNotes] hands to the query. *)
Definition onNote (note : NostrNote) (h : HookState) : HookState :=
  let notesBuffer := notesBuffer h ++ [note] in
  let sorted := sortNotes notesBuffer in
  {| notes := sorted; isLoading := isLoading h; hasMore := hasMore h; error := error h;
     currentPubkey := currentPubkey h;
     oldestTimestamp :=
       match last sorted with
       | Some oldest => Some (created_at oldest)
       | None => oldestTimestamp h
       end;
     notesBuffer := notesBuffer |}.

(** The [onComplete] callback that [fetchNotes] hands to the query. *)
Definition onComplete (h : HookState) : HookState :=
  {| notes := notes h; isLoading := false;
     hasMore := (NOTES_PER_PAGE <=? length (notesBuffer h))%nat; error := error h;
     currentPubkey := currentPubkey h; oldestTimestamp := oldestTimestamp h;
     notesBuffer := notesBuffer h |}.

(** The callbacks that one event of the query runs: a handler calls
    [onNote] once or [onComplete] once, or neither. *)
Definition callbacks (before after : State) (h : HookState) : HookState :=
  let h := fold_left (fun h note => onNote note h)
             (drop (length (delivered before)) (delivered after)) h in
  Nat.iter (completions after - completions before) onComplete h.

Definition step (st : State * HookState) (e : Event) : State * HookState :=
  let after := ProfileNotes.step (fst st) e in
  (after, callbacks (fst st) after (snd st)).

Definition run (st : State * HookState) (es : list Event) : State * HookState :=
  fold_left step es st.

(** *** [loadMore]

    [setNotes] is here given an updater function.  React keeps the
    updaters in a queue and runs them, in order, when it next renders (or
    at once, for the first of the queue); the updater reads
    [newNotesBuffer], the one array that [onNote] keeps pushing to, as it
    is when the updater runs.  [Render] is the moment at which the queued
    updaters run. *)

Record PageState := {
  existingIds : gset string;
  newNotesBuffer : list NostrNote;
  capturedNotes : list NostrNote;      (* [notes] as [loadMore] closed over it *)
  shown : list NostrNote;              (* the state [notes] as last rendered *)
  queued : nat;                        (* updaters waiting for a render *)
  pageOldest : option Z;               (* oldestTimestampRef.current *)
  pageLoading : bool;
  pageHasMore : bool
}.

(** [loadMore()]: [None] when one of the four guards returns at once. *)
Definition loadMore (h : HookState) : option PageState :=
  match currentPubkey h, oldestTimestamp h with
  | Some pubkey, Some oldest =>
      if String.eqb pubkey "" || (oldest =? 0) || isLoading h || negb (hasMore h)
      then None
      else Some {| existingIds := list_to_set (map id (notes h));
                   newNotesBuffer := []; capturedNotes := notes h; shown := notes h;
                   queued := 0; pageOldest := Some oldest; pageLoading := true;
                   pageHasMore := hasMore h |}
  | _, _ => None
  end.

(** The value of [until] handed to the query. *)
Definition pageUntil (h : HookState) : option Z :=
  (fun oldest => oldest - 1) <$> oldestTimestamp h.

Inductive PageEvent :=
| PageNote (note : NostrNote)          (* the query calls [onNote] *)
| PageComplete                         (* the query calls [onComplete] *)
| Render.

Definition pageOnNote (note : NostrNote) (st : PageState) : PageState :=
  if decide (id note ∈ existingIds st) then st
  else
    let buffer := newNotesBuffer st ++ [note] in
    let allSorted := sortNotes (capturedNotes st ++ buffer) in
    {| existingIds := {[ id note ]} ∪ existingIds st; newNotesBuffer := buffer;
       capturedNotes := capturedNotes st; shown := shown st; queued := S (queued st);
       pageOldest := match last allSorted with
                     | Some oldest => Some (created_at oldest)
                     | None => pageOldest st
                     end;
       pageLoading := pageLoading st; pageHasMore := pageHasMore st |}.

(** The updater [(prev) => [...prev, ...newNotesBuffer].sort(...)]. *)
Definition updater (buffer prev : list NostrNote) : list NostrNote :=
  sortNotes (prev ++ buffer).

Definition render (st : PageState) : PageState :=
  {| existingIds := existingIds st; newNotesBuffer := newNotesBuffer st;
     capturedNotes := capturedNotes st;
     shown := Nat.iter (queued st) (updater (newNotesBuffer st)) (shown st);
     queued := 0; pageOldest := pageOldest st; pageLoading := pageLoading st;
     pageHasMore := pageHasMore st |}.

Definition pageOnComplete (st : PageState) : PageState :=
  {| existingIds := existingIds st; newNotesBuffer := newNotesBuffer st;
     capturedNotes := capturedNotes st; shown := shown st; queued := queued st;
     pageOldest := pageOldest st; pageLoading := false;
     pageHasMore := (NOTES_PER_PAGE <=? length (newNotesBuffer st))%nat |}.

Definition pageStep (st : PageState) (e : PageEvent) : PageState :=
  match e with
  | PageNote note => pageOnNote note st
  | PageComplete => pageOnComplete st
  | Render => render st
  end.

Definition pageRun (st : PageState) (es : list PageEvent) : PageState :=
  fold_left pageStep es st.

(** How many of the notes carry a given id. *)
Definition occurrences (i : string) (l : list NostrNote) : nat :=
  length (filter (fun n => id n = i) l).

(** What holds of a page while it loads: the ids of the notes shown and
    of the notes added are known, the notes added have distinct ids, and
    the first of them is shown once for every updater that has run. *)
Definition pageInv (st : PageState) : Prop :=
  (forall n, n ∈ shown st -> id n ∈ existingIds st)
  /\ (forall n, n ∈ newNotesBuffer st -> id n ∈ existingIds st)
  /\ NoDup (map id (newNotesBuffer st))
  /\ match head (newNotesBuffer st) with
     | Some first =>
         (occurrences (id first) (shown st) + queued st)%nat = length (newNotesBuffer st)
     | None => queued st = 0%nat
     end.

(** A note with a given id and time, and the state of the hook after a
    first page of one note. *)
Definition sampleNote (i : string) (t : Z) : NostrNote :=
  {| id := i; pubkey := "ab"; content := "note"; created_at := t; tags := [];
     kind := 1; sig := "f0" |}.

Definition samplePage : HookState :=
  {| notes := [sampleNote "n1" 30]; isLoading := false; hasMore := true; error := None;
     currentPubkey := Some "ab"; oldestTimestamp := Some 30;
     notesBuffer := [sampleNote "n1" 30] |}.

(** The page that [loadMore] starts from [samplePage]. *)
Definition samplePageStart : PageState :=
  {| existingIds := {[ "n1" ]}; newNotesBuffer := [];
     capturedNotes := [sampleNote "n1" 30]; shown := [sampleNote "n1" 30];
     queued := 0; pageOldest := Some 30; pageLoading := true; pageHasMore := true |}.

(** Newest first. *)
Definition newestFirst (l : list NostrNote) : Prop :=
  StronglySorted (fun a b => created_at b <= created_at a) l.

(** The link between the query and the state of the hook. *)
Definition linked (st : State * HookState) : Prop :=
  notesBuffer (snd st) = delivered (fst st)
  /\ notes (snd st) = sortNotes (delivered (fst st))
  /\ oldestTimestamp (snd st) = created_at <$> last (notes (snd st))
  /\ ((1 <= completions (fst st))%nat -> isLoading (snd st) = false).

End NotesHook.

(** ** The profile-data hook: [fetchProfile] (src/unnamed/part_000)

    [fetchProfile] is built by [useCallback] with the dependency
    [closeConnections], itself built with no dependency: the function is
    the one of the first render for the life of the component, and the
    state variables [isLoadingProfile] and [isLoadingFollowing] that its
    interval callback reads are those of that render, both [false]. *)

Module ProfileHook.
Import JS Json.

Definition RELAYS : list string :=
  ["wss://relay.damus.io"; "wss://relay.nostr.band"; "wss://purplepag.es"].

Definition FETCH_TIMEOUT : Z := 5000.

(** The two sockets opened for relay number [i]. *)
Inductive Socket :=
| ProfileWs (i : nat)
| FollowsWs (i : nat).

Record RelayEvent := {
  pubkey : string;
  kind : Z;
  content : string;
  tags : list (list string)
}.

Inductive RelayMessage :=
| MsgEvent (event : RelayEvent)
| MsgEOSE
| MsgOther.

Record NodeProfile := {
  profilePubkey : string;
  name : jsval;
  displayName : jsval;
  picture : jsval;
  about : jsval;
  nip05 : jsval
}.

Inductive Event :=
| Open (s : Socket)
| Message (s : Socket) (m : RelayMessage)
| SockError (s : Socket)
| SockClose (s : Socket)
| Timeout                  (* the FETCH_TIMEOUT timer *)
| Tick.                    (* the 100 ms interval *)

Record State := {
  profile : option NodeProfile;
  followingCount : option nat;
  isLoadingProfile : bool;
  isLoadingFollowing : bool;
  profileReceived : bool;
  followsReceived : bool;
  profileCompletedRelays : nat;
  followsCompletedRelays : nat;
  timeoutId : bool;                  (* the FETCH_TIMEOUT timer is pending *)
  checkComplete : bool;              (* the interval is running *)
  activeConnections : list Socket;   (* activeConnectionsRef.current *)
  closing : list Socket;             (* sockets on which close() was called *)
  subscribed : list Socket;          (* sockets that sent their REQ *)
  profileSets : list NodeProfile;    (* calls of setProfile with a profile *)
  countSets : list nat               (* calls of setFollowingCount with a count *)
}.

(** The state variables as the interval callback reads them. *)
Definition renderedIsLoadingProfile : bool := false.
Definition renderedIsLoadingFollowing : bool := false.

(** The state when [fetchProfile] returns: [constructed s] tells whether
    [new WebSocket] succeeded for the socket [s]. *)
Definition start (constructed : Socket -> bool) : State :=
  let relays := seq 0 (length RELAYS) in
  let sockets := flat_map (fun i => [ProfileWs i; FollowsWs i]) relays in
  {| profile := None; followingCount := None;
     isLoadingProfile := true; isLoadingFollowing := true;
     profileReceived := false; followsReceived := false;
     profileCompletedRelays :=
       length (filter (fun i => constructed (ProfileWs i) = false) relays);
     followsCompletedRelays :=
       length (filter (fun i => constructed (FollowsWs i) = false) relays);
     timeoutId := true; checkComplete := true;
     activeConnections := filter (fun s => constructed s = true) sockets;
     closing := []; subscribed := []; profileSets := []; countSets := [] |}.

Definition wsClose (s : Socket) (st : State) : State :=
  {| profile := profile st; followingCount := followingCount st;
     isLoadingProfile := isLoadingProfile st; isLoadingFollowing := isLoadingFollowing st;
     profileReceived := profileReceived st; followsReceived := followsReceived st;
     profileCompletedRelays := profileCompletedRelays st;
     followsCompletedRelays := followsCompletedRelays st;
     timeoutId := timeoutId st; checkComplete := checkComplete st;
     activeConnections := activeConnections st; closing := closing st ++ [s];
     subscribed := subscribed st; profileSets := profileSets st; countSets := countSets st |}.

Definition onopen (s : Socket) (st : State) : State :=
  {| profile := profile st; followingCount := followingCount st;
     isLoadingProfile := isLoadingProfile st; isLoadingFollowing := isLoadingFollowing st;
     profileReceived := profileReceived st; followsReceived := followsReceived st;
     profileCompletedRelays := profileCompletedRelays st;
     followsCompletedRelays := followsCompletedRelays st;
     timeoutId := timeoutId st; checkComplete := checkComplete st;
     activeConnections := activeConnections st; closing := closing st;
     subscribed := subscribed st ++ [s]; profileSets := profileSets st;
     countSets := countSets st |}.

(** [setIsLoadingProfile] and [setIsLoadingFollowing]. *)
Definition setLoading (loadingProfile loadingFollowing : bool) (st : State) : State :=
  {| profile := profile st; followingCount := followingCount st;
     isLoadingProfile := loadingProfile; isLoadingFollowing := loadingFollowing;
     profileReceived := profileReceived st; followsReceived := followsReceived st;
     profileCompletedRelays := profileCompletedRelays st;
     followsCompletedRelays := followsCompletedRelays st;
     timeoutId := timeoutId st; checkComplete := checkComplete st;
     activeConnections := activeConnections st; closing := closing st;
     subscribed := subscribed st; profileSets := profileSets st; countSets := countSets st |}.

(** The object literal built from the parsed content; [None] is the
    TypeError of reading a property of [null]. *)
Definition newProfile (ev : RelayEvent) (parsed : json) : option NodeProfile :=
  name ← getProp "name" (Some parsed);
  displayName ← getProp "display_name" (Some parsed);
  picture ← getProp "picture" (Some parsed);
  about ← getProp "about" (Some parsed);
  nip05 ← getProp "nip05" (Some parsed);
  Some {| profilePubkey := pubkey ev; name := name; displayName := displayName;
          picture := picture; about := about; nip05 := nip05 |}.

Section WithPlatform.
Context `{P : Platform}.

Definition profileOnMessage (i : nat) (m : RelayMessage) (st : State) : State :=
  match m with
  | MsgEvent ev =>
      if (kind ev =? 0) && negb (profileReceived st)
      then match JSON_parse (content ev) ≫= newProfile ev with
           | None => st
           | Some p =>
               wsClose (ProfileWs i)
                 {| profile := Some p; followingCount := followingCount st;
                    isLoadingProfile := false; isLoadingFollowing := isLoadingFollowing st;
                    profileReceived := true; followsReceived := followsReceived st;
                    profileCompletedRelays := profileCompletedRelays st;
                    followsCompletedRelays := followsCompletedRelays st;
                    timeoutId := timeoutId st; checkComplete := checkComplete st;
                    activeConnections := activeConnections st; closing := closing st;
                    subscribed := subscribed st; profileSets := profileSets st ++ [p];
                    countSets := countSets st |}
           end
      else st
  | MsgEOSE => wsClose (ProfileWs i) st
  | MsgOther => st
  end.

Definition followsOnMessage (i : nat) (m : RelayMessage) (st : State) : State :=
  match m with
  | MsgEvent ev =>
      if (kind ev =? 3) && negb (followsReceived st)
      then
        let pTags := filter (fun tag => ProfileData.isFollowTag tag = true) (tags ev) in
        wsClose (FollowsWs i)
          {| profile := profile st; followingCount := Some (length pTags);
             isLoadingProfile := isLoadingProfile st; isLoadingFollowing := false;
             profileReceived := profileReceived st; followsReceived := true;
             profileCompletedRelays := profileCompletedRelays st;
             followsCompletedRelays := followsCompletedRelays st;
             timeoutId := timeoutId st; checkComplete := checkComplete st;
             activeConnections := activeConnections st; closing := closing st;
             subscribed := subscribed st; profileSets := profileSets st;
             countSets := countSets st ++ [length pTags] |}
      else st
  | MsgEOSE => wsClose (FollowsWs i) st
  | MsgOther => st
  end.

(** [onerror] and [onclose] of either kind of socket have the same body. *)
Definition onend (s : Socket) (st : State) : State :=
  match s with
  | ProfileWs _ =>
      let n := S (profileCompletedRelays st) in
      let st :=
        {| profile := profile st; followingCount := followingCount st;
           isLoadingProfile := isLoadingProfile st;
           isLoadingFollowing := isLoadingFollowing st;
           profileReceived := profileReceived st; followsReceived := followsReceived st;
           profileCompletedRelays := n;
           followsCompletedRelays := followsCompletedRelays st;
           timeoutId := timeoutId st; checkComplete := checkComplete st;
           activeConnections := activeConnections st; closing := closing st;
           subscribed := subscribed st; profileSets := profileSets st;
           countSets := countSets st |} in
      if (length RELAYS <=? n)%nat && negb (profileReceived st)
      then setLoading false (isLoadingFollowing st) st else st
  | FollowsWs _ =>
      let n := S (followsCompletedRelays st) in
      let st :=
        {| profile := profile st; followingCount := followingCount st;
           isLoadingProfile := isLoadingProfile st;
           isLoadingFollowing := isLoadingFollowing st;
           profileReceived := profileReceived st; followsReceived := followsReceived st;
           profileCompletedRelays := profileCompletedRelays st;
           followsCompletedRelays := n;
           timeoutId := timeoutId st; checkComplete := checkComplete st;
           activeConnections := activeConnections st; closing := closing st;
           subscribed := subscribed st; profileSets := profileSets st;
           countSets := countSets st |} in
      if (length RELAYS <=? n)%nat && negb (followsReceived st)
      then setLoading (isLoadingProfile st) false st else st
  end.

Definition setTimers (timeout interval : bool) (st : State) : State :=
  {| profile := profile st; followingCount := followingCount st;
     isLoadingProfile := isLoadingProfile st; isLoadingFollowing := isLoadingFollowing st;
     profileReceived := profileReceived st; followsReceived := followsReceived st;
     profileCompletedRelays := profileCompletedRelays st;
     followsCompletedRelays := followsCompletedRelays st;
     timeoutId := timeout; checkComplete := interval;
     activeConnections := activeConnections st; closing := closing st;
     subscribed := subscribed st; profileSets := profileSets st; countSets := countSets st |}.

Definition closeConnections (st : State) : State :=
  {| profile := profile st; followingCount := followingCount st;
     isLoadingProfile := isLoadingProfile st; isLoadingFollowing := isLoadingFollowing st;
     profileReceived := profileReceived st; followsReceived := followsReceived st;
     profileCompletedRelays := profileCompletedRelays st;
     followsCompletedRelays := followsCompletedRelays st;
     timeoutId := timeoutId st; checkComplete := checkComplete st;
     activeConnections := []; closing := closing st ++ activeConnections st;
     subscribed := subscribed st; profileSets := profileSets st; countSets := countSets st |}.

(** The callback of the FETCH_TIMEOUT timer. *)
Definition ontimeout (st : State) : State :=
  setLoading false false (closeConnections (setTimers false (checkComplete st) st)).

(** The callback of the interval. *)
Definition ontick (st : State) : State :=
  if negb renderedIsLoadingProfile && negb renderedIsLoadingFollowing
  then setTimers false false st
  else st.

(** Delivery of an event by the platform: a timer that is not pending
    does not fire. *)
Definition step (st : State) (e : Event) : State :=
  match e with
  | Open s => onopen s st
  | Message (ProfileWs i) m => profileOnMessage i m st
  | Message (FollowsWs i) m => followsOnMessage i m st
  | SockError s => onend s st
  | SockClose s => onend s st
  | Timeout => if timeoutId st then ontimeout st else st
  | Tick => if checkComplete st then ontick st else st
  end.

Definition run (st : State) (es : list Event) : State := fold_left step es st.

End WithPlatform.

(** An event that is not the end of a socket: the relays neither close
    nor fail. *)
Definition noSocketEnds (e : Event) : Prop :=
  match e with
  | SockError _ | SockClose _ => False
  | _ => True
  end.

(** A message that carries no event. *)
Definition carriesNoEvent (e : Event) : Prop :=
  match e with
  | Message _ (MsgEvent _) => False
  | _ => True
  end.

(** The end of a profile socket, reported as an error or as a close. *)
Definition isProfileEnd (e : Event) : bool :=
  match e with
  | SockError (ProfileWs _) | SockClose (ProfileWs _) => true
  | _ => false
  end.

(** The first answer of each kind is the one kept: nothing was set yet
    and the flag is down, or one value was set, it is the one shown and
    the flag is up. *)
Definition firstWins (st : State) : Prop :=
  ((profileSets st = [] /\ profileReceived st = false /\ profile st = None)
   \/ (exists p, profileReceived st = true /\ profileSets st = [p] /\ profile st = Some p))
  /\ ((countSets st = [] /\ followsReceived st = false /\ followingCount st = None)
      \/ (exists n, followsReceived st = true /\ countSets st = [n]
                    /\ followingCount st = Some n))
  /\ (isLoadingProfile st = true -> profileSets st = [])
  /\ (isLoadingFollowing st = true -> countSets st = []).

End ProfileHook.

(** * Properties *)

(** Linear arithmetic with division and remainder by constants. *)
Ltac divlia := zify; Z.to_euclidean_division_equations; lia.

(** Closed facts are checked by evaluation. *)
Ltac evaluated := vm_compute; reflexivity.


(** ** The relay aggregator *)

Module ProfileNotesProofs.
Import ProfileNotes.

Lemma start_consistent constructed : consistent (start constructed).
Proof.
  split; [apply NoDup_nil_2 | intros x; cbn; set_solver].
Qed.

Lemma checkComplete_delivered st :
  delivered (checkComplete st) = delivered st /\ seenIds (checkComplete st) = seenIds st.
Proof. unfold checkComplete. by destruct (_ <=? _)%nat. Qed.

Lemma step_delivered_other st e :
  (forall i ev, e <> Message i (MsgEvent ev)) ->
  delivered (step st e) = delivered st /\ seenIds (step st e) = seenIds st.
Proof.
  intros Hne. destruct e as [i|i m|i|i| |]; cbn.
  - done.
  - destruct m; [by destruct (Hne i event) | done | done].
  - apply (checkComplete_delivered (countCompleted st)).
  - apply (checkComplete_delivered (countCompleted st)).
  - by destruct (timeoutId st).
  - destruct (earlyTimeoutId st); [|done].
    unfold onEarlyTimeout. by destruct (_ <=? _)%nat.
Qed.

Lemma event_cases (e : Event) :
  (exists i ev, e = Message i (MsgEvent ev)) \/ (forall i ev, e <> Message i (MsgEvent ev)).
Proof.
  destruct e as [i|i [ev| |]|i|i| |]; try (by right).
  left. by exists i, ev.
Qed.

Lemma step_consistent st e : consistent st -> consistent (step st e).
Proof.
  intros [Hnd Hiff].
  destruct (event_cases e) as [(i & ev & ->)|Hne].
  - cbn. destruct (kind ev =? 1); [|done].
    destruct (decide (id ev ∈ seenIds st)) as [Hin|Hnin]; [done|].
    split; unfold deliveredIds; cbn; rewrite map_app; cbn.
    + apply NoDup_app. split; [done|]. split; [|apply NoDup_singleton].
      intros x Hx ->%list_elem_of_singleton. apply Hnin, Hiff, Hx.
    + intros x. rewrite elem_of_app, list_elem_of_singleton, elem_of_union, elem_of_singleton.
      specialize (Hiff x). unfold deliveredIds in Hiff. tauto.
  - destruct (step_delivered_other st e) as [Hd Hs]; [done|].
    unfold consistent, deliveredIds. by rewrite Hd, Hs.
Qed.

Lemma run_consistent es : forall st, consistent st -> consistent (run st es).
Proof.
  induction es as [|e es IH]; intros st Hst; [done|].
  cbn. apply IH, step_consistent, Hst.
Qed.

Lemma step_seenIds_mono st e : seenIds st ⊆ seenIds (step st e).
Proof.
  destruct (event_cases e) as [(i & ev & ->)|Hne].
  - cbn. destruct (kind ev =? 1); [|done].
    destruct (decide (id ev ∈ seenIds st)); [done|]. cbn. set_solver.
  - destruct (step_delivered_other st e) as [_ ->]; done.
Qed.

Lemma run_seenIds_mono es : forall st, seenIds st ⊆ seenIds (run st es).
Proof.
  induction es as [|e es IH]; intros st; [done|].
  cbn. etrans; [apply step_seenIds_mono | apply IH].
Qed.

(** C4: in one query every event id reaches [onNote] at most once: the
    ids handed to [onNote] never repeat, whatever the relays send and in
    whatever order; the first delivery of an id, from whichever relay, is
    handed to [onNote]; a delivery whose id was already handed over changes
    nothing at all (it is dropped silently, whichever relay it comes from);
    and the dedup set only grows, at every step and over any continuation
    of the query. *)
Theorem notes_delivered_at_most_once (constructed : nat -> bool) (es : list Event) :
  let st := run (start constructed) es in
  NoDup (deliveredIds st)
  /\ (forall i ev, kind ev = 1 -> id ev ∉ deliveredIds st ->
        delivered (step st (Message i (MsgEvent ev))) = delivered st ++ [ev])
  /\ (forall i ev, id ev ∈ deliveredIds st -> step st (Message i (MsgEvent ev)) = st)
  /\ (forall e, seenIds st ⊆ seenIds (step st e))
  /\ (forall es', seenIds st ⊆ seenIds (run st es')).
Proof.
  intros st.
  destruct (run_consistent es (start constructed) (start_consistent constructed))
    as [Hnd Hiff].
  fold st in Hnd, Hiff.
  split; [exact Hnd|]. split; [|split; [|split]].
  - intros i ev Hk Hnin. cbn. rewrite Hk. cbn.
    destruct (decide (id ev ∈ seenIds st)) as [Hin|_]; [|done].
    by apply Hiff in Hin.
  - intros i ev Hin. cbn. destruct (kind ev =? 1); [|done].
    apply Hiff in Hin. by destruct (decide (id ev ∈ seenIds st)).
  - intros e. apply step_seenIds_mono.
  - intros es'. apply run_seenIds_mono.
Qed.

(** C1: [onComplete] runs twice in a query whose relays stay silent.  The
    hard timeout calls [closeConnections] and [onComplete]; the four
    sockets then report their close, the fourth report brings
    [completedRelays] to the number of relays and [checkComplete] calls
    [onComplete] again: no latch records that the query completed. *)
Theorem onComplete_runs_twice_after_hard_timeout :
  let afterTimeout := run (start (fun _ => true)) [HardTimeout] in
  completions afterTimeout = 1%nat
  /\ closing afterTimeout = [0; 1; 2; 3]%nat
  /\ completions
       (run afterTimeout [SockClose 0; SockClose 1; SockClose 2; SockClose 3]) = 2%nat.
Proof. repeat split. Qed.

(** The scenario of the specification with the four relays of the
    source: three relays end their stored events and close, one fails to
    connect (an error followed by its close); [onComplete] runs twice,
    with no timer involved. *)
Lemma onComplete_runs_twice_when_a_relay_errors :
  completions
    (run (start (fun _ => true))
       [SockError 2; SockClose 2;
        Message 0 MsgEOSE; SockClose 0; Message 1 MsgEOSE; SockClose 1;
        Message 3 MsgEOSE; SockClose 3]) = 2%nat.
Proof. reflexivity. Qed.

(** Every later report keeps calling [onComplete]: past the threshold,
    each close or error adds one call. *)
Lemma onclose_past_threshold_completes st i :
  (length RELAYS <= S (completedRelays st))%nat ->
  completions (step st (SockClose i)) = S (completions st)
  /\ completions (step st (SockError i)) = S (completions st).
Proof.
  intros Hle. cbn. unfold onclose, onerror, checkComplete. cbn [completedRelays countCompleted].
  destruct (Nat.leb_spec (length RELAYS) (S (completedRelays st))); [done|lia].
Qed.

End ProfileNotesProofs.

(** ** The follow count *)

Module ProfileDataProofs.
Import ProfileData.

Lemma isFollowTag_spec (tag : list string) :
  isFollowTag tag = true <->
  exists followed rest, tag = "p" :: followed :: rest /\ followed <> "".
Proof.
  destruct tag as [|t0 [|t1 rest]]; cbn.
  - split; [done | by intros (? & ? & ? & ?)].
  - split; [done | by intros (? & ? & ? & ?)].
  - rewrite andb_true_iff, negb_true_iff, String.eqb_eq, String.eqb_neq.
    split.
    + intros [-> Hne]. by exists t1, rest.
    + intros (f & r & [= -> -> ->] & Hne). done.
Qed.

Lemma isFollowTag_pTagged (tag : list string) :
  isFollowTag tag = true -> pTagged tag = true.
Proof.
  destruct tag as [|t0 [|t1 rest]]; cbn; [done | done |].
  by intros [? _]%andb_true_iff.
Qed.

Lemma filter_length_le {A} (P Q : A -> Prop) `{!forall x, Decision (P x)}
    `{!forall x, Decision (Q x)} (l : list A) :
  (forall x, P x -> Q x) -> (length (filter P l) <= length (filter Q l))%nat.
Proof.
  intros HPQ. induction l as [|x l IH]; [done|].
  rewrite !filter_cons.
  destruct (decide (P x)) as [HP|HP], (decide (Q x)) as [HQ|HQ]; cbn; try lia.
  exfalso. apply HQ, HPQ, HP.
Qed.

Lemma filter_length_eq {A} (P Q : A -> Prop) `{!forall x, Decision (P x)}
    `{!forall x, Decision (Q x)} (l : list A) :
  Forall (fun x => P x <-> Q x) l -> length (filter P l) = length (filter Q l).
Proof.
  intros Hall. induction Hall as [|x l Hx _ IH]; [done|].
  rewrite !filter_cons.
  destruct (decide (P x)) as [HP|HP], (decide (Q x)) as [HQ|HQ]; cbn; tauto || lia.
Qed.

(** C9, as the code has it: the first kind-3 event received sets the
    follow count to the number of tags of the form ["p", followed, ...]
    with a non-empty second element; a "p" tag with no second element, or
    an empty one, is not counted.  The count is therefore at most the
    number of tags whose first element is "p", and equal to it when every
    such tag names whom it follows. *)
Theorem follow_count_counts_filled_p_tags (i : nat) (ev : ContactEvent)
    (st : FollowsState) :
  kind ev = 3 ->
  followsReceived st = false ->
  let n := length (filter (fun tag => isFollowTag tag = true) (tags ev)) in
  followingCount (followsOnMessage i (MsgEvent ev) st) = Some n
  /\ (forall tag, isFollowTag tag = true <->
        exists followed rest, tag = "p" :: followed :: rest /\ followed <> "")
  /\ (n <= specFollowCount (tags ev))%nat
  /\ (Forall (fun tag => pTagged tag = true -> isFollowTag tag = true) (tags ev) ->
      n = specFollowCount (tags ev)).
Proof.
  intros Hk Hrecv n. cbn. rewrite Hk, Hrecv. cbn.
  split; [done|]. split; [apply isFollowTag_spec|]. split.
  - apply filter_length_le, isFollowTag_pTagged.
  - intros Hall. apply filter_length_eq.
    eapply Forall_impl; [exact Hall|]. intros tag Himp.
    split; [apply isFollowTag_pTagged | exact Himp].
Qed.

Lemma follow_count_counts_filled_p_tags_witness :
  followingCount
    (followsOnMessage 0
       (MsgEvent {| kind := 3; tags := [["p"; "a1"; "wss://r"]; ["e"; "x"]; ["p"; "b2"]] |})
       initial) = Some 2%nat.
Proof.
  exact (proj1 (follow_count_counts_filled_p_tags 0
    {| kind := 3; tags := [["p"; "a1"; "wss://r"]; ["e"; "x"]; ["p"; "b2"]] |}
    initial eq_refl eq_refl)).
Defined.

(** C9 as stated fails: for a contact list holding a "p" tag without a
    second element and one whose second element is empty, the count
    reported is 1 while three tags have "p" as their first element. *)
Lemma follow_count_is_not_the_p_tag_count :
  ~ (forall i ev st, kind ev = 3 -> followsReceived st = false ->
       followingCount (followsOnMessage i (MsgEvent ev) st)
       = Some (specFollowCount (tags ev))).
Proof.
  intros Hclaim.
  specialize (Hclaim 0%nat {| kind := 3; tags := [["p"]; ["p"; ""]; ["p"; "a1"]] |}
                initial eq_refl eq_refl).
  discriminate Hclaim.
Qed.

(** A later kind-3 event does not change the count. *)
Lemma later_contact_lists_ignored (i : nat) (ev : ContactEvent) (st : FollowsState) :
  followsReceived st = true -> followsOnMessage i (MsgEvent ev) st = st.
Proof. intros Hr. cbn. rewrite Hr. by rewrite andb_false_r. Qed.

End ProfileDataProofs.

(** ** The connect acknowledgement *)

Module AckProofs.
Import Json Connect.

Lemma strictEqStr_spec (v : jsval) (s : string) :
  strictEqStr v s = true <-> v = Some (JStr s).
Proof.
  destruct v as [[]|]; cbn; try (split; congruence).
  rewrite String.eqb_eq. split; congruence.
Qed.

(** C6, as the code has it: a parsed control message is taken for a
    connect acknowledgement exactly when it is not [null] and one of the
    five operands holds: [result] is the string "ack"; [result] is the
    session secret; [method] is the string "connect"; [result] is truthy
    and [error] is falsy (absent, null, false, 0 or the empty string);
    [id] is truthy and [result] is there, whatever its value, [null]
    included. *)
Theorem isConnectResponse_five_operands (response : json) (secret : string) :
  isConnectResponse response secret = Some true <->
  response <> JNull
  /\ (field "result" response = Some (JStr "ack")
      \/ field "result" response = Some (JStr secret)
      \/ field "method" response = Some (JStr "connect")
      \/ (truthy (field "result" response) = true
          /\ truthy (field "error" response) = false)
      \/ (truthy (field "id" response) = true /\ field "result" response <> None)).
Proof.
  unfold isConnectResponse, field.
  destruct response as [|b|n|s|items|fields]; cbn.
  1: { split; [done | by intros [? _]]. }
  1-4: split; [done | intros [_ [H|[H|[H|[[H _]|[H _]]]]]]; discriminate H].
  rewrite <- !strictEqStr_spec.
  set (result := lookupField "result" fields).
  set (method := lookupField "method" fields).
  set (error := lookupField "error" fields).
  set (id := lookupField "id" fields).
  split.
  - intros [= Heq]. split; [done|].
    apply orb_true_iff in Heq as [Heq|Heq].
    2: { apply andb_true_iff in Heq as [? ?%bool_decide_eq_true]. auto 10. }
    apply orb_true_iff in Heq as [Heq|Heq].
    2: { apply andb_true_iff in Heq as [? ?%negb_true_iff]. auto 10. }
    apply orb_true_iff in Heq as [Heq|Heq]; [|auto].
    apply orb_true_iff in Heq as [Heq|Heq]; auto.
  - intros [_ Hor]. f_equal.
    destruct Hor as [Hr | [Hr | [Hm | [[Hr He] | [Hi Hne]]]]].
    + by rewrite Hr.
    + rewrite Hr. by rewrite orb_true_r.
    + rewrite Hm. by rewrite !orb_true_r.
    + rewrite Hr, He. cbn. by rewrite !orb_true_r.
    + rewrite Hi, (bool_decide_eq_true_2 _ Hne). cbn. by rewrite !orb_true_r.
Qed.

(** C6 as stated fails under both readings of "present".  With "present"
    as "the field is there": the message [{result: ""}] has a result and
    no error, and is not taken for an acknowledgement.  With "present" as
    "truthy": the error reply [{id: "1", result: null, error: "denied"}]
    has no truthy result, and is taken for an acknowledgement. *)
Lemma isConnectResponse_is_not_presence :
  ~ (forall response secret,
       isConnectResponse response secret = Some true <-> specAckPresent response secret)
  /\ ~ (forall response secret,
       isConnectResponse response secret = Some true <-> specAckTruthy response secret).
Proof.
  split; intros Hclaim.
  - destruct (Hclaim (JObj [("result", JStr "")]) "s3cr3t") as [_ Hback].
    discriminate Hback. unfold specAckPresent, field. cbn. auto 10.
  - destruct (Hclaim (JObj [("id", JStr "1"); ("result", JNull); ("error", JStr "denied")])
                "s3cr3t") as [Hfwd _].
    destruct (Hfwd eq_refl) as [H|[H|[H|[[H _]|[_ H]]]]]; discriminate H.
Qed.

End AckProofs.

(** ** The bech32 decoder *)

Module KeyCodecProofs.
Import JS KeyCodec.

Lemma chars_str (l : list ascii) : chars (str l) = l.
Proof. apply list_ascii_of_string_of_list_ascii. Qed.

Lemma str_chars (s : string) : str (chars s) = s.
Proof. apply string_of_list_ascii_of_string. Qed.

Lemma chars_app (s t : string) : chars (s +:+ t) = chars s ++ chars t.
Proof.
  induction s as [|c s IH]; [reflexivity|].
  change (c :: chars (s +:+ t) = c :: (chars s ++ chars t)). by f_equal.
Qed.

Lemma str_app (l k : list ascii) : str (l ++ k) = str l +:+ str k.
Proof.
  induction l as [|c l IH]; [reflexivity|].
  change (String c (str (l ++ k)) = String c (str l +:+ str k)). by f_equal.
Qed.

(** The 32 characters of the alphabet are lower-case or digits, and each
    is found back at its own position. *)
Lemma alphabet_char (v : Z) :
  0 <= v < 32 ->
  lowerChar (charAt ALPHABET v) = charAt ALPHABET v
  /\ indexOf (charAt ALPHABET v) ALPHABET = Some v.
Proof.
  intros Hv. rewrite <- (Z2Nat.id v) by lia.
  assert (Z.to_nat v < 32)%nat as Hlt by lia.
  generalize dependent (Z.to_nat v). clear. intros i Hlt.
  do 32 (destruct i as [|i]; [by vm_compute|]). lia.
Qed.

Lemma lower_dataChars (values : list Z) :
  Forall (fun v => 0 <= v < 32) values ->
  map lowerChar (dataChars values) = dataChars values.
Proof.
  induction 1 as [|v vs Hv _ IH]; [done|].
  change (lowerChar (charAt ALPHABET v) :: map lowerChar (dataChars vs)
          = charAt ALPHABET v :: dataChars vs).
  rewrite IH. f_equal. apply alphabet_char, Hv.
Qed.

Lemma alphabetValues_dataChars (values : list Z) :
  Forall (fun v => 0 <= v < 32) values ->
  alphabetValues (dataChars values) = Some values.
Proof.
  induction 1 as [|v vs Hv _ IH]; [done|].
  change (alphabetValues (dataChars (v :: vs)))
    with (match indexOf (charAt ALPHABET v) ALPHABET with
          | None => None
          | Some idx => cons idx <$> alphabetValues (dataChars vs)
          end).
  destruct (alphabet_char v Hv) as [_ ->]. by rewrite IH.
Qed.

Lemma sliceDropLast_app {A} (l k : list A) n :
  length k = n -> sliceDropLast n (l ++ k) = l.
Proof.
  intros <-. unfold sliceDropLast. rewrite length_app.
  replace (length l + length k - length k)%nat with (length l) by lia.
  by rewrite take_app_length.
Qed.




(** An unrecognised prefix, or a data character outside the alphabet,
    gives [null]. *)
Lemma bech32ToHex_null_cases (s : string) :
  (startsWith "nsec" (toLowerCase s) = false /\ startsWith "npub" (toLowerCase s) = false
   -> bech32ToHex s = None)
  /\ (alphabetValues (chars (sliceFrom 5 (toLowerCase s))) = None -> bech32ToHex s = None).
Proof.
  unfold bech32ToHex. split.
  - by intros [-> ->].
  - intros Hnone.
    destruct (startsWith "nsec" (toLowerCase s)).
    { change (String.length (prefixName nsec) + 1)%nat with 5%nat. by rewrite Hnone. }
    destruct (startsWith "npub" (toLowerCase s)); [|done].
    change (String.length (prefixName npub) + 1)%nat with 5%nat. by rewrite Hnone.
Qed.

End KeyCodecProofs.

(** ** The platform codecs *)

Module CodecProofs.
Import JS Codec.
Import KeyCodecProofs.

Lemma list_ind3 {A} (P : list A -> Prop) :
  P [] -> (forall a, P [a]) -> (forall a b, P [a; b]) ->
  (forall a b c l, P l -> P (a :: b :: c :: l)) ->
  forall l, P l.
Proof.
  intros H0 H1 H2 H3 l.
  enough (P l /\ (forall a, P (a :: l)) /\ (forall a b, P (a :: b :: l))) by tauto.
  induction l as [|x l (IH0 & IH1 & IH2)]; [auto|].
  split; [apply IH1|]. split; [intros a; apply IH2|]. intros a b. apply H3, IH0.
Qed.

Lemma charCode_range (c : ascii) : 0 <= charCode c < 256.
Proof.
  unfold charCode. pose proof (N_ascii_bounded c). lia.
Qed.

Lemma fromCharCode_charCode (c : ascii) : fromCharCode (charCode c) = c.
Proof.
  unfold fromCharCode. pose proof (charCode_range c) as Hc.
  rewrite Z.mod_small by lia. unfold charCode.
  rewrite N2Z.id. apply ascii_N_embedding.
Qed.

(** Each of the 64 characters is found back at its own position; none is
    white space, a padding sign, or one of the characters that open an IV
    separator. *)
Lemma b64char_facts (v : Z) :
  0 <= v < 64 ->
  b64val (b64char v) = Some v
  /\ isB64Space (b64char v) = false
  /\ Ascii.eqb (b64char v) "=" = false.
Proof.
  intros Hv. rewrite <- (Z2Nat.id v) by lia.
  assert (Z.to_nat v < 64)%nat as Hlt by lia.
  generalize dependent (Z.to_nat v). clear. intros i Hlt.
  do 64 (destruct i as [|i]; [by vm_compute|]). lia.
Qed.

Lemma encodeGroups_split (l : list ascii) :
  encodeGroups l = map b64char (sextetsOf l) ++ paddingOf l.
Proof.
  induction l as [| a | a b | a b c l IH] using list_ind3; try reflexivity.
  cbn [encodeGroups sextetsOf paddingOf map app]. by rewrite IH.
Qed.

Lemma sextetsOf_range (l : list ascii) : Forall (fun v => 0 <= v < 64) (sextetsOf l).
Proof.
  induction l as [| a | a b | a b c l IH] using list_ind3; cbn [sextetsOf].
  - apply Forall_nil_2.
  - pose proof (charCode_range a).
    repeat (apply Forall_cons_2; [divlia|]). apply Forall_nil_2.
  - pose proof (charCode_range a). pose proof (charCode_range b).
    repeat (apply Forall_cons_2; [divlia|]). apply Forall_nil_2.
  - pose proof (charCode_range a). pose proof (charCode_range b).
    pose proof (charCode_range c).
    repeat (apply Forall_cons_2; [divlia|]). exact IH.
Qed.

Lemma fromCharCode_eq (c : ascii) (e : Z) : e = charCode c -> fromCharCode e = c.
Proof. intros ->. apply fromCharCode_charCode. Qed.

Lemma decodeGroups_sextetsOf (l : list ascii) : decodeGroups (sextetsOf l) = l.
Proof.
  induction l as [| a | a b | a b c l IH] using list_ind3;
    cbn [sextetsOf decodeGroups]; [done | | |].
  - pose proof (charCode_range a).
    f_equal. apply fromCharCode_eq. divlia.
  - pose proof (charCode_range a). pose proof (charCode_range b).
    f_equal; [apply fromCharCode_eq; divlia|].
    f_equal. apply fromCharCode_eq. divlia.
  - pose proof (charCode_range a). pose proof (charCode_range b).
    pose proof (charCode_range c).
    f_equal; [apply fromCharCode_eq; divlia|].
    f_equal; [apply fromCharCode_eq; divlia|].
    f_equal; [apply fromCharCode_eq; divlia|]. exact IH.
Qed.

Lemma sextets_b64char (vs : list Z) :
  Forall (fun v => 0 <= v < 64) vs -> sextets (map b64char vs) = Some vs.
Proof.
  induction 1 as [|v vs Hv _ IH]; [done|].
  change (sextets (map b64char (v :: vs)))
    with (match b64val (b64char v) with
          | None => None
          | Some w => cons w <$> sextets (map b64char vs)
          end).
  destruct (b64char_facts v Hv) as [-> _]. by rewrite IH.
Qed.

Lemma mod4_step (n : nat) : (S (S (S (S n))) mod 4 = n mod 4)%nat.
Proof.
  replace (S (S (S (S n)))) with (n + 1 * 4)%nat by lia. apply Nat.Div0.mod_add.
Qed.

Lemma sextetsOf_length (l : list ascii) : (length (sextetsOf l) mod 4 <> 1)%nat.
Proof.
  induction l as [| a | a b | a b c l IH] using list_ind3; [done | done | done |].
  cbn [sextetsOf length]. by rewrite mod4_step.
Qed.

Lemma encodeGroups_length (l : list ascii) : (length (encodeGroups l) mod 4 = 0)%nat.
Proof.
  induction l as [| a | a b | a b c l IH] using list_ind3; [done | done | done |].
  cbn [encodeGroups length]. by rewrite mod4_step.
Qed.

(** What [btoa] writes holds no white space. *)
Lemma encodeGroups_no_space (l : list ascii) :
  Forall (fun c => isB64Space c = false) (encodeGroups l).
Proof.
  rewrite encodeGroups_split. apply Forall_app. split.
  - apply Forall_map. eapply Forall_impl; [apply sextetsOf_range|].
    intros v Hv. apply b64char_facts, Hv.
  - induction l as [| a | a b | a b c l IH] using list_ind3; cbn [paddingOf];
      [apply Forall_nil_2 | | | exact IH]; by repeat constructor.
Qed.

Lemma filter_all {A} (P : A -> Prop) `{!forall x, Decision (P x)} (l : list A) :
  Forall P l -> filter P l = l.
Proof.
  induction 1 as [|x l Hx _ IH]; [done|].
  rewrite filter_cons. destruct (decide (P x)); [by rewrite IH | done].
Qed.

(** Removing the padding of an encoding leaves its characters. *)
Lemma stripPadding_encoded (xs pad : list ascii) :
  Forall (fun c => Ascii.eqb c "=" = false) xs ->
  pad = [] \/ pad = ["="%char] \/ pad = ["="%char; "="%char] ->
  stripPadding (xs ++ pad) = xs.
Proof.
  intros Hxs Hpad. unfold stripPadding. rewrite rev_app_distr.
  assert (forall c r, rev xs = c :: r -> Ascii.eqb c "=" = false) as Hhead.
  { intros c r Hrev. eapply (proj1 (Forall_forall _ _) Hxs).
    apply list_elem_of_In, in_rev. rewrite Hrev. by left. }
  destruct Hpad as [-> | [-> | ->]]; cbn [rev app].
  - rewrite app_nil_r. destruct (rev xs) as [|c r] eqn:Hrev; [done|].
    by rewrite (Hhead c r eq_refl).
  - destruct (rev xs) as [|c r] eqn:Hrev.
    + apply (f_equal (@rev _)) in Hrev. rewrite rev_involutive in Hrev. by subst.
    + rewrite (Hhead c r eq_refl). change (Ascii.eqb "=" "=") with true.
      cbv iota. rewrite <- Hrev. apply rev_involutive.
  - change (Ascii.eqb "=" "=") with true. cbv iota. apply rev_involutive.
Qed.

Lemma paddingOf_cases (l : list ascii) :
  paddingOf l = [] \/ paddingOf l = ["="%char] \/ paddingOf l = ["="%char; "="%char].
Proof.
  induction l as [| a | a b | a b c l IH] using list_ind3; cbn [paddingOf]; auto.
Qed.

Lemma atob_encodeGroups (l : list ascii) : atob (str (encodeGroups l)) = Some (str l).
Proof.
  unfold atob. rewrite chars_str.
  rewrite (filter_all _ _ (encodeGroups_no_space l)).
  rewrite (proj2 (Nat.eqb_eq _ _) (encodeGroups_length l)).
  rewrite encodeGroups_split, stripPadding_encoded.
  2: { apply Forall_map. eapply Forall_impl; [apply sextetsOf_range|].
       intros v Hv. apply b64char_facts, Hv. }
  2: apply paddingOf_cases.
  rewrite length_map.
  destruct (Nat.eqb_spec (length (sextetsOf l) mod 4) 1) as [Heq|_];
    [by destruct (sextetsOf_length l)|].
  rewrite sextets_b64char by apply sextetsOf_range.
  cbn. by rewrite decodeGroups_sextetsOf.
Qed.

(** [atob] undoes [btoa]. *)
Lemma atob_btoa (s : string) : atob (btoa s) = Some s.
Proof. unfold btoa. rewrite atob_encodeGroups. by rewrite str_chars. Qed.

Lemma sextets_Some (d : list ascii) (vs : list Z) :
  sextets d = Some vs -> Forall (fun c => is_Some (b64val c)) d.
Proof.
  revert vs. induction d as [|c d IH]; intros vs Hs; [apply Forall_nil_2|].
  cbn [sextets] in Hs. destruct (b64val c) as [v|] eqn:Hv; [|done].
  destruct (sextets d) as [ws|] eqn:Hd; [|done].
  apply Forall_cons_2; [by rewrite Hv | by eapply IH].
Qed.

Lemma elem_of_rev_iff {A} (x : A) (l : list A) : x ∈ rev l <-> x ∈ l.
Proof. rewrite !list_elem_of_In. symmetry. apply in_rev. Qed.

Lemma stripPadding_kept (d : list ascii) (c : ascii) :
  c ∈ d -> Ascii.eqb c "=" = false -> c ∈ stripPadding d.
Proof.
  intros Hin Hc. unfold stripPadding.
  destruct (rev d) as [|c1 r1] eqn:Hrev; [done|].
  destruct (Ascii.eqb c1 "=") eqn:H1; [|done].
  assert (c ∈ c1 :: r1) as Hin1.
  { rewrite <- Hrev. by apply elem_of_rev_iff. }
  apply elem_of_cons in Hin1 as [-> | Hin1]; [congruence|].
  destruct r1 as [|c2 r2]; [by apply elem_of_nil in Hin1|].
  destruct (Ascii.eqb c2 "=") eqn:H2.
  - apply elem_of_cons in Hin1 as [-> | Hin2]; [congruence|].
    by apply elem_of_rev_iff.
  - by apply elem_of_rev_iff.
Qed.

(** [atob] succeeds only on tolerated characters. *)
Lemma atob_tolerated (s out : string) :
  atob s = Some out -> Forall (fun c => b64Tolerated c = true) (chars s).
Proof.
  unfold atob. intros Hat.
  set (d := filter (fun c => isB64Space c = false) (chars s)) in Hat.
  set (d' := if (length d mod 4 =? 0)%nat then stripPadding d else d) in Hat.
  destruct (length d' mod 4 =? 1)%nat; [done|].
  destruct (sextets d') as [vs|] eqn:Hs; [|done].
  apply sextets_Some in Hs.
  apply Forall_forall. intros c Hc. unfold b64Tolerated.
  destruct (isB64Space c) eqn:Hsp; [done|].
  destruct (Ascii.eqb c "=") eqn:Heq; [by rewrite orb_true_r|].
  assert (c ∈ d) as Hd by (apply list_elem_of_filter; done).
  assert (c ∈ d') as Hd'.
  { unfold d'. destruct (_ =? _)%nat; [by apply stripPadding_kept | done]. }
  rewrite (bool_decide_eq_true_2 _ (proj1 (Forall_forall _ _) Hs c Hd')). done.
Qed.

Lemma includes_elem (sep s : string) (c : ascii) :
  includes sep s = true -> c ∈ chars sep -> c ∈ chars s.
Proof.
  assert (forall p t, startsWith p t = true -> c ∈ chars p -> c ∈ chars t) as Hsw.
  { induction p as [|a p IH]; intros t Hst Hin; [by apply elem_of_nil in Hin|].
    destruct t as [|b t]; [done|]. cbn [startsWith] in Hst.
    destruct (Ascii.eqb_spec a b) as [->|]; [|done].
    change (c ∈ b :: chars p) in Hin. change (c ∈ b :: chars t).
    apply elem_of_cons in Hin as [-> | Hin]; [left | right; by apply IH]. }
  induction s as [|b s IH]; cbn [includes]; intros Hinc Hin.
  - rewrite orb_false_r in Hinc. by eapply Hsw.
  - apply orb_true_iff in Hinc as [Hst | Hinc]; [by eapply Hsw|].
    change (c ∈ b :: chars s). right. by apply IH.
Qed.

(** A text that [atob] decodes holds none of the three IV separators. *)
Lemma atob_no_separator (s out : string) :
  atob s = Some out -> CipherLayer.hasSeparator s = false.
Proof.
  intros Hat. pose proof (atob_tolerated s out Hat) as Htol.
  unfold CipherLayer.hasSeparator.
  assert (forall sep c, c ∈ chars sep -> b64Tolerated c = false ->
            includes sep s = false) as Hno.
  { intros sep c Hin Hc. destruct (includes sep s) eqn:Hinc; [|done].
    pose proof (proj1 (Forall_forall _ _) Htol c (includes_elem sep s c Hinc Hin)).
    congruence. }
  rewrite (Hno "?iv=" "?"%char), (Hno "&iv=" "&"%char), (Hno "_iv=" "_"%char);
    first [done | by left | by vm_compute].
Qed.

Lemma startsWith_app (sep b : string) : startsWith sep (sep +:+ b) = true.
Proof.
  induction sep as [|c sep IH]; [done|].
  change (String c sep +:+ b) with (String c (sep +:+ b)).
  cbn [startsWith]. by rewrite Ascii.eqb_refl.
Qed.

Lemma includes_app (sep a b : string) : includes sep (a +:+ sep +:+ b) = true.
Proof.
  induction a as [|c a IH].
  - change ("" +:+ sep +:+ b) with (sep +:+ b).
    destruct (sep +:+ b) eqn:Heq; cbn [includes]; rewrite <- ?Heq, startsWith_app; done.
  - change (String c a +:+ sep +:+ b) with (String c (a +:+ sep +:+ b)).
    cbn [includes]. rewrite IH. apply orb_true_r.
Qed.

Section Split.
Variables (c0 : ascii) (rest : string).
Let sep := String c0 rest.

Lemma splitGo_nomatch (b : string) : forall cur,
  c0 ∉ chars b -> splitGo sep 0 cur b = [str (rev cur ++ chars b)].
Proof.
  induction b as [|c b IH]; intros cur Hnin.
  - cbn. by rewrite app_nil_r.
  - change (chars (String c b)) with (c :: chars b) in *.
    apply not_elem_of_cons in Hnin as [Hne Hnin].
    cbn [splitGo sep startsWith].
    destruct (Ascii.eqb_spec c0 c) as [->|_]; [done|].
    rewrite IH by done. cbn [rev]. by rewrite <- app_assoc.
Qed.

Lemma splitGo_skip (k : string) : forall cur b,
  splitGo sep (String.length k) cur (k +:+ b) = splitGo sep 0 cur b.
Proof.
  induction k as [|c k IH]; intros cur b; [done|].
  change (String c k +:+ b) with (String c (k +:+ b)).
  cbn [String.length splitGo]. apply IH.
Qed.

Lemma splitGo_once (a b : string) : forall cur,
  c0 ∉ chars a -> c0 ∉ chars b ->
  splitGo sep 0 cur (a +:+ sep +:+ b) = [str (rev cur ++ chars a); b].
Proof.
  induction a as [|c a IH]; intros cur Ha Hb.
  - change ("" +:+ sep +:+ b) with (String c0 (rest +:+ b)).
    cbn [splitGo].
    change (String c0 (rest +:+ b)) with (sep +:+ b). rewrite startsWith_app.
    change (String.length sep - 1)%nat with (String.length rest - 0)%nat.
    rewrite Nat.sub_0_r, splitGo_skip, splitGo_nomatch by done.
    cbn [rev app chars]. by rewrite app_nil_r, str_chars.
  - change (chars (String c a)) with (c :: chars a) in *.
    apply not_elem_of_cons in Ha as [Hne Ha].
    change (String c a +:+ sep +:+ b) with (String c (a +:+ sep +:+ b)).
    cbn [splitGo sep startsWith].
    destruct (Ascii.eqb_spec c0 c) as [->|_]; [done|].
    rewrite IH by done. cbn [rev]. by rewrite <- app_assoc.
Qed.

Lemma split_once (a b : string) :
  c0 ∉ chars a -> c0 ∉ chars b -> split sep (a +:+ sep +:+ b) = [a; b].
Proof.
  intros Ha Hb. unfold split. rewrite splitGo_once by done.
  cbn [rev app]. by rewrite str_chars.
Qed.

End Split.

Lemma btoa_no_question (s : string) : "?"%char ∉ chars (btoa s).
Proof.
  intros Hin.
  pose proof (proj1 (Forall_forall _ _) (atob_tolerated _ _ (atob_btoa s)) _ Hin) as Htol.
  by vm_compute in Htol.
Qed.

Lemma atob_with_separator (a b : string) : atob (a +:+ "?iv=" +:+ b) = None.
Proof.
  destruct (atob (a +:+ "?iv=" +:+ b)) as [out|] eqn:Hat; [|done].
  apply atob_no_separator in Hat. unfold CipherLayer.hasSeparator in Hat.
  by rewrite includes_app in Hat.
Qed.

(** Binary strings and byte arrays. *)
Lemma bytesOfBinary_binaryOfBytes (b : bytes) : bytesOfBinary (binaryOfBytes b) = b.
Proof. apply list_byte_of_string_of_list_byte. Qed.

Lemma decode_btoa (b : bytes) :
  CipherLayer.decodeBase64 (btoa (binaryOfBytes b)) = Some b.
Proof.
  unfold CipherLayer.decodeBase64. rewrite atob_btoa. cbn.
  by rewrite bytesOfBinary_binaryOfBytes.
Qed.

(** The decoder gives well-formed UTF-8 back unchanged. *)
Lemma utf8Lead_high (b : Z) n lo hi : utf8Lead b = Some (n, lo, hi) -> 0x7F < b.
Proof.
  unfold utf8Lead. repeat case_match; intros [= <- <- <-]; lia.
Qed.

Lemma utf8Decode_valid_aux (n : nat) : forall l,
  (length l <= n)%nat -> utf8Valid l = true -> utf8Decode O 0x80 0xBF [] l = l.
Proof.
  induction n as [|n IH]; intros l Hlen Hv.
  { destruct l; [done | cbn in Hlen; lia]. }
  destruct l as [|c r]; [done|].
  cbn [utf8Valid] in Hv. cbn [utf8Decode].
  destruct (charCode c <=? 0x7F) eqn:Hc.
  { f_equal. apply IH; [cbn in Hlen; lia | done]. }
  destruct (utf8Lead (charCode c)) as [[[k lo] hi]|] eqn:Hlead; [|done].
  destruct k as [|[|[|k]]].
  - (* utf8Lead never answers 0 *)
    unfold utf8Lead in Hlead. repeat case_match; done.
  - destruct r as [|c1 r1]; [done|].
    apply andb_true_iff in Hv as [H1 Hv]. unfold inRange in H1.
    cbn [utf8Decode]. rewrite H1. cbn [app]. do 2 f_equal.
    apply IH; [cbn in Hlen; lia | done].
  - destruct r as [|c1 [|c2 r2]]; [done | done |].
    apply andb_true_iff in Hv as [Hv H3]. apply andb_true_iff in Hv as [H1 H2].
    unfold inRange in H1, H2.
    cbn [utf8Decode]. rewrite H1. cbn [utf8Decode]. rewrite H2. cbn [app].
    do 3 f_equal. apply IH; [cbn in Hlen; lia | done].
  - destruct r as [|c1 [|c2 [|c3 r3]]]; [done | done | done |].
    assert (k = O) as ->.
    { unfold utf8Lead in Hlead. repeat case_match; congruence. }
    apply andb_true_iff in Hv as [Hv H4]. apply andb_true_iff in Hv as [Hv H3].
    apply andb_true_iff in Hv as [H1 H2]. unfold inRange in H1, H2, H3.
    cbn [utf8Decode]. rewrite H1. cbn [utf8Decode]. rewrite H2.
    cbn [utf8Decode]. rewrite H3. cbn [app].
    do 4 f_equal. apply IH; [cbn in Hlen; lia | done].
Qed.

Lemma utf8Decode_valid (l : list ascii) :
  utf8Valid l = true -> utf8Decode O 0x80 0xBF [] l = l.
Proof. apply (utf8Decode_valid_aux (length l)). lia. Qed.

Lemma TextDecoder_TextEncoder (s : string) :
  utf8Valid (chars s) = true -> startsWithBOM s = false ->
  TextDecoder_decode (TextEncoder_encode s) = s.
Proof.
  intros Hv Hbom. unfold TextDecoder_decode, TextEncoder_encode.
  rewrite string_of_list_byte_of_string, utf8Decode_valid by done.
  rewrite <- (str_chars s) at 2. f_equal.
  unfold stripBOM, startsWithBOM in *.
  destruct (chars s) as [|a [|b [|c r]]]; try done. by rewrite Hbom.
Qed.

(** The decoder drops a leading U+FEFF. *)
Lemma TextDecoder_drops_BOM (s : string) :
  utf8Valid (chars s) = true ->
  TextDecoder_decode (TextEncoder_encode (str BOM +:+ s)) = s.
Proof.
  intros Hv. unfold TextDecoder_decode, TextEncoder_encode.
  rewrite string_of_list_byte_of_string, utf8Decode_valid.
  - rewrite chars_app. change (chars (str BOM)) with BOM.
    change (stripBOM (BOM ++ chars s)) with (chars s). apply str_chars.
  - rewrite chars_app. change (chars (str BOM)) with BOM.
    change (utf8Valid (BOM ++ chars s)) with (utf8Valid (chars s)). done.
Qed.

End CodecProofs.

(** ** The cipher layer *)

Module CipherLayerProofs.
Import JS Json Codec KeyCodec CipherLayer.
Import KeyCodecProofs CodecProofs.

Section WithPlatform.
Context `{P : Platform}.

Lemma looksVersioned_spec (decoded : bytes) :
  looksVersioned decoded = true <->
  Byte.to_N <$> head decoded = Some 2%N /\ (65 <= length decoded)%nat.
Proof.
  unfold looksVersioned. rewrite andb_true_iff, Nat.leb_le.
  destruct decoded as [|b rest]; cbn.
  - split; intros [? ?]; done.
  - rewrite N.eqb_eq. split; intros [Hb ?]; (split; [congruence | done]).
Qed.

Lemma isVersioned_spec (ciphertext : string) :
  isVersioned ciphertext = true <->
  exists decoded, decodeBase64 ciphertext = Some decoded /\ looksVersioned decoded = true.
Proof.
  unfold isVersioned. destruct (decodeBase64 ciphertext) as [decoded|].
  - rewrite bool_decide_eq_true, <- looksVersioned_spec. split.
    + intros Hl. by exists decoded.
    + by intros (d & [= <-] & Hl).
  - split; [done | by intros (d & ? & _)].
Qed.

Lemma decodeBase64_no_separator (ciphertext : string) (decoded : bytes) :
  decodeBase64 ciphertext = Some decoded -> hasSeparator ciphertext = false.
Proof.
  unfold decodeBase64. destruct (atob ciphertext) as [out|] eqn:Hat; [|done].
  intros _. by eapply atob_no_separator.
Qed.


(** The legacy envelope written by [nip04Encrypt] and what
    [nip04Decrypt] makes of it, for a counterparty whose ECDH secret
    agrees and a cipher whose decryption undoes its encryption: the legacy
    path is taken and the result is what [TextDecoder] reads in the UTF-8
    bytes of the message. *)
Lemma nip04_encrypt_then_decrypt (priv pub priv' pub' message : string)
    (iv key c : bytes) :
  subtleAvailable = true ->
  sharedX priv pub' = Some key ->
  sharedX priv' pub = Some key ->
  length iv = 16%nat ->
  aes_cbc_encrypt key iv (TextEncoder_encode message) = Some c ->
  c <> [] ->
  aes_cbc_decrypt key iv c = Some (TextEncoder_encode message) ->
  nip04Encrypt priv pub' message iv
  = Some (btoa (binaryOfBytes c) +:+ "?iv=" +:+ btoa (binaryOfBytes iv))
  /\ nip04Decrypt priv' pub (btoa (binaryOfBytes c) +:+ "?iv=" +:+ btoa (binaryOfBytes iv))
     = ([LogTryingNip04; LogNip04Separator],
        Ok (TextDecoder_decode (TextEncoder_encode message))).
Proof.
  intros Hsubtle Hk Hk' Hiv Henc Hne Hdec. split.
  - unfold nip04Encrypt. rewrite Hk. cbn. rewrite Hsubtle, Henc. done.
  - set (ct := btoa (binaryOfBytes c) +:+ "?iv=" +:+ btoa (binaryOfBytes iv)).
    assert (includes "?iv=" ct = true) as Hinc by apply includes_app.
    assert (atob ct = None) as Hat by apply atob_with_separator.
    unfold nip04Decrypt, decodeBase64. rewrite Hat.
    cbn [fmap option_fmap option_map]. unfold legacyDispatch, hasSeparator.
    rewrite Hinc. cbn [orb app]. f_equal.
    unfold nip04DecryptOnly. rewrite Hsubtle, Hinc. cbn [negb].
    unfold separatorParts, splitParts, ct.
    rewrite (split_once "?" "iv=") by apply btoa_no_question.
    change (default "undefined" ([?a; ?b] !! 0%nat)) with a.
    change (default "undefined" ([?a; ?b] !! 1%nat)) with b.
    rewrite !decode_btoa. cbn [mbind option_bind].
    unfold decryptParts. rewrite Hiv. cbn [Nat.eqb negb].
    destruct c as [|b c']; [done|]. cbn [length Nat.eqb].
    rewrite Hk'. cbn. rewrite Hdec. done.
Qed.

(** C8, as the code has it: for a counterparty that derives the same ECDH
    secret, a 16-byte IV and a cipher whose decryption undoes its
    encryption, what [nip04Encrypt] writes is
    [base64(ciphertext) + "?iv=" + base64(iv)], and [nip04Decrypt] reads
    it on the legacy path and returns the message, for every well-formed
    UTF-8 message, empty or with multi-byte characters, that does not
    start with U+FEFF. *)
Theorem nip04_round_trip (priv pub priv' pub' message : string) (iv key c : bytes) :
  subtleAvailable = true ->
  sharedX priv pub' = Some key ->
  sharedX priv' pub = Some key ->
  length iv = 16%nat ->
  aes_cbc_encrypt key iv (TextEncoder_encode message) = Some c ->
  c <> [] ->
  aes_cbc_decrypt key iv c = Some (TextEncoder_encode message) ->
  utf8Valid (chars message) = true ->
  startsWithBOM message = false ->
  nip04Encrypt priv pub' message iv
  = Some (btoa (binaryOfBytes c) +:+ "?iv=" +:+ btoa (binaryOfBytes iv))
  /\ nip04Decrypt priv' pub (btoa (binaryOfBytes c) +:+ "?iv=" +:+ btoa (binaryOfBytes iv))
     = ([LogTryingNip04; LogNip04Separator], Ok message).
Proof.
  intros Hsubtle Hk Hk' Hiv Henc Hne Hdec Hvalid Hbom.
  destruct (nip04_encrypt_then_decrypt priv pub priv' pub' message iv key c)
    as [Hwritten Hread]; try done.
  split; [done|]. rewrite Hread. by rewrite TextDecoder_TextEncoder.
Qed.

(** A message that starts with U+FEFF comes back without it. *)
Lemma nip04_round_trip_drops_BOM (priv pub priv' pub' message : string)
    (iv key c : bytes) :
  subtleAvailable = true ->
  sharedX priv pub' = Some key ->
  sharedX priv' pub = Some key ->
  length iv = 16%nat ->
  aes_cbc_encrypt key iv (TextEncoder_encode (str BOM +:+ message)) = Some c ->
  c <> [] ->
  aes_cbc_decrypt key iv c = Some (TextEncoder_encode (str BOM +:+ message)) ->
  utf8Valid (chars message) = true ->
  snd (nip04Decrypt priv' pub
         (btoa (binaryOfBytes c) +:+ "?iv=" +:+ btoa (binaryOfBytes iv)))
  = Ok message.
Proof.
  intros Hsubtle Hk Hk' Hiv Henc Hne Hdec Hvalid.
  destruct (nip04_encrypt_then_decrypt priv pub priv' pub' (str BOM +:+ message)
              iv key c) as [_ ->]; try done.
  cbn [snd]. by rewrite TextDecoder_drops_BOM.
Qed.

End WithPlatform.

Import Sample.

(** A versioned text whose NIP-44 decryption throws ends in the
    unknown-format error, after the three console lines. *)
Lemma versioned_text_with_failing_decryption :
  classify (P := samplePlatform) versionedText = Versioned
  /\ nip04Decrypt (P := samplePlatform) clientKey signerPub versionedText
     = ([LogNip44Detected; LogNip44Error; LogTryingNip04], Err UnknownFormat).
Proof. split; evaluated. Qed.

Lemma nip04_round_trip_witness :
  nip04Encrypt (P := samplePlatform) signerKey clientPub "héllo €" sampleIV
  = Some (btoa (binaryOfBytes (TextEncoder_encode "héllo €" ++ [Byte.x01]))
          +:+ "?iv=" +:+ btoa (binaryOfBytes sampleIV))
  /\ nip04Decrypt (P := samplePlatform) clientKey signerPub
       (btoa (binaryOfBytes (TextEncoder_encode "héllo €" ++ [Byte.x01]))
        +:+ "?iv=" +:+ btoa (binaryOfBytes sampleIV))
     = ([LogTryingNip04; LogNip04Separator], Ok "héllo €").
Proof.
  apply (nip04_round_trip (P := samplePlatform) signerKey signerPub clientKey clientPub
           "héllo €" sampleIV sampleSecret (TextEncoder_encode "héllo €" ++ [Byte.x01]));
    first [reflexivity | discriminate].
Defined.

(** The empty message makes the round trip as well. *)
Lemma nip04_round_trip_empty :
  snd (nip04Decrypt (P := samplePlatform) clientKey signerPub
         (default "" (nip04Encrypt (P := samplePlatform) signerKey clientPub "" sampleIV)))
  = Ok "".
Proof. reflexivity. Qed.

(** C8 as stated fails: the message made of U+FEFF followed by "hi" is
    well-formed UTF-8, all the conditions on the keys and on the cipher
    hold, and what comes back is "hi". *)
Lemma nip04_round_trip_fails_with_BOM :
  ~ (forall (P : Platform) (priv pub priv' pub' message : string) (iv key c : bytes),
       subtleAvailable = true ->
       sharedX priv pub' = Some key ->
       sharedX priv' pub = Some key ->
       length iv = 16%nat ->
       aes_cbc_encrypt key iv (TextEncoder_encode message) = Some c ->
       c <> [] ->
       aes_cbc_decrypt key iv c = Some (TextEncoder_encode message) ->
       utf8Valid (chars message) = true ->
       forall ciphertext, nip04Encrypt priv pub' message iv = Some ciphertext ->
       snd (nip04Decrypt priv' pub ciphertext) = Ok message).
Proof.
  intros Hclaim.
  specialize (Hclaim samplePlatform signerKey signerPub clientKey clientPub
                (str BOM +:+ "hi") sampleIV sampleSecret
                (TextEncoder_encode (str BOM +:+ "hi") ++ [Byte.x01])
                eq_refl eq_refl eq_refl eq_refl eq_refl).
  specialize (Hclaim ltac:(discriminate) eq_refl eq_refl _ eq_refl).
  vm_compute in Hclaim. discriminate Hclaim.
Qed.

End CipherLayerProofs.

(** ** The signing request *)

Module ConnectProofs.
Import JS Json Codec EventSigner CipherLayer Connect.
Import AckProofs.

Section WithPlatform.
Context `{P : Platform}.
Variable session : StoredSession.
Variable requestId : string.
Variable event : json.

Local Abbreviation step := (step session requestId event).
Local Abbreviation run := (run session requestId event).
Local Abbreviation responseOf := (responseOf session).
Local Abbreviation nonMatching := (nonMatching session requestId).
Local Abbreviation onmessage := (onmessage session requestId).
Local Abbreviation onMatch := (onMatch).

Lemma field_getProp (name : string) (response : json) (v : json) :
  field name response = Some v -> getProp name (Some response) = Some (Some v).
Proof.
  unfold field. destruct (getProp name (Some response)) as [w|]; [|done].
  cbn. by intros ->.
Qed.

Lemma getProp_field (name name' : string) (response : json) (w : jsval) :
  getProp name (Some response) = Some w ->
  getProp name' (Some response) = Some (field name' response).
Proof. unfold field. by destruct response. Qed.

Lemma onmessage_nonMatching (m : RelayMessage) (st : SignState) :
  nonMatching m -> onmessage m st = st.
Proof.
  intros Hnm. unfold Connect.onmessage.
  destruct (responseOf m) as [response|] eqn:Hresp; [|done].
  destruct (getProp "id" (Some response)) as [rid|] eqn:Hid; [|done].
  destruct (strictEqStr rid requestId) eqn:Heq; [|done].
  apply strictEqStr_spec in Heq as ->.
  destruct (Hnm response Hresp). unfold field. by rewrite Hid.
Qed.

Lemma run_nonMatching (ms : list RelayMessage) (st : SignState) :
  Forall nonMatching ms -> run st (map EvMessage ms) = st.
Proof.
  induction 1 as [|m ms Hm _ IH]; [done|].
  cbn [map Connect.run fold_left Connect.step].
  destruct (closed st); [exact IH|].
  rewrite onmessage_nonMatching by done. exact IH.
Qed.

Lemma onmessage_matching (m : RelayMessage) (response : json) (st : SignState) :
  responseOf m = Some response ->
  field "id" response = Some (JStr requestId) ->
  onmessage m st = onMatch response st
  /\ getProp "result" (Some response) = Some (field "result" response)
  /\ getProp "error" (Some response) = Some (field "error" response).
Proof.
  intros Hresp Hid. apply field_getProp in Hid.
  split; [|split; by eapply getProp_field].
  unfold Connect.onmessage. rewrite Hresp, Hid. cbn [strictEqStr].
  by rewrite String.eqb_refl.
Qed.

Lemma run_app (st : SignState) (es es' : list Event) :
  run st (es ++ es') = run (run st es) es'.
Proof. apply fold_left_app. Qed.

(** When the socket opens and the request can be encrypted and signed,
    the request is sent and the timer is armed. *)
Lemma onopen_arms_timer (now : Z) (iv aux : bytes) (st : SignState)
    (encrypted sg : string) :
  nip04Encrypt (clientPrivateKey session) (remotePubkey session)
    (stringify (JObj [("id", JStr requestId); ("method", JStr "sign_event");
                      ("params", JArr [JStr (stringify event)])])) iv
  = Some encrypted ->
  signEvent {| id := None; pubkey := clientPubkey session; created_at := now / 1000;
               kind := 24133; tags := [["p"; remotePubkey session]];
               content := encrypted; sig := None |}
    (clientPrivateKey session) aux = Some sg ->
  let st' := step st (EvOpen now iv aux) in
  timerArmed st' = true /\ promise st' = promise st /\ closed st' = closed st
  /\ length (sent st') = S (S (length (sent st))).
Proof.
  intros Henc Hsig st'. subst st'. cbn [Connect.step]. unfold onopen.
  rewrite Henc, Hsig. cbn. rewrite !length_app. cbn. repeat split; lia.
Qed.


(** C10: a response with the request id that has neither a truthy
    [result] nor a truthy [error], or whose [result] does not parse as
    JSON, clears the timer and closes the socket and leaves the promise
    pending; no later message or timer event settles it. *)
Theorem requestSignature_never_settles (st : SignState) (m : RelayMessage)
    (response : json) :
  promise st = Pending -> closed st = false ->
  responseOf m = Some response ->
  field "id" response = Some (JStr requestId) ->
  (truthy (field "result" response) = false /\ truthy (field "error" response) = false)
  \/ (truthy (field "result" response) = true
      /\ JSON_parse (default "" (toString <$> field "result" response)) = None) ->
  let st' := step st (EvMessage m) in
  timerArmed st' = false /\ closed st' = true /\ promise st' = Pending
  /\ forall later, Forall (quiet) later -> promise (run st' later) = Pending.
Proof.
  intros Hpending Hopen Hresp Hid Hcases st'.
  assert (st' = wsClose (clearTimeout st)) as Hst'.
  { subst st'. cbn [Connect.step]. rewrite Hopen.
    destruct (onmessage_matching m response st Hresp Hid) as (-> & Hr & He).
    unfold Connect.onMatch. rewrite Hr, He.
    destruct Hcases as [[-> ->] | [-> ->]]; done. }
  rewrite Hst'. cbn. repeat split; [done|].
  intros later Hlater.
  enough (run (wsClose (clearTimeout st)) later = wsClose (clearTimeout st)) as -> by done.
  induction Hlater as [|e later He _ IH]; [done|].
  cbn [Connect.run fold_left]. destruct e; try done; exact IH.
Qed.

End WithPlatform.

Import Sample.

Lemma sample_nonMatching :
  Forall (nonMatching (P := samplePlatform) sampleSession "req1")
    [controlEvent respOther; MsgOther].
Proof.
  apply Forall_cons_2; [|apply Forall_cons_2; [|apply Forall_nil_2]].
  - intros response Hresp. vm_compute in Hresp.
    injection Hresp as <-. vm_compute. discriminate.
  - intros response Hresp. vm_compute in Hresp. discriminate Hresp.
Defined.



Lemma requestSignature_never_settles_witness :
  let bare := step (P := samplePlatform) sampleSession "req1" unsignedEvent opened
                (EvMessage (controlEvent respBare)) in
  let garbled := step (P := samplePlatform) sampleSession "req1" unsignedEvent opened
                   (EvMessage (controlEvent respGarbled)) in
  (timerArmed bare = false /\ closed bare = true /\ promise bare = Pending
   /\ forall later, Forall quiet later ->
        promise (run (P := samplePlatform) sampleSession "req1" unsignedEvent bare later)
        = Pending)
  /\ (timerArmed garbled = false /\ closed garbled = true /\ promise garbled = Pending
      /\ forall later, Forall quiet later ->
           promise (run (P := samplePlatform) sampleSession "req1" unsignedEvent garbled
                      later) = Pending).
Proof.
  split.
  - refine (requestSignature_never_settles (P := samplePlatform) sampleSession "req1"
              unsignedEvent opened (controlEvent respBare) respBare _ _ _ _
              (or_introl (conj _ _))); evaluated.
  - refine (requestSignature_never_settles (P := samplePlatform) sampleSession "req1"
              unsignedEvent opened (controlEvent respGarbled) respGarbled _ _ _ _
              (or_intror (conj _ _))); evaluated.
Defined.

End ConnectProofs.

(** ** The event signer *)

Module EventSignerProofs.
Import JS Json Codec KeyCodec EventSigner.

Lemma append_assoc (a b c : string) : (a +:+ b) +:+ c = a +:+ (b +:+ c).
Proof.
  induction a as [|x a IH]; [reflexivity|].
  change (String x ((a +:+ b) +:+ c) = String x (a +:+ (b +:+ c))). by f_equal.
Qed.

Lemma stringify_tag (tag : list string) : stringify (JArr (map JStr tag)) = tagSpec tag.
Proof.
  unfold tagSpec. cbn [stringify]. do 2 f_equal.
  rewrite List.map_map. done.
Qed.

Lemma stringify_tags (tags : list (list string)) :
  stringify (JArr (map (fun tag => JArr (map JStr tag)) tags))
  = "[" +:+ commaJoin (map tagSpec tags) +:+ "]".
Proof.
  cbn [stringify]. do 2 f_equal. rewrite List.map_map. f_equal.
  apply map_ext. intros tag. apply stringify_tag.
Qed.

(** [JSON.stringify] of the six-element array is the canonical
    serialization. *)
Lemma stringify_preimage (event : NostrEvent) :
  stringify (preimageArray event) = canonicalSerialize event.
Proof.
  unfold preimageArray, canonicalSerialize.
  change (stringify (JArr ?l)) with ("[" +:+ commaJoin (List.map stringify l) +:+ "]").
  cbn [List.map commaJoin]. rewrite stringify_tags.
  change (stringify (JNum ?n)) with (decimal n).
  change (stringify (JStr ?s)) with (quote s).
  change (decimal 0) with "0".
  by rewrite !append_assoc.
Qed.

Section WithPlatform.
Context `{P : Platform}.

(** C5: [getEventHash] is the hex form of the SHA-256 of the UTF-8 bytes
    of the canonical serialization [[0,pubkey,created_at,kind,tags,content]]
    (fixed order, single commas, no white space between the tokens), and
    [signEvent] signs the SHA-256 of the very same bytes: the event id is
    the hex form of the hash that is signed. *)
Theorem event_hash_and_signature_share_preimage (event : NostrEvent)
    (privateKey : string) (aux : bytes) :
  let hash := sha256 (TextEncoder_encode (canonicalSerialize event)) in
  getEventHash event = bytesToHex hash
  /\ signEvent event privateKey aux
     = (normalizedKey ← normalizePrivateKey privateKey;
        key ← hexToBytes normalizedKey;
        sig ← schnorr_sign hash key aux;
        Some (bytesToHex sig)).
Proof.
  intros hash. unfold getEventHash, signEvent, hash.
  by rewrite stringify_preimage.
Qed.

End WithPlatform.

(** The fixture event of the specification serializes to the expected
    text, with no white space. *)
Lemma fixture_serialization :
  canonicalSerialize Sample.fixture
  = str (chars "[0," ++ [dquote] ++ chars (pubkey Sample.fixture) ++ [dquote]
         ++ chars ",1700000000,1,[]," ++ [dquote] ++ chars "hello" ++ [dquote]
         ++ chars "]")
  /\ stringify (preimageArray Sample.fixture) = canonicalSerialize Sample.fixture.
Proof. split; reflexivity. Qed.

End EventSignerProofs.

(** ** [trim] and [split] *)

Module JSProofs.
Import JS Text KeyCodecProofs CodecProofs.

Lemma dropSpaces_head l c r : dropSpaces l = c :: r -> isSpace c = false.
Proof.
  induction l as [|d l IH]; [done|]. cbn [dropSpaces].
  destruct (isSpace d) eqn:Hd; [done|]. by intros [= <- _].
Qed.

Lemma dropSpaces_nonspace c l : isSpace c = false -> dropSpaces (c :: l) = c :: l.
Proof. intros H. cbn [dropSpaces]. by rewrite H. Qed.

Lemma dropSpaces_idem l : dropSpaces (dropSpaces l) = dropSpaces l.
Proof.
  destruct (dropSpaces l) as [|c r] eqn:H; [done|].
  apply dropSpaces_nonspace. by eapply dropSpaces_head.
Qed.

Lemma dropSpaces_split l : exists sp, l = sp ++ dropSpaces l.
Proof.
  induction l as [|c l [sp IH]]; [by exists []|]. cbn [dropSpaces].
  destruct (isSpace c).
  - exists (c :: sp). cbn. by f_equal.
  - by exists [].
Qed.

(** A text with no white space at either end. *)
Lemma tight_trimmed l : tight (rev (dropSpaces (rev (dropSpaces l)))).
Proof.
  unfold tight. rewrite rev_involutive. split; [|apply dropSpaces_idem].
  destruct (dropSpaces_split (rev (dropSpaces l))) as [sp Hsp].
  destruct (rev (dropSpaces (rev (dropSpaces l)))) as [|c t] eqn:Hr; [done|].
  apply dropSpaces_nonspace.
  apply (f_equal (@rev _)) in Hsp. rewrite rev_involutive, rev_app_distr, Hr in Hsp.
  by eapply dropSpaces_head.
Qed.

Lemma trim_tight l : tight l -> trim (str l) = str l.
Proof.
  intros [H1 H2]. unfold trim. by rewrite chars_str, H1, H2, rev_involutive.
Qed.

Lemma tight_trim s : tight (chars (trim s)).
Proof. unfold trim. rewrite chars_str. apply tight_trimmed. Qed.

Lemma trim_idem s : trim (trim s) = trim s.
Proof.
  rewrite <- (str_chars (trim s)) at 1. rewrite trim_tight by apply tight_trim.
  apply str_chars.
Qed.


Lemma dropSpaces_incl l x : x ∈ dropSpaces l -> x ∈ l.
Proof.
  destruct (dropSpaces_split l) as [sp Hsp]. intros Hx.
  rewrite Hsp. apply elem_of_app. by right.
Qed.

Lemma trim_incl s x : x ∈ chars (trim s) -> x ∈ chars s.
Proof.
  unfold trim. rewrite chars_str. intros Hx.
  apply elem_of_rev_iff, dropSpaces_incl, elem_of_rev_iff, dropSpaces_incl in Hx. done.
Qed.

(** The first piece of a split on a one-character separator. *)
Lemma splitGo_first (c0 : ascii) (a b : string) : forall cur,
  c0 ∉ chars a ->
  splitGo (String c0 "") 0 cur (a +:+ String c0 b)
  = str (rev cur ++ chars a) :: splitGo (String c0 "") 0 [] b.
Proof.
  induction a as [|c a IH]; intros cur Hnin.
  - change ("" +:+ String c0 b) with (String c0 b). cbn [splitGo startsWith].
    rewrite Ascii.eqb_refl. cbn [String.length Nat.sub]. by rewrite app_nil_r.
  - change (String c a +:+ String c0 b) with (String c (a +:+ String c0 b)).
    change (chars (String c a)) with (c :: chars a) in *.
    apply not_elem_of_cons in Hnin as [Hne Hnin].
    cbn [splitGo startsWith]. destruct (Ascii.eqb_spec c0 c) as [->|_]; [done|].
    rewrite IH by done. cbn [rev]. by rewrite <- app_assoc.
Qed.

Lemma first_occurrence (c0 : ascii) (s : string) :
  c0 ∉ chars s \/ exists a b, s = a +:+ String c0 b /\ c0 ∉ chars a.
Proof.
  induction s as [|c s IH].
  - left. apply not_elem_of_nil.
  - destruct (Ascii.eqb_spec c0 c) as [->|Hne].
    + right. exists "", s. split; [done|]. apply not_elem_of_nil.
    + destruct IH as [Hnin | (a & b & -> & Hnin)].
      * left. change (chars (String c s)) with (c :: chars s).
        by apply not_elem_of_cons.
      * right. exists (String c a), b. split; [done|].
        change (chars (String c a)) with (c :: chars a). by apply not_elem_of_cons.
Qed.

(** [s.split(c)[0]] is the text before the first [c], the whole text
    when there is none. *)
Lemma split_head (c0 : ascii) (s : string) :
  exists first rest,
    s = first +:+ rest
    /\ (rest = "" \/ exists r, rest = String c0 r)
    /\ (c0 ∉ chars first)
    /\ head (split (String c0 "") s) = Some first.
Proof.
  destruct (first_occurrence c0 s) as [Hnin | (a & b & -> & Hnin)].
  - exists s, "". split; [|split; [by left|split; [done|]]].
    + clear. induction s as [|c s IH]; [done|].
      change (String c s = String c (s +:+ "")). by f_equal.
    + unfold split. rewrite (splitGo_nomatch c0 "") by done.
      cbn [head rev app]. by rewrite str_chars.
  - exists a, (String c0 b). split; [done|]. split; [right; by exists b|].
    split; [done|]. unfold split. rewrite splitGo_first by done.
    cbn [head rev app]. by rewrite str_chars.
Qed.


Lemma length_str l : String.length (str l) = length l.
Proof. induction l as [|c l IH]; cbn; [done | by f_equal]. Qed.

Lemma length_chars s : length (chars s) = String.length s.
Proof. by rewrite <- (str_chars s) at 2; rewrite length_str. Qed.

Lemma dropSpaces_spaces ws l :
  Forall (fun c => isSpace c = true) ws -> dropSpaces (ws ++ l) = dropSpaces l.
Proof.
  induction 1 as [|c ws Hc _ IH]; [done|]. cbn [app dropSpaces]. by rewrite Hc.
Qed.

Lemma dropSpaces_app l k c r :
  dropSpaces l = c :: r -> dropSpaces (l ++ k) = dropSpaces l ++ k.
Proof.
  induction l as [|d l IH]; [done|]. cbn [app dropSpaces].
  destruct (isSpace d); [exact IH | done].
Qed.

Lemma dropSpaces_all_spaces l :
  dropSpaces l = [] -> Forall (fun c => isSpace c = true) l.
Proof.
  induction l as [|d l IH]; [by constructor|]. cbn [dropSpaces].
  destruct (isSpace d) eqn:Hd; [|done]. intros H. constructor; [done | by apply IH].
Qed.

(** White space around a text does not change what [trim] returns. *)
Lemma trim_surrounded (ws ws' : list ascii) (s : string) :
  Forall (fun c => isSpace c = true) ws -> Forall (fun c => isSpace c = true) ws' ->
  trim (str (ws ++ chars s ++ ws')) = trim s.
Proof.
  intros Hws Hws'. unfold trim. rewrite chars_str, dropSpaces_spaces by done.
  f_equal. f_equal.
  destruct (dropSpaces (chars s)) as [|c r] eqn:Hd.
  - apply dropSpaces_all_spaces in Hd.
    rewrite <- (app_nil_r (chars s ++ ws')), dropSpaces_spaces; [done|].
    by apply Forall_app.
  - rewrite (dropSpaces_app _ _ c r), Hd by done.
    rewrite rev_app_distr. apply dropSpaces_spaces.
    by apply Forall_rev.
Qed.

Lemma tight_nonspace l : Forall (fun c => isSpace c = false) l -> tight l.
Proof.
  intros H. split.
  - destruct H; [done | by apply dropSpaces_nonspace].
  - apply Forall_rev in H. destruct H; [done | by apply dropSpaces_nonspace].
Qed.

End JSProofs.

Import JS Text KeyCodec Regroup KeyCodecProofs CodecProofs JSProofs.

Module Bech32Proofs.

Lemma int32_mod z : int32 z mod 2 ^ 32 = z mod 2 ^ 32.
Proof. unfold int32. change (2 ^ 32) with 4294967296. change (2 ^ 31) with 2147483648. divlia. Qed.

Lemma int32_small z : - 2 ^ 31 <= z < 2 ^ 31 -> int32 z = z.
Proof. unfold int32. change (2 ^ 32) with 4294967296. change (2 ^ 31) with 2147483648. divlia. Qed.

Lemma int32_range z : - 2 ^ 31 <= int32 z < 2 ^ 31.
Proof. unfold int32. change (2 ^ 32) with 4294967296. change (2 ^ 31) with 2147483648. divlia. Qed.

Lemma low_testbit x y j :
  x mod 2 ^ 32 = y mod 2 ^ 32 -> 0 <= j < 32 -> Z.testbit x j = Z.testbit y j.
Proof.
  intros H Hj. rewrite <- (Z.mod_pow2_bits_low x 32 j), <- (Z.mod_pow2_bits_low y 32 j) by lia.
  by rewrite H.
Qed.

(** [(acc >> k) & (2^w - 1)] reads bits [k .. k+w-1] of the low word. *)
Lemma band_sar acc N k w :
  acc mod 2 ^ 32 = N mod 2 ^ 32 -> 0 <= k -> 0 < w < 32 -> k + w <= 32 ->
  band (sar acc k) (Z.ones w) = (N / 2 ^ k) mod 2 ^ w.
Proof.
  intros Hacc Hk Hw Hkw. unfold band, sar.
  rewrite (Z.mod_small k 32) by lia.
  assert (- 2 ^ 31 <= Z.shiftr (int32 acc) k < 2 ^ 31) as Hr.
  { rewrite Z.shiftr_div_pow2 by lia. pose proof (int32_range acc) as Hi.
    assert (0 < 2 ^ k) by (apply Z.pow_pos_nonneg; lia).
    split.
    - apply Z.div_le_lower_bound; [lia|]. nia.
    - apply Z.div_lt_upper_bound; [lia|]. nia. }
  rewrite (int32_small (Z.shiftr _ _)) by done.
  assert (0 <= Z.ones w < 2 ^ 31) as Ho.
  { rewrite Z.ones_equiv. assert (2 ^ w <= 2 ^ 32) by (apply Z.pow_le_mono_r; lia).
    assert (0 < 2 ^ w) by (apply Z.pow_pos_nonneg; lia).
    assert (2 ^ w <= 2 ^ 31) by (apply Z.pow_le_mono_r; lia). lia. }
  rewrite (int32_small (Z.ones w)) by lia.
  rewrite Z.land_ones by lia.
  assert (0 <= Z.shiftr (int32 acc) k mod 2 ^ w < 2 ^ 31) as Hm.
  { assert (0 < 2 ^ w) by (apply Z.pow_pos_nonneg; lia).
    pose proof (Z.mod_pos_bound (Z.shiftr (int32 acc) k) (2 ^ w) ltac:(lia)).
    assert (2 ^ w <= 2 ^ 31) by (apply Z.pow_le_mono_r; lia). lia. }
  rewrite int32_small by lia.
  apply Z.bits_inj'. intros j Hj.
  destruct (decide (j < w)) as [Hlt|Hge].
  - rewrite !Z.mod_pow2_bits_low by lia.
    rewrite Z.shiftr_spec by lia. rewrite <- Z.shiftr_div_pow2 by lia.
    rewrite Z.shiftr_spec by lia.
    apply low_testbit; [|lia]. by rewrite int32_mod.
  - rewrite !Z.mod_pow2_bits_high by lia. done.
Qed.

Lemma mod32_eq x y :
  (forall j, 0 <= j < 32 -> Z.testbit x j = Z.testbit y j) -> x mod 2 ^ 32 = y mod 2 ^ 32.
Proof.
  intros H. apply Z.bits_inj'. intros j Hj.
  destruct (decide (j < 32)).
  - rewrite !Z.mod_pow2_bits_low by lia. apply H. lia.
  - by rewrite !Z.mod_pow2_bits_high by lia.
Qed.

Lemma small_testbit v n j : 0 <= v < 2 ^ n -> n <= j -> Z.testbit v j = false.
Proof.
  intros Hv Hj. rewrite <- (Z.mod_small v (2 ^ n)) by lia.
  apply Z.mod_pow2_bits_high. split; [|done].
  destruct (decide (0 <= n)); [done|]. rewrite Z.pow_neg_r in Hv by lia. lia.
Qed.

Lemma shl_mod acc N s :
  acc mod 2 ^ 32 = N mod 2 ^ 32 -> 0 <= s < 32 ->
  shl acc s mod 2 ^ 32 = (N * 2 ^ s) mod 2 ^ 32.
Proof.
  intros Hacc Hs. unfold shl. rewrite (Z.mod_small s 32) by lia.
  rewrite int32_mod. apply mod32_eq. intros j Hj.
  rewrite <- Z.shiftl_mul_pow2 by lia.
  destruct (decide (j < s)).
  - by rewrite !Z.shiftl_spec_low by lia.
  - rewrite !Z.shiftl_spec by lia. apply low_testbit; [|lia]. by rewrite int32_mod.
Qed.

(** [(acc << from) | v] appends the [from] bits of [v] to the low word. *)
Lemma bor_shl acc N from v :
  acc mod 2 ^ 32 = N mod 2 ^ 32 -> 0 <= from < 32 -> 0 <= v < 2 ^ from ->
  bor (shl acc from) v mod 2 ^ 32 = (N * 2 ^ from + v) mod 2 ^ 32.
Proof.
  intros Hacc Hf Hv. unfold bor. rewrite int32_mod.
  assert (Z.land (Z.shiftl N from) v = 0) as Hland.
  { apply Z.bits_inj'. intros j Hj. rewrite Z.land_spec, Z.bits_0.
    destruct (decide (j < from)).
    - by rewrite Z.shiftl_spec_low by lia.
    - rewrite (small_testbit v from j) by lia. apply andb_false_r. }
  rewrite <- Z.shiftl_mul_pow2 by lia.
  rewrite Z.add_nocarry_lxor, Z.lxor_lor by done.
  apply mod32_eq. intros j Hj. rewrite !Z.lor_spec. f_equal.
  - rewrite (low_testbit (int32 (shl acc from)) (N * 2 ^ from) j); [| |done].
    + by rewrite Z.shiftl_mul_pow2 by lia.
    + rewrite int32_mod. by apply shl_mod.
  - apply low_testbit; [|done]. apply int32_mod.
Qed.

Lemma band_low x N w :
  x mod 2 ^ 32 = N mod 2 ^ 32 -> 0 < w < 32 -> band x (Z.ones w) = N mod 2 ^ w.
Proof.
  intros Hx Hw. pose proof (band_sar x N 0 w Hx) as H.
  rewrite Z.pow_0_r, Z.div_1_r in H. rewrite <- H by lia.
  unfold band, sar. change (0 mod 32) with 0. rewrite Z.shiftr_0_r.
  by rewrite (int32_small (int32 x)) by apply int32_range.
Qed.

Lemma digitsValue_snoc w ds d : digitsValue w (ds ++ [d]) = digitsValue w ds * 2 ^ w + d.
Proof. unfold digitsValue. by rewrite fold_left_app. Qed.

Lemma digitsValue_nonneg w ds :
  Forall (fun d => 0 <= d < 2 ^ w) ds -> 0 <= digitsValue w ds.
Proof.
  induction ds as [|d ds IH] using rev_ind; [done|].
  intros [Hds Hd]%Forall_app. rewrite digitsValue_snoc.
  apply Forall_inv in Hd. specialize (IH Hds).
  assert (0 <= 2 ^ w) by (apply Z.pow_nonneg; lia).
  apply Z.add_nonneg_nonneg; [apply Z.mul_nonneg_nonneg|]; lia.
Qed.

(** One digit taken off the pending bits. *)
Lemma take_digit N b to :
  0 <= N -> 0 < to -> to <= b ->
  N / 2 ^ b * 2 ^ to + (N / 2 ^ (b - to)) mod 2 ^ to = N / 2 ^ (b - to).
Proof.
  intros HN Hto Hb.
  replace (2 ^ b) with (2 ^ (b - to) * 2 ^ to)
    by (rewrite <- Z.pow_add_r by lia; f_equal; lia).
  assert (0 < 2 ^ (b - to)) by (apply Z.pow_pos_nonneg; lia).
  assert (0 < 2 ^ to) by (apply Z.pow_pos_nonneg; lia).
  rewrite <- Z.div_div by lia.
  pose proof (Z.div_mod (N / 2 ^ (b - to)) (2 ^ to) ltac:(lia)). lia.
Qed.

Lemma drain_inv fuel to acc N b out :
  acc mod 2 ^ 32 = N mod 2 ^ 32 -> 0 <= N -> 0 < to < 32 ->
  0 <= b <= 32 -> b <= Z.of_nat fuel ->
  digitsValue to out = N / 2 ^ b ->
  Forall (fun d => 0 <= d < 2 ^ to) out ->
  forall b' out', drain fuel to (Z.ones to) acc b out = (b', out') ->
  0 <= b' < to
  /\ digitsValue to out' = N / 2 ^ b'
  /\ Forall (fun d => 0 <= d < 2 ^ to) out'
  /\ to * Z.of_nat (length out') + b' = to * Z.of_nat (length out) + b.
Proof.
  intros Hacc HN Hto. revert b out.
  induction fuel as [|fuel IH]; intros b out Hb Hfuel Hval Hout b' out' Hdrain.
  - cbn in Hdrain. injection Hdrain as <- <-. repeat split; (done || lia).
  - cbn [drain] in Hdrain. destruct (Z.leb_spec to b) as [Hle|Hlt].
    + apply IH in Hdrain; [| lia | lia | |].
      * destruct Hdrain as (H1 & H2 & H3 & H4). repeat split; try (done || lia).
        rewrite H4, length_app. cbn [length]. lia.
      * rewrite digitsValue_snoc, Hval, (band_sar acc N) by (done || lia).
        apply take_digit; lia.
      * apply Forall_app. split; [done|]. apply Forall_singleton.
        rewrite (band_sar acc N) by (done || lia).
        apply Z.mod_pos_bound, Z.pow_pos_nonneg; lia.
    + injection Hdrain as <- <-. repeat split; (done || lia).
Qed.

Lemma regroup_snoc from to mask vs v :
  regroup from to mask (vs ++ [v]) = regroupStep from to mask (regroup from to mask vs) v.
Proof. unfold regroup. by rewrite fold_left_app. Qed.

(** The regrouping loops keep [regroupInv]. *)
Lemma regroup_inv from to vs :
  0 < from < 32 -> 0 < to < 32 -> from + to <= 33 ->
  Forall (fun v => 0 <= v < 2 ^ from) vs ->
  regroupInv from to vs (regroup from to (Z.ones to) vs).
Proof.
  intros Hfrom Hto Hsum. induction vs as [|v vs IH] using rev_ind; intros Hvs.
  - cbn. repeat split; try (done || lia).
  - apply Forall_app in Hvs as [Hvs Hv]. apply Forall_inv in Hv.
    specialize (IH Hvs). rewrite regroup_snoc.
    destruct (regroup from to (Z.ones to) vs) as [[acc bits] out].
    destruct IH as (Hacc & Hbits & Hval & Hout & Hlen).
    unfold regroupStep.
    destruct (drain _ _ _ _ _ _) as [b' out'] eqn:Hdrain.
    pose proof (digitsValue_nonneg from vs Hvs) as HN.
    assert (0 < 2 ^ from) by (apply Z.pow_pos_nonneg; lia).
    apply (drain_inv _ _ _ (digitsValue from vs * 2 ^ from + v)) in Hdrain;
      [| apply bor_shl; (done || lia)
       | apply Z.add_nonneg_nonneg; [apply Z.mul_nonneg_nonneg|]; lia
       | done | lia | lia | | done].
    + destruct Hdrain as (H1 & H2 & H3 & H4).
      unfold regroupInv. rewrite digitsValue_snoc, length_app. cbn [length].
      repeat split; try (done || lia). apply bor_shl; (done || lia).
    + rewrite Hval. rewrite Z.pow_add_r by lia.
      rewrite (Z.mul_comm (2 ^ bits)), <- Z.div_div by (try apply Z.pow_pos_nonneg; lia).
      f_equal. rewrite Z.div_add_l by lia. rewrite (Z.div_small v) by lia. lia.
Qed.

Lemma digitsValue_inj w l l' :
  0 < w ->
  Forall (fun d => 0 <= d < 2 ^ w) l -> Forall (fun d => 0 <= d < 2 ^ w) l' ->
  length l = length l' -> digitsValue w l = digitsValue w l' -> l = l'.
Proof.
  intros Hw. revert l'. induction l as [|d l IH] using rev_ind; intros l' Hl Hl' Hlen Hval.
  - destruct l'; [done|discriminate].
  - destruct l' as [|d' l' _] using rev_ind.
    { rewrite length_app in Hlen. cbn in Hlen. lia. }
    apply Forall_app in Hl as [Hl Hd]. apply Forall_inv in Hd.
    apply Forall_app in Hl' as [Hl' Hd']. apply Forall_inv in Hd'.
    rewrite !length_app in Hlen. cbn in Hlen.
    rewrite !digitsValue_snoc in Hval.
    assert (0 < 2 ^ w) by (apply Z.pow_pos_nonneg; lia).
    assert (digitsValue w l = digitsValue w l') as Heq.
    { apply (f_equal (fun x => x / 2 ^ w)) in Hval.
      rewrite !Z.div_add_l, (Z.div_small d), (Z.div_small d') in Hval by lia. lia. }
    rewrite Heq in Hval. assert (d = d') as -> by lia.
    f_equal. apply IH; (done || lia).
Qed.

(** The values written by [hexToNpub] are the digits, five bits each,
    of the number that the bytes write, followed by [p] zero bits. *)
Lemma fiveBitGroups_spec bs :
  Forall (fun b => 0 <= b < 256) bs ->
  Forall (fun d => 0 <= d < 32) (fiveBitGroups bs)
  /\ exists p, 0 <= p < 5
     /\ digitsValue 5 (fiveBitGroups bs) = digitsValue 8 bs * 2 ^ p
     /\ 5 * Z.of_nat (length (fiveBitGroups bs)) = 8 * Z.of_nat (length bs) + p.
Proof.
  intros Hbs. pose proof (regroup_inv 8 5 bs ltac:(lia) ltac:(lia) ltac:(lia) Hbs) as Hinv.
  pose proof (digitsValue_nonneg 8 bs Hbs) as HN.
  unfold fiveBitGroups. change 31 with (Z.ones 5).
  destruct (regroup 8 5 (Z.ones 5) bs) as [[acc bits] out].
  destruct Hinv as (Hacc & Hbits & Hval & Hout & Hlen).
  destruct (Z.ltb_spec 0 bits) as [Hpos|Hzero].
  - assert (band (shl acc (5 - bits)) (Z.ones 5)
            = digitsValue 8 bs mod 2 ^ bits * 2 ^ (5 - bits)) as Hpad.
    { rewrite (band_low _ (digitsValue 8 bs * 2 ^ (5 - bits))) by first [apply shl_mod; (done || lia) | lia].
      replace (2 ^ 5) with (2 ^ bits * 2 ^ (5 - bits))
        by (rewrite <- Z.pow_add_r by lia; f_equal; lia).
      by rewrite Z.mul_mod_distr_r by (apply Z.pow_nonzero; lia). }
    assert (0 < 2 ^ bits) by (apply Z.pow_pos_nonneg; lia).
    assert (0 < 2 ^ (5 - bits)) by (apply Z.pow_pos_nonneg; lia).
    assert (2 ^ bits * 2 ^ (5 - bits) = 2 ^ 5) as Hpow
      by (rewrite <- Z.pow_add_r by lia; f_equal; lia).
    pose proof (Z.mod_pos_bound (digitsValue 8 bs) (2 ^ bits) ltac:(lia)) as Hm.
    split.
    + apply Forall_app. split; [done|]. apply Forall_singleton. rewrite Hpad.
      change 32 with (2 ^ 5). nia.
    + exists (5 - bits). split; [lia|]. split.
      * rewrite digitsValue_snoc, Hval, Hpad.
        pose proof (Z.div_mod (digitsValue 8 bs) (2 ^ bits) ltac:(lia)) as Hdm.
        generalize dependent (digitsValue 8 bs / 2 ^ bits).
        generalize dependent (digitsValue 8 bs mod 2 ^ bits). intros. nia.
      * rewrite length_app. cbn [length]. lia.
  - assert (bits = 0) as -> by lia. split; [done|].
    exists 0. rewrite Z.div_1_r in Hval. repeat split; lia.
Qed.

(** Decoding what [hexToNpub] wrote gives the bytes back. *)
Lemma regroup_fiveBitGroups bs :
  Forall (fun b => 0 <= b < 256) bs ->
  exists acc bits, regroup 5 8 0xff (fiveBitGroups bs) = (acc, bits, bs).
Proof.
  intros Hbs. destruct (fiveBitGroups_spec bs Hbs) as (Hrange & p & Hp & Hval & Hlen).
  pose proof (regroup_inv 5 8 (fiveBitGroups bs) ltac:(lia) ltac:(lia) ltac:(lia) Hrange) as Hinv.
  change (Z.ones 8) with 255 in Hinv.
  destruct (regroup 5 8 255 (fiveBitGroups bs)) as [[acc bits] out].
  destruct Hinv as (_ & Hbits & Hout & Hor & Hl).
  exists acc, bits. f_equal.
  assert (bits = p) as -> by lia.
  apply (digitsValue_inj 8); [lia | done | done | lia |].
  rewrite Hout, Hval. apply Z.div_mul. apply Z.pow_nonzero; lia.
Qed.

Lemma byte_cases (P : Z -> bool) :
  forallb P (map Z.of_nat (seq 0 256)) = true -> forall b, 0 <= b < 256 -> P b = true.
Proof.
  intros H b Hb. rewrite forallb_forall in H. apply H.
  apply in_map_iff. exists (Z.to_nat b). split; [lia|]. apply in_seq. lia.
Qed.

Lemma parseInt16_hex2 b : 0 <= b < 256 -> parseInt16 (hex2 b) = Some b.
Proof.
  intros Hb.
  pose proof (byte_cases
    (fun b => match parseInt16 (hex2 b) with Some v => v =? b | None => false end)
    ltac:(by vm_compute) b Hb) as H.
  cbv beta in H. destruct (parseInt16 (hex2 b)) as [v|]; [|done].
  f_equal. lia.
Qed.

Lemma hexPairs_hexOfBytes bs :
  Forall (fun b => 0 <= b < 256) bs ->
  map (default 0) (hexPairs (chars (hexOfBytes bs))) = bs.
Proof.
  induction 1 as [|b bs Hb _ IH]; [done|].
  change (hexOfBytes (b :: bs)) with (hex2 b +:+ hexOfBytes bs).
  change (chars (hex2 b +:+ hexOfBytes bs))
    with (hexDigit (b / 16) :: hexDigit (b mod 16) :: chars (hexOfBytes bs)).
  cbn [hexPairs map]. rewrite IH. f_equal.
  change (str [hexDigit (b / 16); hexDigit (b mod 16)]) with (hex2 b).
  by rewrite parseInt16_hex2.
Qed.

Lemma band_31_range x : 0 <= band x 31 < 32.
Proof.
  change 31 with (Z.ones 5). rewrite (band_low x x 5 eq_refl) by lia.
  apply Z.mod_pos_bound. lia.
Qed.

Lemma createChecksum_range hrp data :
  Forall (fun v => 0 <= v < 32) (createChecksum hrp data)
  /\ length (createChecksum hrp data) = 6%nat.
Proof.
  unfold createChecksum. split; [|done].
  apply Forall_map, Forall_forall. intros i _. apply band_31_range.
Qed.

(** [bech32ToHex] on a recognised prefix, one separator character and
    data characters of the alphabet. *)
Lemma bech32ToHex_data (t : KeyType) (sep : ascii) (body chk : list Z) :
  Forall (fun v => 0 <= v < 32) body ->
  Forall (fun v => 0 <= v < 32) chk -> length chk = 6%nat ->
  bech32ToHex (prefixName t +:+ String sep (str (dataChars (body ++ chk))))
  = Some {| type := t; hex := payloadHex body |}.
Proof.
  intros Hb Hc Hlen. unfold bech32ToHex, toLowerCase.
  rewrite chars_app. cbn [chars list_ascii_of_string].
  fold (chars (str (dataChars (body ++ chk)))).
  rewrite chars_str, map_app. cbn [map]. rewrite lower_dataChars.
  2: { apply Forall_app. split; assumption. }
  replace (map lowerChar (chars (prefixName t))) with (chars (prefixName t))
    by (by destruct t; vm_compute).
  destruct t; cbn -[alphabetValues regroup dataChars ALPHABET lowerChar].
  all: unfold sliceFrom; cbn -[alphabetValues regroup dataChars ALPHABET lowerChar].
  all: rewrite !list_ascii_of_string_of_list_ascii; change (drop 0 ?l) with l.
  all: rewrite alphabetValues_dataChars by (apply Forall_app; split; assumption).
  all: rewrite sliceDropLast_app by done.
  all: unfold payloadHex; by destruct (regroup 5 8 255 body) as [[? ?] ?].
Qed.

Lemma hexToNpub_unfold hexText :
  hexToNpub hexText
  = let values := fiveBitGroups (map (default 0) (hexPairs (chars hexText))) in
    prefixName npub +:+ String "1" (str (dataChars (values ++ createChecksum "npub" values))).
Proof.
  unfold hexToNpub, fiveBitGroups.
  by destruct (regroup 8 5 31 (map (default 0) (hexPairs (chars hexText)))) as [[acc bits] values].
Qed.

Lemma payloadHex_fiveBitGroups bs :
  Forall (fun b => 0 <= b < 256) bs -> payloadHex (fiveBitGroups bs) = hexOfBytes bs.
Proof.
  intros Hbs. unfold payloadHex.
  by destruct (regroup_fiveBitGroups bs Hbs) as (acc & bits & ->).
Qed.

(** Round trip: decoding the [npub] text that [hexToNpub] writes for the
    lower-case hexadecimal text of any bytes gives that text back, with
    the type [npub]. *)
Theorem bech32ToHex_hexToNpub (bs : list Z) :
  Forall (fun b => 0 <= b < 256) bs ->
  bech32ToHex (hexToNpub (hexOfBytes bs)) = Some {| type := npub; hex := hexOfBytes bs |}.
Proof.
  intros Hbs. rewrite hexToNpub_unfold, hexPairs_hexOfBytes by done. cbv zeta.
  destruct (createChecksum_range "npub" (fiveBitGroups bs)) as [Hc Hl].
  rewrite bech32ToHex_data by (done || apply fiveBitGroups_spec, Hbs).
  by rewrite payloadHex_fiveBitGroups.
Qed.

Lemma bech32ToHex_hexToNpub_witness :
  Forall (fun b => 0 <= b < 256) [59; 240; 198; 63; 203]
  /\ bech32ToHex (hexToNpub (hexOfBytes [59; 240; 198; 63; 203]))
     = Some {| type := npub; hex := hexOfBytes [59; 240; 198; 63; 203] |}.
Proof.
  assert (Forall (fun b => 0 <= b < 256) [59; 240; 198; 63; 203]) as H
    by (repeat (apply Forall_cons_2; [lia|]); apply Forall_nil_2).
  exact (conj H (bech32ToHex_hexToNpub _ H)).
Defined.

(** *** [normalizePrivateKey] *)

Lemma padStart0_length n s :
  String.length (padStart0 n s) = Nat.max n (String.length s).
Proof.
  unfold padStart0. rewrite length_str, length_app, length_replicate, length_chars. lia.
Qed.

Lemma padStart0_long n s : (n <= String.length s)%nat -> padStart0 n s = s.
Proof.
  intros H. unfold padStart0. replace (n - String.length s)%nat with 0%nat by lia.
  apply str_chars.
Qed.

(** A text of 64 characters with no white space at either end and not
    starting with "nsec" is returned as it is. *)
Lemma normalizePrivateKey_plain h :
  tight (chars h) -> startsWith "nsec" h = false -> String.length h = 64%nat ->
  normalizePrivateKey h = Some h.
Proof.
  intros Ht Hn Hl.
  assert (trim h = h) as Htrim.
  { rewrite <- (str_chars h) at 1. rewrite trim_tight by done. apply str_chars. }
  unfold normalizePrivateKey. rewrite Htrim, Hn. cbn [mbind option_bind].
  rewrite Hl. change (64 <? 64)%nat with false. cbv iota. by rewrite Hl.
Qed.

Lemma drain_range fuel w acc : forall bits out,
  0 < w < 32 ->
  Forall (fun d => 0 <= d < 2 ^ w) out ->
  Forall (fun d => 0 <= d < 2 ^ w) (snd (drain fuel w (Z.ones w) acc bits out)).
Proof.
  induction fuel as [|fuel IH]; intros bits out Hw Hout; [done|].
  cbn [drain]. destruct (w <=? bits); [|done].
  apply IH; [done|]. apply Forall_app. split; [done|]. apply Forall_singleton.
  rewrite (band_low _ (sar acc (bits - w))) by (done || lia).
  apply Z.mod_pos_bound, Z.pow_pos_nonneg; lia.
Qed.

Lemma regroup_range from w vs :
  0 < w < 32 ->
  Forall (fun d => 0 <= d < 2 ^ w) (snd (regroup from w (Z.ones w) vs)).
Proof.
  intros Hw. induction vs as [|v vs IH] using rev_ind; [by constructor|].
  rewrite regroup_snoc. destruct (regroup from w (Z.ones w) vs) as [[acc bits] out].
  cbn [snd] in IH. unfold regroupStep.
  pose proof (drain_range (Z.to_nat (bits + from)) w (bor (shl acc from) v)
                (bits + from) out Hw IH) as Hd.
  by destruct (drain _ _ _ _ _ _).
Qed.

(** A character of the lower-case hexadecimal alphabet. *)
Lemma hex2_chars b :
  0 <= b < 256 -> Forall (fun c => isHexLower c = true) (chars (hex2 b)).
Proof.
  intros Hb.
  pose proof (byte_cases (fun b => forallb isHexLower (chars (hex2 b)))
    ltac:(by vm_compute) b Hb) as H.
  cbv beta in H. rewrite forallb_forall in H. apply Forall_forall.
  intros c Hc. apply H. by apply list_elem_of_In.
Qed.

Lemma hexOfBytes_chars bs :
  Forall (fun b => 0 <= b < 256) bs ->
  Forall (fun c => isHexLower c = true) (chars (hexOfBytes bs)).
Proof.
  induction 1 as [|b bs Hb _ IH]; [by constructor|].
  change (hexOfBytes (b :: bs)) with (hex2 b +:+ hexOfBytes bs).
  rewrite chars_app. apply Forall_app. split; [by apply hex2_chars | done].
Qed.

Lemma hexOfBytes_length bs : String.length (hexOfBytes bs) = (2 * length bs)%nat.
Proof.
  induction bs as [|b bs IH]; [done|].
  change (hexOfBytes (b :: bs)) with (hex2 b +:+ hexOfBytes bs).
  change (String.length (hex2 b +:+ hexOfBytes bs))
    with (S (S (String.length (hexOfBytes bs)))).
  rewrite IH. cbn [length]. lia.
Qed.

Lemma isHexLower_facts c :
  isHexLower c = true -> isSpace c = false /\ Ascii.eqb "n" c = false.
Proof.
  unfold isHexLower, isSpace. intros H. split.
  - destruct (Z.leb_spec 9 (charCode c)), (Z.leb_spec (charCode c) 13),
      (Z.eqb_spec (charCode c) 32); cbn; try done; cbn in H; lia.
  - destruct (Ascii.eqb_spec "n" c) as [<-|]; [by vm_compute in H | done].
Qed.

(** What [bech32ToHex] returns is the lower-case hexadecimal text of
    some bytes. *)
Lemma bech32ToHex_hex s d :
  bech32ToHex s = Some d -> Forall (fun c => isHexLower c = true) (chars (hex d)).
Proof.
  unfold bech32ToHex.
  destruct (if startsWith "nsec" (toLowerCase s) then Some nsec
            else if startsWith "npub" (toLowerCase s) then Some npub else None)
    as [t|]; [|done].
  destruct (alphabetValues _) as [values|]; [|done].
  pose proof (regroup_range 5 8 (sliceDropLast 6 values) ltac:(lia)) as Hr.
  change (Z.ones 8) with 255 in Hr.
  destruct (regroup 5 8 255 (sliceDropLast 6 values)) as [[acc bits] bytes].
  intros [= <-]. cbn [hex snd] in *. by apply hexOfBytes_chars.
Qed.

Lemma padStart0_chars n s (P : ascii -> Prop) :
  P "0"%char -> Forall P (chars s) -> Forall P (chars (padStart0 n s)).
Proof.
  intros H0 Hs. unfold padStart0. rewrite chars_str. apply Forall_app.
  split; [|done]. by apply Forall_replicate.
Qed.

Lemma startsWith_nsec_head c s : Ascii.eqb "n" c = false -> startsWith "nsec" (String c s) = false.
Proof. intros H. cbn [startsWith]. by rewrite H. Qed.

(** Padding a trimmed text keeps it free of white space at both ends. *)
Lemma tight_padStart0 n s : tight (chars s) -> tight (chars (padStart0 n s)).
Proof.
  intros [H1 H2]. unfold padStart0. rewrite chars_str.
  destruct (n - String.length s)%nat as [|k]; [done|].
  split; [by apply dropSpaces_nonspace|].
  rewrite rev_app_distr.
  destruct (rev (chars s)) as [|c t] eqn:Hrev.
  - cbn [app].
    assert (Forall (fun c => isSpace c = false) (rev (replicate (S k) "0"%char))) as Hall
      by (by apply Forall_rev, Forall_replicate).
    destruct Hall; [done | by apply dropSpaces_nonspace].
  - cbn [app]. apply dropSpaces_nonspace. by eapply dropSpaces_head.
Qed.

(** Every key that [normalizePrivateKey] returns for an ASCII text has
    64 characters and is returned unchanged when normalized again. *)
Theorem normalizePrivateKey_fixed_point (privateKey h : string) :
  isAscii privateKey ->
  normalizePrivateKey privateKey = Some h ->
  String.length h = 64%nat /\ normalizePrivateKey h = Some h.
Proof.
  intros _. unfold normalizePrivateKey at 1.
  destruct (startsWith "nsec" (trim privateKey)) eqn:Hnsec.
  - destruct (bech32ToHex (trim privateKey)) as [d|] eqn:Hd; [|done].
    destruct (type d); [|done]. cbn [mbind option_bind].
    pose proof (bech32ToHex_hex _ _ Hd) as Hhex.
    set (h' := if (String.length (hex d) <? 64)%nat then padStart0 64 (hex d) else hex d).
    assert (Forall (fun c => isHexLower c = true) (chars h')) as Hall.
    { subst h'. destruct (_ <? _)%nat; [by apply padStart0_chars | done]. }
    destruct (Nat.eqb_spec (String.length h') 64) as [Hlen|]; [|done].
    intros [= <-]. split; [done|]. apply normalizePrivateKey_plain; [| |done].
    + apply tight_nonspace. eapply Forall_impl; [exact Hall|].
      intros c Hc. by apply isHexLower_facts.
    + destruct h' as [|c r]; [done|]. apply startsWith_nsec_head.
      apply Forall_inv in Hall. by apply isHexLower_facts.
  - cbn [mbind option_bind].
    destruct (Nat.ltb_spec (String.length (trim privateKey)) 64) as [Hlt|Hge].
    + destruct (Nat.eqb_spec (String.length (padStart0 64 (trim privateKey))) 64)
        as [Hlen|]; [|done].
      intros [= <-]. split; [done|]. apply normalizePrivateKey_plain; [| |done].
      * apply tight_padStart0, tight_trim.
      * unfold padStart0.
        destruct (64 - String.length (trim privateKey))%nat as [|k] eqn:Hk; [lia|].
        done.
    + destruct (Nat.eqb_spec (String.length (trim privateKey)) 64) as [Hlen|]; [|done].
      intros [= <-]. split; [done|]. apply normalizePrivateKey_plain; [|done|done].
      apply tight_trim.
Qed.

Lemma normalizePrivateKey_fixed_point_witness :
  String.length (padStart0 64 "1f") = 64%nat
  /\ normalizePrivateKey (padStart0 64 "1f") = Some (padStart0 64 "1f").
Proof.
  apply (normalizePrivateKey_fixed_point " 1f  ").
  - repeat (apply Forall_cons_2; [reflexivity|]). apply Forall_nil_2.
  - evaluated.
Defined.

Lemma alphabet_nonspace (v : Z) : 0 <= v < 32 -> isSpace (charAt ALPHABET v) = false.
Proof.
  intros Hv. rewrite <- (Z2Nat.id v) by lia.
  assert (Z.to_nat v < 32)%nat as Hlt by lia.
  generalize dependent (Z.to_nat v). clear. intros i Hlt.
  do 32 (destruct i as [|i]; [by vm_compute|]). lia.
Qed.

Lemma bech32_text_tight (t : KeyType) (values : list Z) :
  Forall (fun v => 0 <= v < 32) values ->
  tight (chars (prefixName t +:+ String "1" (str (dataChars values)))).
Proof.
  intros Hv. apply tight_nonspace. rewrite chars_app. apply Forall_app. split.
  - destruct t; repeat (apply Forall_cons_2; [by vm_compute|]); apply Forall_nil_2.
  - change (chars (String "1" (str (dataChars values))))
      with ("1"%char :: chars (str (dataChars values))).
    apply Forall_cons_2; [by vm_compute|]. rewrite chars_str.
    unfold dataChars. apply Forall_map. eapply Forall_impl; [exact Hv|].
    intros v Hr. by apply alphabet_nonspace.
Qed.

(** An [nsec] text is decoded whatever its six checksum characters are
    and whatever white space surrounds it: for at most 32 bytes written
    as 5-bit groups after "nsec1", the key returned is their hexadecimal
    text, padded with zeros on the left to 64 characters. *)
Theorem normalizePrivateKey_nsec (ws ws' : list ascii) (bs chk : list Z) :
  Forall (fun c => isSpace c = true) ws -> Forall (fun c => isSpace c = true) ws' ->
  Forall (fun b => 0 <= b < 256) bs -> (length bs <= 32)%nat ->
  Forall (fun v => 0 <= v < 32) chk -> length chk = 6%nat ->
  normalizePrivateKey
    (str (ws ++ chars ("nsec" +:+ String "1" (str (dataChars (fiveBitGroups bs ++ chk))))
             ++ ws'))
  = Some (padStart0 64 (hexOfBytes bs)).
Proof.
  intros Hws Hws' Hbs Hlen Hchk Hl.
  pose proof (proj1 (fiveBitGroups_spec bs Hbs)) as Hrange.
  set (text := "nsec" +:+ String "1" (str (dataChars (fiveBitGroups bs ++ chk)))).
  assert (trim text = text) as Htrim.
  { rewrite <- (str_chars text) at 1. rewrite trim_tight; [apply str_chars|].
    apply (bech32_text_tight nsec). by apply Forall_app. }
  unfold normalizePrivateKey. rewrite trim_surrounded, Htrim by done.
  assert (startsWith "nsec" text = true) as -> by apply startsWith_app.
  assert (bech32ToHex text = Some {| type := nsec; hex := hexOfBytes bs |}) as ->.
  { subst text. rewrite (bech32ToHex_data nsec) by done.
    by rewrite payloadHex_fiveBitGroups. }
  cbn [type hex mbind option_bind].
  pose proof (hexOfBytes_length bs) as Hhl.
  destruct (Nat.ltb_spec (String.length (hexOfBytes bs)) 64) as [Hlt|Hge].
  - rewrite padStart0_length.
    by replace (Nat.max 64 (String.length (hexOfBytes bs))) with 64%nat by lia.
  - rewrite padStart0_long by done.
    by replace (String.length (hexOfBytes bs)) with 64%nat by lia.
Qed.

Lemma normalizePrivateKey_nsec_witness :
  normalizePrivateKey
    (str ([" "%char] ++ chars ("nsec" +:+ String "1"
             (str (dataChars (fiveBitGroups [103; 221; 66] ++ [0; 1; 2; 3; 4; 5]))))
             ++ ["010"%char]))
  = Some (padStart0 64 (hexOfBytes [103; 221; 66])).
Proof.
  apply (normalizePrivateKey_nsec [" "%char] ["010"%char] [103; 221; 66] [0; 1; 2; 3; 4; 5]);
    try (repeat (apply Forall_cons_2; [first [reflexivity | lia] |]); apply Forall_nil_2).
  - cbn. lia.
  - reflexivity.
Defined.

(** The shape of what [hexToNpub] writes for [n] bytes: "npub1", then
    the 5-bit groups of the bytes and six checksum characters, all of
    the bech32 alphabet; a 32-byte key gives 63 characters in all. *)
Theorem hexToNpub_shape (bs : list Z) :
  Forall (fun b => 0 <= b < 256) bs ->
  exists data,
    hexToNpub (hexOfBytes bs) = "npub1" +:+ data
    /\ Z.of_nat (String.length data) = (8 * Z.of_nat (length bs) + 4) / 5 + 6
    /\ Forall (fun c => c ∈ chars ALPHABET) (chars data).
Proof.
  intros Hbs. rewrite hexToNpub_unfold, hexPairs_hexOfBytes by done. cbv zeta.
  destruct (fiveBitGroups_spec bs Hbs) as (Hrange & p & Hp & _ & Hlen).
  destruct (createChecksum_range "npub" (fiveBitGroups bs)) as [Hc Hl].
  exists (str (dataChars (fiveBitGroups bs ++ createChecksum "npub" (fiveBitGroups bs)))).
  split; [done|]. split.
  - unfold dataChars. rewrite length_str, length_map, length_app, Hl. divlia.
  - rewrite chars_str. unfold dataChars. apply Forall_map.
    eapply Forall_impl; [apply Forall_app; split; [exact Hrange | exact Hc]|].
    intros v Hv. cbn beta in *. apply list_elem_of_In. unfold charAt. apply nth_In.
    change (length (chars ALPHABET)) with 32%nat. lia.
Qed.

Lemma hexToNpub_shape_witness :
  exists data,
    hexToNpub (hexOfBytes (replicate 32 171)) = "npub1" +:+ data
    /\ Z.of_nat (String.length data) = (8 * Z.of_nat (length (replicate 32 171)) + 4) / 5 + 6
    /\ Forall (fun c => c ∈ chars ALPHABET) (chars data).
Proof.
  apply (hexToNpub_shape (replicate 32 171)). apply Forall_replicate. lia.
Defined.
End Bech32Proofs.

(** ** The rate limiter and the origin check *)

Module SecurityProofs.
Import JS Text Security JSProofs.

Lemma startCleanup_store st : rateLimitStore (startCleanup st) = rateLimitStore st.
Proof. unfold startCleanup. by destruct (cleanupTimer st). Qed.

Lemma checkRateLimit_in_window now identifier config st k r :
  rateLimitStore st !! identifier = Some {| count := k; resetTime := r |} ->
  now <= r ->
  checkRateLimit now identifier config st
  = (nthResult config r (k + 1) now,
     setEntry identifier {| count := k + 1; resetTime := r |} (startCleanup st)).
Proof.
  intros Hentry Hnow. unfold checkRateLimit. rewrite startCleanup_store, Hentry.
  cbn [resetTime count]. destruct (Z.ltb_spec r now) as [?|_]; [lia|].
  unfold nthResult. rewrite Z.leb_antisym.
  by destruct (limit config <? k + 1).
Qed.

Lemma checkRateLimit_fresh now identifier config st :
  (rateLimitStore st !! identifier = None
   \/ exists entry, rateLimitStore st !! identifier = Some entry /\ resetTime entry < now) ->
  checkRateLimit now identifier config st
  = ({| allowed := true; remaining := limit config - 1;
        resetIn := ceilSeconds (windowMs config) |},
     setEntry identifier {| count := 1; resetTime := now + windowMs config |}
       (startCleanup st)).
Proof.
  intros Hentry. unfold checkRateLimit. rewrite startCleanup_store.
  destruct Hentry as [-> | (entry & -> & Hlt)]; [done|].
  by destruct (Z.ltb_spec (resetTime entry) now) as [_|?]; [|lia].
Qed.

Lemma checkEach_in_window times : forall identifier config st k r,
  rateLimitStore st !! identifier = Some {| count := k; resetTime := r |} ->
  Forall (fun now => now <= r) times ->
  fst (checkEach times identifier config st)
  = imap (fun j now => nthResult config r (k + 1 + Z.of_nat j) now) times.
Proof.
  induction times as [|now times IH]; intros identifier config st k r Hentry Hall; [done|].
  apply Forall_cons in Hall as [Hnow Hall].
  cbn [checkEach]. rewrite (checkRateLimit_in_window _ _ _ _ k r) by done.
  specialize (IH identifier config
    (setEntry identifier {| count := k + 1; resetTime := r |} (startCleanup st))
    (k + 1) r).
  destruct (checkEach times _ _ _) as [rs st'].
  cbn [fst] in *. rewrite IH; [| by cbn; rewrite lookup_insert_eq | done].
  cbn [imap]. f_equal; [by rewrite Z.add_0_r|].
  apply imap_ext. intros j now' _. cbn. f_equal. lia.
Qed.

(** The quota of a window.  When an identifier has no entry, or an
    expired one, the call at [t0] opens a window that ends at
    [t0 + windowMs] and is allowed whatever the limit is; of the calls
    that follow up to the end of the window, call number [n] (the first
    being number 1) is allowed exactly when [n <= limit], and reports
    [limit - n] remaining requests, or 0 when it is refused. *)
Theorem checkRateLimit_quota (identifier : string) (config : RateLimitConfig)
    (st : State) (t0 : Z) (times : list Z) :
  (rateLimitStore st !! identifier = None
   \/ exists entry, rateLimitStore st !! identifier = Some entry /\ resetTime entry < t0) ->
  Forall (fun now => now <= t0 + windowMs config) times ->
  fst (checkEach (t0 :: times) identifier config st)
  = {| allowed := true; remaining := limit config - 1;
       resetIn := ceilSeconds (windowMs config) |}
    :: imap (fun j now =>
               {| allowed := Z.of_nat j + 2 <=? limit config;
                  remaining := if Z.of_nat j + 2 <=? limit config
                               then limit config - (Z.of_nat j + 2) else 0;
                  resetIn := ceilSeconds (t0 + windowMs config - now) |}) times.
Proof.
  intros Hentry Hall. cbn [checkEach]. rewrite checkRateLimit_fresh by done.
  pose proof (checkEach_in_window times identifier config
    (setEntry identifier {| count := 1; resetTime := t0 + windowMs config |}
       (startCleanup st)) 1 (t0 + windowMs config)) as Hrest.
  destruct (checkEach times _ _ _) as [rs st'].
  cbn [fst] in *. rewrite Hrest; [| by cbn; rewrite lookup_insert_eq | done].
  f_equal. apply imap_ext. intros j now _. unfold nthResult.
  by replace (1 + 1 + Z.of_nat j) with (Z.of_nat j + 2) by lia.
Qed.

Lemma checkRateLimit_quota_witness :
  fst (checkEach [1000; 1500; 2000; 61000] "203.0.113.7"
         {| limit := 2; windowMs := 60000 |}
         {| rateLimitStore := ∅; cleanupTimer := false |})
  = {| allowed := true; remaining := 1; resetIn := 60 |}
    :: imap (fun j now =>
               {| allowed := Z.of_nat j + 2 <=? 2;
                  remaining := if Z.of_nat j + 2 <=? 2 then 2 - (Z.of_nat j + 2) else 0;
                  resetIn := ceilSeconds (1000 + 60000 - now) |}) [1500; 2000; 61000].
Proof.
  apply (checkRateLimit_quota "203.0.113.7" {| limit := 2; windowMs := 60000 |}
           {| rateLimitStore := ∅; cleanupTimer := false |} 1000 [1500; 2000; 61000]).
  - left. reflexivity.
  - repeat (apply Forall_cons_2; [cbn; lia|]). apply Forall_nil_2.
Defined.


Lemma checkRateLimit_liveEntry now identifier config st st' :
  liveEntry now identifier st = liveEntry now identifier st' ->
  fst (checkRateLimit now identifier config st)
  = fst (checkRateLimit now identifier config st').
Proof.
  unfold liveEntry, checkRateLimit. rewrite !startCleanup_store.
  destruct (rateLimitStore st !! identifier) as [e|],
           (rateLimitStore st' !! identifier) as [e'|]; cbn.
  - destruct (resetTime e <? now), (resetTime e' <? now); try done.
    intros [= ->]. by destruct (limit config <? count e' + 1).
  - by destruct (resetTime e <? now).
  - by destruct (resetTime e' <? now).
  - done.
Qed.

Lemma checkRateLimit_other now now' identifier identifier' config st :
  identifier' <> identifier ->
  liveEntry now identifier (snd (checkRateLimit now' identifier' config st))
  = liveEntry now identifier st.
Proof.
  intros Hne. unfold liveEntry.
  assert (rateLimitStore (snd (checkRateLimit now' identifier' config st)) !! identifier
          = rateLimitStore st !! identifier) as ->; [|done].
  unfold checkRateLimit. rewrite startCleanup_store.
  destruct (rateLimitStore st !! identifier') as [e|]; cbn.
  - destruct (resetTime e <? now'); [|destruct (limit config <? count e + 1)]; cbn.
    all: by rewrite lookup_insert_ne, startCleanup_store.
  - by rewrite lookup_insert_ne, startCleanup_store.
Qed.

Lemma cleanupTick_liveEntry now now' identifier st :
  now' <= now ->
  liveEntry now identifier (cleanupTick now' st) = liveEntry now identifier st.
Proof.
  intros Hle. unfold liveEntry, cleanupTick. cbn [rateLimitStore].
  rewrite map_lookup_filter.
  destruct (rateLimitStore st !! identifier) as [e|]; [|done]. cbn.
  destruct (decide (resetTime e < now')) as [Hlt|Hge].
  - rewrite option_guard_False by (cbn; lia). cbn.
    by destruct (Z.ltb_spec (resetTime e) now); [|lia].
  - by rewrite option_guard_True by (cbn; lia).
Qed.

(** The answer given to an identifier depends on its own entry only:
    calls made for other identifiers, and cleanups that ran no later than
    the call, leave it as it would have been without them. *)
Theorem checkRateLimit_undisturbed (now : Z) (identifier : string)
    (config : RateLimitConfig) (st : State) (es : list Event) :
  Forall (elsewhere identifier now) es ->
  fst (checkRateLimit now identifier config (run st es))
  = fst (checkRateLimit now identifier config st).
Proof.
  intros Hall. apply checkRateLimit_liveEntry. revert st.
  induction Hall as [|e es He _ IH]; intros st; [done|].
  cbn [run fold_left]. fold (run (step st e) es). rewrite IH.
  destruct e as [now' identifier' config'|now']; cbn in *.
  - by apply checkRateLimit_other.
  - destruct (cleanupTimer st); [|done]. by apply cleanupTick_liveEntry.
Qed.

Lemma checkRateLimit_undisturbed_witness :
  fst (checkRateLimit 70000 "203.0.113.7" RATE_LIMITS_newsletter
         (run {| rateLimitStore := {[ "203.0.113.7" := {| count := 3; resetTime := 90000 |} ]};
                 cleanupTimer := true |}
            [Call 65000 "198.51.100.2" RATE_LIMITS_newsletter; CleanupTick 69000]))
  = fst (checkRateLimit 70000 "203.0.113.7" RATE_LIMITS_newsletter
           {| rateLimitStore := {[ "203.0.113.7" := {| count := 3; resetTime := 90000 |} ]};
              cleanupTimer := true |}).
Proof.
  apply checkRateLimit_undisturbed.
  apply Forall_cons_2; [cbn; discriminate|].
  apply Forall_cons_2; [cbn; lia|]. apply Forall_nil_2.
Defined.


Lemma someEqual_spec o l : someEqual o l = true <-> o ∈ l.
Proof.
  unfold someEqual. rewrite existsb_exists. split.
  - intros (x & Hin & ->%String.eqb_eq). by apply list_elem_of_In.
  - intros Hin. exists o. split; [by apply list_elem_of_In | apply String.eqb_refl].
Qed.

(** What production accepts.  A request accepted outside development
    carries a non-empty Origin that is one of the two allowed origins, or
    no (or an empty) Origin and a Referer whose protocol and host make up
    one of them; the same request is accepted in development. *)
Theorem validateOrigin_production (parseURL : string -> option URL) (request : Request) :
  validateOrigin parseURL false request = true ->
  validateOrigin parseURL true request = true
  /\ ((exists o, nonEmpty (origin request) = Some o /\ o ∈ ALLOWED_ORIGINS)
      \/ (nonEmpty (origin request) = None
          /\ exists r u, nonEmpty (referer request) = Some r /\ parseURL r = Some u
               /\ protocol u +:+ "//" +:+ host u ∈ ALLOWED_ORIGINS)).
Proof.
  unfold validateOrigin.
  assert (forall o, someEqual o ALLOWED_ORIGINS = true ->
            someEqual o (ALLOWED_ORIGINS ++ DEV_ORIGINS) = true) as Hmono.
  { intros o. rewrite !someEqual_spec, elem_of_app. tauto. }
  destruct (nonEmpty (origin request)) as [o|].
  - intros Ho. split; [by apply Hmono|]. left. exists o. split; [done|]. by apply someEqual_spec.
  - destruct (nonEmpty (referer request)) as [r|]; [|done].
    destruct (parseURL r) as [u|] eqn:Hu; [|done].
    intros Hr. split; [by apply Hmono|]. right. split; [done|].
    exists r, u. split; [done|]. split; [done|]. by apply someEqual_spec.
Qed.

Lemma validateOrigin_production_witness :
  validateOrigin (fun _ => None) true
    {| origin := Some "https://www.nostr-wot.com"; referer := Some "https://elsewhere.example/";
       xForwardedFor := None; xRealIp := None |} = true.
Proof.
  exact (proj1 (validateOrigin_production (fun _ => None)
    {| origin := Some "https://www.nostr-wot.com"; referer := Some "https://elsewhere.example/";
       xForwardedFor := None; xRealIp := None |} eq_refl)).
Defined.

(** The client identifier of a proxied request is the text of an ASCII
    X-Forwarded-For before its first comma, trimmed: it holds no comma
    and no white space at either end, and X-Real-IP is not read. *)
Theorem getClientIdentifier_first_hop (request : Request) (forwardedFor : string) :
  isAscii forwardedFor ->
  nonEmpty (xForwardedFor request) = Some forwardedFor ->
  exists first rest,
    forwardedFor = first +:+ rest
    /\ (rest = "" \/ exists r, rest = String "," r)
    /\ (","%char ∉ chars first)
    /\ getClientIdentifier request = trim first
    /\ (","%char ∉ chars (getClientIdentifier request))
    /\ tight (chars (getClientIdentifier request)).
Proof.
  intros _ Hf. unfold getClientIdentifier. rewrite Hf.
  destruct (split_head "," forwardedFor) as (first & rest & Heq & Hrest & Hnin & Hhead).
  exists first, rest. rewrite Hhead. cbn [default].
  repeat split; try done.
  - intros Hin. by apply Hnin, trim_incl.
  - apply tight_trim.
  - apply tight_trim.
Qed.

Lemma getClientIdentifier_first_hop_witness :
  exists first rest,
    " 203.0.113.7 , 10.0.0.1" = first +:+ rest
    /\ (rest = "" \/ exists r, rest = String "," r)
    /\ (","%char ∉ chars first)
    /\ getClientIdentifier
         {| origin := None; referer := None;
            xForwardedFor := Some " 203.0.113.7 , 10.0.0.1"; xRealIp := Some "192.0.2.1" |}
       = trim first
    /\ (","%char ∉ chars (getClientIdentifier
         {| origin := None; referer := None;
            xForwardedFor := Some " 203.0.113.7 , 10.0.0.1"; xRealIp := Some "192.0.2.1" |}))
    /\ tight (chars (getClientIdentifier
         {| origin := None; referer := None;
            xForwardedFor := Some " 203.0.113.7 , 10.0.0.1"; xRealIp := Some "192.0.2.1" |})).
Proof.
  exact (getClientIdentifier_first_hop
    {| origin := None; referer := None;
       xForwardedFor := Some " 203.0.113.7 , 10.0.0.1"; xRealIp := Some "192.0.2.1" |}
    " 203.0.113.7 , 10.0.0.1"
    ltac:(repeat (apply Forall_cons_2; [reflexivity|]); apply Forall_nil_2) eq_refl).
Defined.

End SecurityProofs.

(** ** The legacy envelope *)

Module EnvelopeProofs.
Import JS Json Codec KeyCodec CipherLayer.
Import KeyCodecProofs CodecProofs CipherLayerProofs.

Lemma btoa_alphabet (s : string) (c : ascii) : b64Tolerated c = false -> c ∉ chars (btoa s).
Proof.
  intros Hc Hin.
  pose proof (proj1 (Forall_forall _ _) (atob_tolerated _ _ (atob_btoa s)) _ Hin) as Htol.
  congruence.
Qed.

Lemma includes_absent (c : ascii) (rest s : string) :
  c ∉ chars s -> includes (String c rest) s = false.
Proof.
  intros Hnin. destruct (includes (String c rest) s) eqn:Hinc; [|done].
  exfalso. apply Hnin. eapply includes_elem; [exact Hinc|]. apply list_elem_of_here.
Qed.

Section WithPlatform.
Context `{P : Platform}.

(** The checks of [nip04DecryptOnly] on an envelope made of two base64
    texts around any of the three separators, in the order of the source:
    WebCrypto, then the length of the IV, then the ciphertext, and only
    then the key, the shared secret and the cipher. *)
Theorem nip04DecryptOnly_envelope (privateKey senderPubkey sep : string)
    (encrypted iv : bytes) :
  sep ∈ ["?iv="; "&iv="; "_iv="] ->
  nip04DecryptOnly privateKey senderPubkey
    (btoa (binaryOfBytes encrypted) +:+ sep +:+ btoa (binaryOfBytes iv))
  = if negb subtleAvailable then Err WebCryptoUnavailable
    else if negb (length iv =? 16)%nat then Err InvalidIVLength
    else if (length encrypted =? 0)%nat then Err EmptyCiphertext
    else orThrown (
      sharedX ← sharedX privateKey senderPubkey;
      decrypted ← aes_cbc_decrypt sharedX iv encrypted;
      Some (TextDecoder_decode decrypted)).
Proof.
  intros Hsep. unfold nip04DecryptOnly. destruct subtleAvailable; [|done]. cbn [negb].
  set (a := btoa (binaryOfBytes encrypted)). set (b := btoa (binaryOfBytes iv)).
  assert (forall c d, b64Tolerated c = false -> c <> d -> c <> "i"%char -> c <> "v"%char ->
            c <> "="%char -> c ∉ chars (a +:+ String d "iv=" +:+ b)) as Hother.
  { intros c d Hc Hd Hi Hv He. rewrite !chars_app. rewrite !not_elem_of_app.
    split; [by apply btoa_alphabet|]. split; [|by apply btoa_alphabet].
    change (chars (String d "iv=")) with [d; "i"; "v"; "="]%char.
    rewrite !not_elem_of_cons. repeat split; try done. apply not_elem_of_nil. }
  assert (forall d, separatorParts (String d "iv=") (a +:+ String d "iv=" +:+ b)
                    = Some (encrypted, iv) \/ b64Tolerated d = true) as Hparts.
  { intros d. destruct (b64Tolerated d) eqn:Hd; [by right|]. left.
    unfold separatorParts, splitParts.
    rewrite (split_once d "iv=") by (by apply btoa_alphabet).
    change (default "undefined" ([?x; ?y] !! 0%nat)) with x.
    change (default "undefined" ([?x; ?y] !! 1%nat)) with y.
    unfold a, b. by rewrite !decode_btoa. }
  apply elem_of_cons in Hsep as [-> | Hsep].
  { rewrite includes_app. destruct (Hparts "?"%char) as [-> | ?]; [|done].
    reflexivity. }
  apply elem_of_cons in Hsep as [-> | Hsep].
  { rewrite (includes_absent "?"%char) by (by apply Hother).
    rewrite includes_app. destruct (Hparts "&"%char) as [-> | ?]; [|done].
    reflexivity. }
  apply list_elem_of_singleton in Hsep as ->.
  rewrite (includes_absent "?"%char) by (by apply Hother).
  rewrite (includes_absent "&"%char) by (by apply Hother).
  rewrite includes_app. destruct (Hparts "_"%char) as [-> | ?]; [|done].
  reflexivity.
Qed.

(** Whatever [nip04Encrypt] returns is read by [nip04Decrypt] as a
    legacy envelope: it is never taken for a NIP-44 payload, whatever its
    bytes are, and the result is that of [nip04DecryptOnly]. *)
Theorem nip04Encrypt_output_is_legacy (privateKey recipientPubkey message : string)
    (iv : bytes) (ciphertext : string) (privateKey' senderPubkey : string) :
  nip04Encrypt privateKey recipientPubkey message iv = Some ciphertext ->
  classify ciphertext = Legacy
  /\ nip04Decrypt privateKey' senderPubkey ciphertext
     = ([LogTryingNip04; LogNip04Separator],
        nip04DecryptOnly privateKey' senderPubkey ciphertext).
Proof.
  unfold nip04Encrypt.
  destruct (sharedX privateKey recipientPubkey) as [key|]; [|done]. cbn [mbind option_bind].
  destruct (if subtleAvailable then _ else None) as [encrypted|]; [|done].
  cbn [mbind option_bind]. intros [= <-].
  set (ct := btoa (binaryOfBytes encrypted) +:+ "?iv=" +:+ btoa (binaryOfBytes iv)).
  assert (includes "?iv=" ct = true) as Hinc by apply includes_app.
  assert (atob ct = None) as Hat by apply atob_with_separator.
  split.
  - unfold classify, isVersioned, decodeBase64, hasSeparator. rewrite Hat, Hinc. done.
  - unfold nip04Decrypt, decodeBase64. rewrite Hat.
    cbn [fmap option_fmap option_map]. unfold legacyDispatch, hasSeparator.
    by rewrite Hinc.
Qed.

End WithPlatform.

Import Sample.

Lemma nip04DecryptOnly_envelope_witness :
  nip04DecryptOnly (P := samplePlatform) clientKey signerPub
    (btoa (binaryOfBytes [Byte.x68; Byte.x69; Byte.x01]) +:+ "&iv="
       +:+ btoa (binaryOfBytes (replicate 12 Byte.x07)))
  = Err InvalidIVLength.
Proof.
  exact (nip04DecryptOnly_envelope (P := samplePlatform) clientKey signerPub "&iv="
           [Byte.x68; Byte.x69; Byte.x01] (replicate 12 Byte.x07)
           ltac:(apply list_elem_of_further, list_elem_of_here)).
Defined.

Lemma nip04Encrypt_output_is_legacy_witness :
  classify (P := samplePlatform)
    (btoa (binaryOfBytes (TextEncoder_encode "ping" ++ [Byte.x01]))
       +:+ "?iv=" +:+ btoa (binaryOfBytes sampleIV)) = Legacy
  /\ nip04Decrypt (P := samplePlatform) clientKey signerPub
       (btoa (binaryOfBytes (TextEncoder_encode "ping" ++ [Byte.x01]))
          +:+ "?iv=" +:+ btoa (binaryOfBytes sampleIV))
     = ([LogTryingNip04; LogNip04Separator],
        nip04DecryptOnly (P := samplePlatform) clientKey signerPub
          (btoa (binaryOfBytes (TextEncoder_encode "ping" ++ [Byte.x01]))
             +:+ "?iv=" +:+ btoa (binaryOfBytes sampleIV))).
Proof.
  apply (nip04Encrypt_output_is_legacy (P := samplePlatform) signerKey clientPub "ping"
           sampleIV _ clientKey signerPub).
  reflexivity.
Defined.

End EnvelopeProofs.

(** ** Pairing with a remote signer *)

Module PairingProofs.
Import JS Json Codec CipherLayer Pairing.
Import KeyCodecProofs CodecProofs JSProofs.

Lemma connectedKeys_app l k : connectedKeys (l ++ k) = connectedKeys l ++ connectedKeys k.
Proof. unfold connectedKeys. apply omap_app. Qed.

Lemma timeouts_app l k : timeouts (l ++ k) = (timeouts l + timeouts k)%nat.
Proof. unfold timeouts. by rewrite filter_app, length_app. Qed.

Lemma timeouts_zero l c : timeouts l = 0%nat -> c ∈ l -> c <> OnTimeout.
Proof.
  unfold timeouts. intros Hz Hin ->.
  assert (OnTimeout ∈ filter (fun c => isTimeout c = true) l) as H
    by (by apply list_elem_of_filter).
  destruct (filter _ l); [by apply elem_of_nil in H | done].
Qed.

(** Where [OnTimeout] stands in a list of calls extended by one call. *)
Lemma timeout_position (l : list Callback) (c : Callback) before after :
  l ++ [c] = before ++ OnTimeout :: after ->
  (after = [] /\ before = l /\ c = OnTimeout)
  \/ (exists after', after = after' ++ [c] /\ l = before ++ OnTimeout :: after').
Proof.
  intros H. destruct after as [|x after _] using rev_ind.
  - left. apply app_inj_tail in H as [-> ->]. done.
  - right. exists after. rewrite app_comm_cons, app_assoc in H.
    apply app_inj_tail in H as [-> ->]. done.
Qed.

(** The seven parts of the invariant, one goal each. *)
Ltac parts := split; [|split; [|split; [|split; [|split; [|split]]]]].

Section WithPlatform.
Context `{P : Platform}.
Variable session : NostrConnectSession.
Variable storage : gmap string string.

Local Abbreviation step := (step session).
Local Abbreviation run := (run session).
Local Abbreviation Inv := (pairingInv session storage).

Lemma start_inv constructed : Inv (start constructed storage).
Proof.
  destruct constructed; unfold pairingInv, timeouts; cbn.
  - repeat split; try done; try lia. intros [|? ?] ? ?; discriminate.
  - repeat split; try done; try (case_decide; cbn; lia).
    intros [|? [|? ?]] after H; cbn in H; discriminate.
Qed.

(** A step that makes no call and leaves the session, the storage and
    the pairing flag as they are. *)
Lemma quiet_inv (st st' : PairState) :
  Inv st ->
  calls st' = calls st -> isConnected st' = isConnected st ->
  sessionRemotePubkey st' = sessionRemotePubkey st ->
  sessionStorage st' = sessionStorage st ->
  (timeoutId st' = true -> timeoutId st = true \/
     (opened st = false /\ opened st' = true /\ connectedKeys (calls st) = [])) ->
  (socketClosed st = true -> socketClosed st' = true) ->
  (opened st = true -> opened st' = true) ->
  (timeoutId st' = true -> opened st' = true) ->
  (listening st' = true -> ws st' = negb (socketClosed st')) ->
  (inflight st' <> [] -> listening st' = true) ->
  Inv st'.
Proof.
  intros (HA & HK & HF & HB & HC & HD & HE) Hcalls Hconn Hrem Hsto Htim Hclosed Hop Hto HK' HF'.
  unfold pairingInv. rewrite Hcalls, Hconn, Hrem, Hsto.
  split; [|split; [done|split; [done|split; [|split; [|split; [done|done]]]]]].
  - destruct (last (connectedKeys (calls st))) as [remote|] eqn:Hlast; [|done].
    destruct HA as (H1 & H2 & H3 & H4 & H5). repeat split; try done; [|by apply Hclosed].
    destruct (timeoutId st') eqn:Ht; [|done].
    destruct (Htim eq_refl) as [Hold | (_ & _ & Hnil)]; [congruence|].
    by rewrite Hnil in Hlast.
  - intros Ht. split; [by apply Hto|].
    destruct (Htim Ht) as [Hold | (Hno & _ & _)]; [by apply HB | by apply HC].
  - intros Hno. apply HC. destruct (opened st) eqn:Ho; [|done].
    by rewrite Hop in Hno.
Qed.

Lemma cleanup_inv st : Inv st -> Inv (cleanup st).
Proof.
  intros H. pose proof H as (HA & HK & HF & _).
  apply (quiet_inv st); try done.
  - cbn. intros ->. by destruct (ws st).
  - cbn. intros Hl. specialize (HK Hl). by destruct (ws st), (socketClosed st).
Qed.

(** A call that is neither [onConnected] nor [onTimeout]. *)
Lemma call_error_inv st message : Inv st -> Inv (call (OnError message) st).
Proof.
  intros (HA & HK & HF & HB & HC & HD & HE). unfold pairingInv.
  cbn [calls call isConnected sessionRemotePubkey sessionStorage timeoutId socketClosed
       listening ws inflight opened].
  rewrite connectedKeys_app, timeouts_app.
  change (connectedKeys [OnError message]) with (@nil string).
  change (timeouts [OnError message]) with 0%nat.
  rewrite app_nil_r, Nat.add_0_r.
  parts; try done.
  intros before after Heq. apply timeout_position in Heq as [(_ & _ & [=]) | (a' & _ & Heq)].
  by eapply HE.
Qed.

Lemma connected_inv st remote :
  Inv st -> listening st = true -> socketClosed st = true \/ ws st = true ->
  Inv (connected session remote st).
Proof.
  intros (HA & HK & HF & HB & HC & HD & HE) Hl Hws. unfold connected, pairingInv.
  cbn [calls call cleanup isConnected sessionRemotePubkey sessionStorage timeoutId
       socketClosed listening ws inflight opened].
  rewrite connectedKeys_app, timeouts_app.
  change (connectedKeys [OnConnected remote]) with [remote].
  change (timeouts [OnConnected remote]) with 0%nat.
  rewrite last_snoc, Nat.add_0_r.
  split; [|split; [|split; [done|split; [done|split; [|split; [done|]]]]]].
  - rewrite lookup_insert_eq. repeat split. destruct (ws st); [done|].
    by destruct Hws.
  - intros _. specialize (HK Hl). by destruct (ws st), (socketClosed st).
  - exact HC.
  - intros before after Heq.
    apply timeout_position in Heq as [(_ & _ & [=]) | (a' & _ & Heq)]. by eapply HE.
Qed.

Lemma step_inv st e : Inv st -> Inv (step st e).
Proof.
  intros H. pose proof H as (HA & HK & HF & HB & HC & HD & HE).
  destruct e as [now|m|k| | | |]; cbn [Pairing.step].
  - (* open *)
    destruct (listening st && negb (opened st) && negb (socketClosed st)) eqn:Hg; [|done].
    apply andb_true_iff in Hg as [[Hl Hop%negb_true_iff]%andb_true_iff Hcl%negb_true_iff].
    apply (quiet_inv st); try done.
    cbn. intros _. right. split; [done|]. split; [done|].
    destruct (last (connectedKeys (calls st))) eqn:Hlast.
    + destruct HA as (_ & _ & _ & _ & Hclosed). congruence.
    + by apply last_None.
  - (* message *)
    destruct (listening st && negb (socketClosed st)) eqn:Hg; [|done].
    apply andb_true_iff in Hg as [Hl Hcl%negb_true_iff].
    destruct m; [|done]. apply (quiet_inv st); try done; cbn.
    + by left.
    + intros Ht. by apply HB.
  - (* a decryption returns *)
    destruct (inflight st !! k) as [m|] eqn:Hk; [|done].
    assert (listening st = true) as Hl.
    { apply HF. intros Hnil. by rewrite Hnil in Hk. }
    assert (Inv (setInflight (delete k (inflight st)) st)) as H'.
    { apply (quiet_inv st); try done; cbn; [by left | intros Ht; by apply HB]. }
    unfold ondecrypted. destruct (responseOf session m) as [[remote response]|]; [|done].
    destruct (Connect.isConnectResponse response (secret session)) as [[|]|]; try done.
    apply connected_inv; [done | done |]. cbn. specialize (HK Hl).
    destruct (socketClosed st); [by left | by right].
  - (* error *)
    destruct (listening st); [|done]. by apply call_error_inv, cleanup_inv.
  - (* close *) done.
  - (* timer *)
    destruct (timeoutId st) eqn:Ht; [|done].
    destruct (HB eq_refl) as [Hop Hzero].
    unfold ontimeout. cbn [isConnected].
    destruct (last (connectedKeys (calls st))) as [remote|] eqn:Hlast.
    { destruct HA as (_ & _ & _ & Hf & _). congruence. }
    destruct HA as (Hconn & Hrem & Hsto). rewrite Hconn.
    unfold pairingInv.
    cbn [calls call cleanup isConnected sessionRemotePubkey sessionStorage timeoutId
         socketClosed listening ws inflight opened].
    rewrite connectedKeys_app, timeouts_app.
    change (connectedKeys [OnTimeout]) with (@nil string).
    change (timeouts [OnTimeout]) with 1%nat.
    rewrite app_nil_r, Hlast, Hzero.
    split; [done|]. split.
    { intros Hl. specialize (HK Hl). by destruct (ws st), (socketClosed st). }
    split; [done|]. split; [done|]. split; [congruence|]. split; [cbn; lia|].
    intros before after Heq.
    apply timeout_position in Heq as [(_ & -> & _) | (a' & _ & Heq)].
    + by apply last_None.
    + exfalso. apply (timeouts_zero _ OnTimeout Hzero); [|done].
      rewrite Heq. apply elem_of_app. right. apply list_elem_of_here.
  - (* cleanup *) by apply cleanup_inv.
Qed.

Lemma run_inv es : forall st, Inv st -> Inv (run st es).
Proof.
  unfold Pairing.run. induction es as [|e es IH]; intros st H; [done|].
  cbn [fold_left]. by apply IH, step_inv.
Qed.

(** The session kept for later signing requests is that of the last
    call of [onConnected]: when [onConnected] was called, last with the
    key [remote], the stored text is the JSON of the client keys, that
    key and the relay, [hasNostrConnectSession] answers true, the socket
    is closed and the timer is no longer pending.  (Calls made with other
    keys before that one are overwritten.) *)
Theorem pairing_keeps_the_last_signer (constructed : bool) (es : list Event)
    (remote : string) :
  last (connectedKeys (calls (run (start constructed storage) es))) = Some remote ->
  let st := run (start constructed storage) es in
  sessionRemotePubkey st = Some remote
  /\ sessionStorage st !! storageKey = Some (stringify (storedSession session remote))
  /\ hasNostrConnectSession (sessionStorage st) = true
  /\ hasNostrConnectSession (clearNostrConnectSession (sessionStorage st)) = false
  /\ socketClosed st = true /\ timeoutId st = false.
Proof.
  intros Hlast st. subst st.
  destruct (run_inv es _ (start_inv constructed)) as [HA _].
  rewrite Hlast in HA. destruct HA as (_ & Hrem & Hsto & Htim & Hclosed).
  repeat split; try done.
  - unfold hasNostrConnectSession. by rewrite Hsto.
  - unfold hasNostrConnectSession, clearNostrConnectSession. by rewrite lookup_delete_eq.
Qed.

(** The timeout is reported at most once, and never after a pairing:
    whatever the events, [onTimeout] is called at most once, no call of
    [onConnected] precedes it, and as long as [onConnected] was not
    called the stored sessions are those that were there before. *)
Theorem pairing_timeout_once (constructed : bool) (es : list Event) :
  let st := run (start constructed storage) es in
  (timeouts (calls st) <= 1)%nat
  /\ (forall before after, calls st = before ++ OnTimeout :: after ->
        connectedKeys before = [])
  /\ (connectedKeys (calls st) = [] -> sessionStorage st = storage).
Proof.
  intros st. subst st.
  destruct (run_inv es _ (start_inv constructed)) as (HA & _ & _ & _ & _ & HD & HE).
  split; [done|]. split; [done|]. intros Hnil. rewrite Hnil in HA. cbn in HA. tauto.
Qed.

(** The race of two acknowledgements.  When two messages that both carry
    an acknowledgement arrive before the decryption of the first one
    returns, [onConnected] is called for each of them, and the session
    kept is that of the message decrypted last. *)
Theorem pairing_race (now : Z) (m1 m2 : Connect.RelayMessage)
    (remote1 remote2 : string) (response1 response2 : json) :
  responseOf session m1 = Some (remote1, response1) ->
  responseOf session m2 = Some (remote2, response2) ->
  Connect.isConnectResponse response1 (secret session) = Some true ->
  Connect.isConnectResponse response2 (secret session) = Some true ->
  let st := run (start true storage)
              [EvOpen now; EvMessage m1; EvMessage m2; EvDecrypted 0; EvDecrypted 0] in
  calls st = [OnConnected remote1; OnConnected remote2]
  /\ sessionRemotePubkey st = Some remote2
  /\ sessionStorage st !! storageKey = Some (stringify (storedSession session remote2)).
Proof.
  intros Hr1 Hr2 Ha1 Ha2 st. subst st.
  assert (exists e1, m1 = Connect.MsgEvent e1) as [e1 ->]
    by (destruct m1; [by eexists | done]).
  assert (exists e2, m2 = Connect.MsgEvent e2) as [e2 ->]
    by (destruct m2; [by eexists | done]).
  assert (forall st', ondecrypted session (Connect.MsgEvent e1) st'
                      = connected session remote1 st') as Hd1
    by (intros st'; unfold ondecrypted; by rewrite Hr1, Ha1).
  assert (forall st', ondecrypted session (Connect.MsgEvent e2) st'
                      = connected session remote2 st') as Hd2
    by (intros st'; unfold ondecrypted; by rewrite Hr2, Ha2).
  unfold Pairing.run. cbn [fold_left].
  set (st3 := step (step (step (start true storage) (EvOpen now))
                      (EvMessage (Connect.MsgEvent e1))) (EvMessage (Connect.MsgEvent e2))).
  assert (inflight st3 = [Connect.MsgEvent e1; Connect.MsgEvent e2]) as Hin3 by done.
  assert (calls st3 = []) as Hc3 by done.
  cbn [Pairing.step]. rewrite Hin3. cbn [lookup list_lookup]. rewrite Hd1.
  cbn [inflight connected call cleanup setInflight delete list_delete].
  cbn [lookup list_lookup]. rewrite Hd2.
  cbn [connected call cleanup setInflight calls sessionRemotePubkey sessionStorage].
  rewrite Hc3. split; [done|]. split; [done|]. by rewrite lookup_insert_eq.
Qed.

End WithPlatform.

Import Sample.

Lemma pairing_keeps_the_last_signer_witness :
  let st := Pairing.run (P := samplePlatform) pairingSession (start true ∅)
              [EvOpen 1700000000000; EvMessage (controlEvent respOk); EvDecrypted 0] in
  sessionRemotePubkey st = Some signerPub
  /\ sessionStorage st !! storageKey = Some (stringify (storedSession pairingSession signerPub))
  /\ hasNostrConnectSession (sessionStorage st) = true
  /\ hasNostrConnectSession (clearNostrConnectSession (sessionStorage st)) = false
  /\ socketClosed st = true /\ timeoutId st = false.
Proof.
  apply (pairing_keeps_the_last_signer (P := samplePlatform) pairingSession ∅ true
           [EvOpen 1700000000000; EvMessage (controlEvent respOk); EvDecrypted 0]
           signerPub).
  evaluated.
Defined.

Lemma pairing_race_witness :
  let st := Pairing.run (P := samplePlatform) pairingSession (start true ∅)
              [EvOpen 1700000000000; EvMessage (controlEvent respOk);
               EvMessage (controlEvent respOther); EvDecrypted 0; EvDecrypted 0] in
  calls st = [OnConnected signerPub; OnConnected signerPub]
  /\ sessionRemotePubkey st = Some signerPub
  /\ sessionStorage st !! storageKey
     = Some (stringify (storedSession pairingSession signerPub)).
Proof.
  refine (pairing_race (P := samplePlatform) pairingSession ∅ 1700000000000
            (controlEvent respOk) (controlEvent respOther) signerPub signerPub
            respOk respOther _ _ _ _); evaluated.
Defined.

End PairingProofs.

(** ** The pairing URI *)

Module URIProofs.
Import JS Json Codec KeyCodec Pairing.
Import KeyCodecProofs CodecProofs JSProofs.

(** A character that does not occur in a given text. *)
Ltac absent :=
  let H := fresh in
  intros H; cbn in H;
  repeat (apply elem_of_cons in H as [H | H]; [discriminate H|]);
  by apply elem_of_nil in H.

Lemma formDecode_char (c : ascii) (r : list ascii) :
  formDecodeChars (formEncodeChar c ++ r) = c :: formDecodeChars r.
Proof.
  destruct c as [[] [] [] [] [] [] [] []]; reflexivity.
Qed.

(** Round trip of the serializer: parsing an encoded value gives the
    value back, whatever bytes it holds. *)
Lemma formDecode_formEncode (s : string) : formDecode (formEncode s) = s.
Proof.
  unfold formDecode, formEncode. rewrite chars_str.
  rewrite <- (str_chars s) at 2. f_equal.
  induction (chars s) as [|c l IH]; [done|].
  cbn [map concat]. by rewrite formDecode_char, IH.
Qed.

(** The characters that an encoded value can hold: the ones left as
    they are, [+] and [%]. *)
Lemma formEncodeChar_chars (c : ascii) :
  forallb (fun x => formSafe x || (charCode x =? 43) || (charCode x =? 37))
    (formEncodeChar c) = true.
Proof.
  destruct c as [[] [] [] [] [] [] [] []]; reflexivity.
Qed.

Lemma formEncode_chars (s : string) (x : ascii) :
  x ∈ chars (formEncode s) ->
  formSafe x || (charCode x =? 43) || (charCode x =? 37) = true.
Proof.
  unfold formEncode. rewrite chars_str. intros Hin.
  apply list_elem_of_In, in_concat in Hin as (l & Hl & Hx).
  apply in_map_iff in Hl as (c & <- & _).
  pose proof (formEncodeChar_chars c) as H. rewrite forallb_forall in H.
  by apply H.
Qed.

Lemma formEncode_unreserved (s : string) (x : ascii) :
  x ∈ ["&"; "="; "?"; "#"; " "]%char -> x ∉ chars (formEncode s).
Proof.
  intros Hx Hin. apply formEncode_chars in Hin.
  repeat (apply elem_of_cons in Hx as [-> | Hx]; [by vm_compute in Hin|]).
  by apply elem_of_nil in Hx.
Qed.

Lemma pair_no_amp (name value : string) :
  "&"%char ∉ chars name -> "&"%char ∉ chars (name +:+ "=" +:+ formEncode value).
Proof.
  intros Hn. rewrite !chars_app, !not_elem_of_app. split; [done|]. split.
  - by apply not_elem_of_cons; split; [|apply not_elem_of_nil].
  - apply formEncode_unreserved. apply list_elem_of_here.
Qed.

Lemma split_pair (name value : string) :
  "="%char ∉ chars name ->
  split "=" (name +:+ "=" +:+ formEncode value) = [name; formEncode value].
Proof.
  intros Hn. apply (split_once "=" ""); [done|].
  apply formEncode_unreserved. apply list_elem_of_further, list_elem_of_here.
Qed.

Lemma split_three (a b c : string) :
  "&"%char ∉ chars a -> "&"%char ∉ chars b -> "&"%char ∉ chars c ->
  split "&" (a +:+ "&" +:+ b +:+ "&" +:+ c) = [a; b; c].
Proof.
  intros Ha Hb Hc. unfold split.
  change (a +:+ "&" +:+ b +:+ "&" +:+ c) with (a +:+ String "&" (b +:+ String "&" c)).
  rewrite (splitGo_first "&" a) by done.
  rewrite (splitGo_first "&" b) by done.
  rewrite (splitGo_nomatch "&" "") by done.
  cbn [rev app]. by rewrite !str_chars.
Qed.

(** The URI is "nostrconnect://", the client key, "?" and a query that
    splits on "&" into exactly the three parameters [relay], [secret] and
    [name], in this order, each with its encoded value: no character of
    the relay address, of the secret or of the application name can add,
    end or rename a parameter. *)
Theorem generateNostrConnectURI_parameters (session : NostrConnectSession)
    (appName : string) :
  exists query,
    generateNostrConnectURI session appName
    = "nostrconnect://" +:+ clientPubkey session +:+ "?" +:+ query
    /\ map (split "=") (split "&" query)
       = [["relay"; formEncode (relay session)];
          ["secret"; formEncode (secret session)];
          ["name"; formEncode appName]]
    /\ map formDecode [formEncode (relay session); formEncode (secret session);
                       formEncode appName]
       = [relay session; secret session; appName].
Proof.
  eexists. split; [reflexivity|]. split.
  - unfold URLSearchParams_toString. cbn [map fst snd ampJoin].
    change (formEncode "relay") with "relay". change (formEncode "secret") with "secret".
    change (formEncode "name") with "name".
    rewrite split_three by (apply pair_no_amp; absent).
    cbn [map]. by rewrite !split_pair by absent.
  - cbn [map]. by rewrite !formDecode_formEncode.
Qed.

End URIProofs.

(** ** The notes shown by the profile-notes hook *)

Module NotesHookProofs.
Import ProfileNotes NotesHook ProfileNotesProofs.

Lemma insertNote_perm x l : insertNote x l ≡ₚ x :: l.
Proof.
  induction l as [|y l IH]; [done|]. cbn [insertNote].
  destruct (created_at y <=? created_at x); [done|].
  rewrite IH. apply Permutation_swap.
Qed.

Lemma sortNotes_perm l : sortNotes l ≡ₚ l.
Proof.
  induction l as [|x l IH]; [done|]. cbn [sortNotes foldr].
  fold (sortNotes l). by rewrite insertNote_perm, IH.
Qed.

Lemma insertNote_sorted x l : newestFirst l -> newestFirst (insertNote x l).
Proof.
  unfold newestFirst. induction l as [|y l IH]; intros Hs.
  - repeat constructor.
  - cbn [insertNote]. apply StronglySorted_inv in Hs as [Hs Hy].
    destruct (Z.leb_spec (created_at y) (created_at x)) as [Hle|Hgt].
    + constructor; [by constructor|]. constructor; [done|].
      eapply Forall_impl; [exact Hy|]. intros b Hb. cbn beta in *. lia.
    + constructor; [by apply IH|].
      rewrite insertNote_perm. constructor; [lia | done].
Qed.

Lemma sortNotes_sorted l : newestFirst (sortNotes l).
Proof.
  induction l as [|x l IH]; [constructor|]. by apply insertNote_sorted.
Qed.

(** The last note of a list sorted newest first is an oldest one. *)
Lemma newestFirst_last l z :
  newestFirst l -> last l = Some z -> z ∈ l /\ forall n, n ∈ l -> created_at z <= created_at n.
Proof.
  unfold newestFirst. induction l as [|y l IH]; [done|].
  intros [Hs Hy]%StronglySorted_inv Hlast.
  destruct l as [|y' l'].
  - injection Hlast as <-. split; [apply list_elem_of_here|].
    intros n ->%list_elem_of_singleton. lia.
  - change (last (y :: y' :: l')) with (last (y' :: l')) in Hlast.
    destruct (IH Hs Hlast) as [Hin Hmin]. split; [by apply list_elem_of_further|].
    intros n [->|Hn]%elem_of_cons; [|by apply Hmin].
    rewrite Forall_forall in Hy. by apply Hy.
Qed.

(** What a step of the query hands to the callbacks. *)
Lemma step_calls st e :
  (exists new, delivered (ProfileNotes.step st e) = delivered st ++ new
               /\ (length new <= 1)%nat)
  /\ (completions st <= completions (ProfileNotes.step st e))%nat.
Proof.
  assert (forall s, delivered (checkComplete s) = delivered s
                    /\ (completions s <= completions (checkComplete s))%nat) as Hcheck.
  { intros s. unfold checkComplete. destruct (_ <=? _)%nat; cbn; split; (done || lia). }
  assert (forall s : State, delivered s = delivered st ->
            exists new, delivered s = delivered st ++ new /\ (length new <= 1)%nat) as Hsame.
  { intros s ->. exists []. rewrite app_nil_r. split; [done | cbn; lia]. }
  destruct e as [i|i m|i|i| |]; cbn [ProfileNotes.step].
  - split; [by apply Hsame | done].
  - destruct m as [ev| |]; cbn [onmessage]; [|split; [by apply Hsame | done]..].
    destruct (kind ev =? 1); [|split; [by apply Hsame | done]].
    destruct (decide (id ev ∈ seenIds st)); [split; [by apply Hsame | done]|].
    split; [|done]. exists [ev]. split; [done | cbn; lia].
  - unfold onerror. destruct (Hcheck (countCompleted st)) as [Hd Hc].
    split; [by apply Hsame | exact Hc].
  - unfold onclose. destruct (Hcheck (countCompleted st)) as [Hd Hc].
    split; [by apply Hsame | exact Hc].
  - destruct (timeoutId st); (split; [by apply Hsame | cbn; lia]).
  - destruct (earlyTimeoutId st); [|split; [by apply Hsame | lia]].
    unfold onEarlyTimeout. cbn [seenIds setTimers].
    destruct (_ <=? _)%nat; (split; [by apply Hsame | cbn; lia]).
Qed.

Lemma onComplete_iter k h :
  notesBuffer (Nat.iter k onComplete h) = notesBuffer h
  /\ notes (Nat.iter k onComplete h) = notes h
  /\ oldestTimestamp (Nat.iter k onComplete h) = oldestTimestamp h
  /\ (isLoading h = false \/ (1 <= k)%nat -> isLoading (Nat.iter k onComplete h) = false).
Proof.
  induction k as [|k (H1 & H2 & H3 & H4)]; cbn [Nat.iter].
  - repeat split; try done. intros [? | ?]; [done | lia].
  - cbn. repeat split; done.
Qed.

Lemma step_linked st e : linked st -> linked (NotesHook.step st e).
Proof.
  destruct st as [agg h]. intros (Hbuf & Hnotes & Hold & Hload). cbn [fst snd] in *.
  unfold NotesHook.step, linked, callbacks. cbn [fst snd].
  destruct (step_calls agg e) as [(new & Hnew & Hlen) Hmono].
  rewrite Hnew, drop_app_length.
  set (k := (completions (ProfileNotes.step agg e) - completions agg)%nat).
  set (h' := fold_left (fun h note => onNote note h) new h).
  assert (notesBuffer h' = delivered agg ++ new
          /\ notes h' = sortNotes (delivered agg ++ new)
          /\ oldestTimestamp h' = created_at <$> last (notes h')
          /\ isLoading h' = isLoading h) as (Hb' & Hn' & Ho' & Hl').
  { subst h'. destruct new as [|note [|? ?]]; [| |cbn in Hlen; lia].
    - cbn. by rewrite app_nil_r.
    - cbn [fold_left]. unfold onNote. cbn. rewrite Hbuf.
      repeat split. destruct (last (sortNotes (delivered agg ++ [note]))) eqn:Hlast; [done|].
      apply last_None in Hlast.
      pose proof (sortNotes_perm (delivered agg ++ [note])) as Hp. rewrite Hlast in Hp.
      apply Permutation_nil_l in Hp. by destruct (delivered agg). }
  destruct (onComplete_iter k h') as (H1 & H2 & H3 & H4).
  rewrite H1, H2, H3. repeat split; try done.
  intros Hc. apply H4. rewrite Hl'.
  destruct (decide (1 <= completions agg)%nat); [left; by apply Hload | right; lia].
Qed.

Lemma run_linked es : forall st, linked st -> linked (NotesHook.run st es).
Proof.
  induction es as [|e es IH]; intros st Hl; [done|].
  cbn [NotesHook.run fold_left]. apply IH. by apply step_linked.
Qed.

Lemma run_fst es : forall st, fst (NotesHook.run st es) = ProfileNotes.run (fst st) es.
Proof.
  unfold NotesHook.run, ProfileNotes.run.
  induction es as [|e es IH]; intros st; [done|].
  cbn [fold_left]. by rewrite IH.
Qed.

(** What the hook shows while [fetchNotes] runs, after any events: the
    notes handed over by the query, each once, newest first; and the
    oldest time stamp kept for the next page is the time of the last of
    them, which none of the notes shown precedes. *)
Theorem fetchNotes_view (pubkey : string) (constructed : nat -> bool) (es : list Event) :
  let st := NotesHook.run (start constructed, fetchNotes pubkey) es in
  notes (snd st) ≡ₚ delivered (fst st)
  /\ newestFirst (notes (snd st))
  /\ NoDup (map id (notes (snd st)))
  /\ match oldestTimestamp (snd st) with
     | Some t =>
         (exists n, n ∈ notes (snd st) /\ created_at n = t)
         /\ forall n, n ∈ notes (snd st) -> t <= created_at n
     | None => notes (snd st) = []
     end.
Proof.
  intros st.
  assert (linked (start constructed, fetchNotes pubkey)) as Hinit.
  { unfold linked. cbn. repeat split. lia. }
  destruct (run_linked es _ Hinit) as (_ & Hnotes & Hold & _). fold st in Hnotes, Hold.
  assert (consistent (fst st)) as [Hnodup _].
  { subst st. rewrite run_fst. apply run_consistent, start_consistent. }
  rewrite Hold. split; [rewrite Hnotes; apply sortNotes_perm|].
  split; [rewrite Hnotes; apply sortNotes_sorted|]. split.
  - rewrite Hnotes. unfold deliveredIds in Hnodup.
    eapply NoDup_Permutation_proper; [|exact Hnodup].
    apply Permutation_map, sortNotes_perm.
  - destruct (last (notes (snd st))) as [z|] eqn:Hlast; cbn.
    + assert (newestFirst (notes (snd st))) as Hs by (rewrite Hnotes; apply sortNotes_sorted).
      destruct (newestFirst_last _ _ Hs Hlast) as [Hin Hmin].
      split; [by exists z | exact Hmin].
    + by apply last_None.
Qed.


(** The hard timer stays pending until the query completes. *)
Lemma step_pending_or_done st e :
  timeoutId st = true \/ (1 <= completions st)%nat ->
  timeoutId (ProfileNotes.step st e) = true
  \/ (1 <= completions (ProfileNotes.step st e))%nat.
Proof.
  intros H.
  assert (forall s, timeoutId s = true \/ (1 <= completions s)%nat ->
            timeoutId (checkComplete s) = true
            \/ (1 <= completions (checkComplete s))%nat) as Hcheck.
  { intros s Hs. unfold checkComplete. destruct (_ <=? _)%nat; [right; cbn; lia | done]. }
  destruct e as [i|i m|i|i| |]; cbn [ProfileNotes.step].
  - done.
  - destruct m as [ev| |]; cbn [onmessage]; try done.
    destruct (kind ev =? 1); [|done]. by destruct (decide (id ev ∈ seenIds st)).
  - by apply Hcheck.
  - by apply Hcheck.
  - destruct (timeoutId st) eqn:Ht; [right; cbn; lia | by rewrite Ht].
  - destruct (earlyTimeoutId st); [|done]. unfold onEarlyTimeout. cbn [seenIds setTimers].
    destruct (_ <=? _)%nat; [right; cbn; lia | done].
Qed.

Lemma run_pending_or_done es : forall st,
  timeoutId st = true \/ (1 <= completions st)%nat ->
  timeoutId (ProfileNotes.run st es) = true
  \/ (1 <= completions (ProfileNotes.run st es))%nat.
Proof.
  unfold ProfileNotes.run. induction es as [|e es IH]; intros st H; [done|].
  cbn [fold_left]. by apply IH, step_pending_or_done.
Qed.

Lemma run_completions_mono es : forall st,
  (completions st <= completions (ProfileNotes.run st es))%nat.
Proof.
  unfold ProfileNotes.run. induction es as [|e es IH]; intros st; [done|].
  cbn [fold_left]. etrans; [|apply IH]. apply step_calls.
Qed.

(** Loading ends with the hard timer at the latest: once the event of
    the RELAY_TIMEOUT timer has come, [onComplete] was called at least
    once and the hook no longer shows the loading state, whatever the
    relays did. *)
Theorem fetchNotes_loading_ends (pubkey : string) (constructed : nat -> bool)
    (es : list Event) :
  HardTimeout ∈ es ->
  let st := NotesHook.run (start constructed, fetchNotes pubkey) es in
  (1 <= completions (fst st))%nat /\ isLoading (snd st) = false.
Proof.
  intros Hin st.
  assert (linked (start constructed, fetchNotes pubkey)) as Hinit.
  { unfold linked. cbn. repeat split. lia. }
  destruct (run_linked es _ Hinit) as (_ & _ & _ & Hload). fold st in Hload.
  assert (1 <= completions (fst st))%nat as Hdone; [|by split; [|apply Hload]].
  subst st. rewrite run_fst. cbn [fst].
  apply list_elem_of_split in Hin as (es1 & es2 & ->).
  unfold ProfileNotes.run. rewrite fold_left_app. cbn [fold_left].
  fold (ProfileNotes.run (start constructed) es1).
  set (mid := ProfileNotes.run (start constructed) es1).
  fold (ProfileNotes.run (ProfileNotes.step mid HardTimeout) es2).
  etrans; [|apply run_completions_mono].
  assert (timeoutId mid = true \/ (1 <= completions mid)%nat) as Hmid
    by (apply run_pending_or_done; by left).
  cbn [ProfileNotes.step]. destruct (timeoutId mid) eqn:Ht; [cbn; lia|].
  by destruct Hmid.
Qed.

Lemma onComplete_hasMore k h :
  hasMore (Nat.iter k onComplete h)
  = match k with
    | O => hasMore h
    | S _ => (NOTES_PER_PAGE <=? length (notesBuffer h))%nat
    end.
Proof.
  destruct k as [|k]; [done|].
  change (Nat.iter (S k) onComplete h) with (onComplete (Nat.iter k onComplete h)).
  unfold onComplete at 1. cbn [hasMore].
  by destruct (onComplete_iter k h) as (-> & _).
Qed.

Lemma onNote_fold new : forall h,
  hasMore (fold_left (fun h note => onNote note h) new h) = hasMore h
  /\ notesBuffer (fold_left (fun h note => onNote note h) new h) = notesBuffer h ++ new.
Proof.
  induction new as [|note new IH]; intros h; cbn [fold_left].
  - by rewrite app_nil_r.
  - destruct (IH (onNote note h)) as [-> ->]. cbn. by rewrite <- app_assoc.
Qed.

Lemma step_page_full st e :
  ((1 <= completions (fst st))%nat -> hasMore (snd st) = true ->
   (NOTES_PER_PAGE <= length (notesBuffer (snd st)))%nat) ->
  (1 <= completions (fst (NotesHook.step st e)))%nat ->
  hasMore (snd (NotesHook.step st e)) = true ->
  (NOTES_PER_PAGE <= length (notesBuffer (snd (NotesHook.step st e))))%nat.
Proof.
  destruct st as [agg h]. cbn [fst snd]. intros Hinv.
  unfold NotesHook.step, callbacks. cbn [fst snd].
  destruct (step_calls agg e) as [_ Hmono].
  set (new := drop (length (delivered agg)) (delivered (ProfileNotes.step agg e))).
  destruct (onNote_fold new h) as [Hmore Hbuf].
  set (h' := fold_left (fun h note => onNote note h) new h) in *.
  destruct (onComplete_iter (completions (ProfileNotes.step agg e) - completions agg) h')
    as (-> & _).
  rewrite onComplete_hasMore, Hbuf, length_app.
  destruct (completions (ProfileNotes.step agg e) - completions agg)%nat eqn:Hk.
  - intros Hc. rewrite Hmore. intros Hm. assert (1 <= completions agg)%nat as H1 by lia.
    specialize (Hinv H1 Hm). lia.
  - intros _ Hm. by apply Nat.leb_le in Hm.
Qed.

(** After loading has ended, [hasMore] is on only when a full page was
    handed over: once [onComplete] has run, a hook that still offers more
    notes shows at least NOTES_PER_PAGE of them. *)
Theorem fetchNotes_hasMore_full_page (pubkey : string) (constructed : nat -> bool)
    (es : list Event) :
  let st := NotesHook.run (start constructed, fetchNotes pubkey) es in
  (1 <= completions (fst st))%nat /\ hasMore (snd st) = true ->
  (NOTES_PER_PAGE <= length (notes (snd st)))%nat.
Proof.
  intros st [Hc Hm].
  assert (linked (start constructed, fetchNotes pubkey)) as Hinit.
  { unfold linked. cbn. repeat split. lia. }
  destruct (run_linked es _ Hinit) as (Hbuf & Hnotes & _). fold st in Hbuf, Hnotes.
  rewrite Hnotes, (Permutation_length (sortNotes_perm _)), <- Hbuf.
  revert Hc Hm. subst st. clear.
  unfold NotesHook.run.
  induction es as [|e es IH] using rev_ind; [cbn; lia|].
  rewrite fold_left_app. cbn [fold_left]. by apply step_page_full.
Qed.

Lemma fetchNotes_hasMore_full_page_witness :
  let es := map (fun k => Message 0 (MsgEvent
                   (sampleNote (String (ascii_of_nat (65 + k)) EmptyString) (Z.of_nat k))))
              (seq 0 20) ++ [HardTimeout] in
  let st := NotesHook.run (start (fun _ => true), fetchNotes "ab") es in
  (NOTES_PER_PAGE <= length (notes (snd st)))%nat.
Proof.
  intros es.
  apply (fetchNotes_hasMore_full_page "ab" (fun _ => true) es).
  subst es. vm_compute. split; [lia | reflexivity].
Defined.

Lemma fetchNotes_loading_ends_witness :
  let st := NotesHook.run (start (fun _ => true), fetchNotes "ab")
              [Open 0; SockError 1; HardTimeout; SockClose 1] in
  (1 <= completions (fst st))%nat /\ isLoading (snd st) = false.
Proof.
  apply (fetchNotes_loading_ends "ab" (fun _ => true)
           [Open 0; SockError 1; HardTimeout; SockClose 1]).
  apply list_elem_of_further, list_elem_of_further, list_elem_of_here.
Defined.


(** *** [loadMore] *)

Lemma occurrences_app i l k :
  occurrences i (l ++ k) = (occurrences i l + occurrences i k)%nat.
Proof. unfold occurrences. by rewrite filter_app, length_app. Qed.

Lemma occurrences_perm i l k : l ≡ₚ k -> occurrences i l = occurrences i k.
Proof. intros H. unfold occurrences. by rewrite H. Qed.

Lemma occurrences_absent i l : (forall n, n ∈ l -> id n <> i) -> occurrences i l = 0%nat.
Proof.
  intros H. unfold occurrences. induction l as [|x l IH]; [done|].
  rewrite filter_cons. destruct (decide (id x = i)) as [Heq|_].
  - exfalso. by apply (H x); [apply list_elem_of_here|].
  - apply IH. intros n Hn. apply H. by apply list_elem_of_further.
Qed.

Lemma occurrences_head first rest :
  NoDup (map id (first :: rest)) -> occurrences (id first) (first :: rest) = 1%nat.
Proof.
  intros [Hnin _]%NoDup_cons. unfold occurrences. rewrite filter_cons.
  destruct (decide (id first = id first)); [|done]. cbn [length]. f_equal.
  apply occurrences_absent. intros n Hn Heq. apply Hnin. rewrite <- Heq.
  apply list_elem_of_fmap. by exists n.
Qed.

Lemma occurrences_nodup i l : NoDup (map id l) -> (occurrences i l <= 1)%nat.
Proof.
  induction l as [|x l IH]; [cbn; lia|].
  intros [Hnin Hnodup]%NoDup_cons.
  change (x :: l) with ([x] ++ l). rewrite occurrences_app.
  destruct (decide (id x = i)) as [<-|Hne].
  - rewrite (occurrences_absent (id x) l).
    { unfold occurrences. rewrite filter_cons, filter_nil. case_decide; cbn; lia. }
    intros n Hn Hid. apply Hnin. rewrite <- Hid. apply list_elem_of_fmap. by exists n.
  - rewrite (occurrences_absent i [x]); [by apply IH|].
    by intros n ->%list_elem_of_singleton.
Qed.

Lemma occurrences_updaters i buffer q : forall prev,
  occurrences i (Nat.iter q (updater buffer) prev)
  = (occurrences i prev + q * occurrences i buffer)%nat.
Proof.
  induction q as [|q IH]; intros prev.
  { change (Nat.iter 0 (updater buffer) prev) with prev. lia. }
  rewrite Nat.iter_succ.
  unfold updater at 1. rewrite (occurrences_perm _ _ _ (sortNotes_perm _)).
  rewrite occurrences_app, IH. lia.
Qed.

Lemma updaters_elem buffer q n : forall prev,
  n ∈ Nat.iter q (updater buffer) prev -> n ∈ prev \/ n ∈ buffer.
Proof.
  induction q as [|q IH]; intros prev; [by left|].
  rewrite Nat.iter_succ.
  unfold updater at 1. rewrite sortNotes_perm, elem_of_app.
  intros [H | H]; [by apply IH | by right].
Qed.

Lemma pageStep_inv st e : pageInv st -> pageInv (pageStep st e).
Proof.
  intros (Hshown & Hbuf & Hnodup & Hcount).
  destruct e as [note| |]; cbn [pageStep].
  - unfold pageOnNote. destruct (decide (id note ∈ existingIds st)) as [Hin|Hnin]; [done|].
    unfold pageInv. cbn [shown newNotesBuffer existingIds queued].
    split; [intros n Hn; apply elem_of_union; right; by apply Hshown|].
    split.
    { intros n [Hn | ->%list_elem_of_singleton]%elem_of_app; apply elem_of_union;
        [right; by apply Hbuf | left; by apply elem_of_singleton]. }
    split.
    { rewrite map_app. apply NoDup_app. split; [done|]. split.
      - intros i Hi ->%list_elem_of_singleton. apply Hnin.
        apply list_elem_of_fmap in Hi as (n & -> & Hn). by apply Hbuf.
      - apply NoDup_singleton. }
    destruct (newNotesBuffer st) as [|first rest] eqn:Hb; cbn [head app length] in *.
    + rewrite Hcount. rewrite occurrences_absent; [done|].
      intros n Hn Heq. apply Hnin. rewrite <- Heq. by apply Hshown.
    + rewrite length_app. cbn [length]. lia.
  - done.
  - unfold pageInv. cbn [shown newNotesBuffer existingIds queued render].
    split.
    { intros n [Hn | Hn]%updaters_elem; [by apply Hshown | by apply Hbuf]. }
    split; [done|]. split; [done|].
    destruct (newNotesBuffer st) as [|first rest] eqn:Hb; cbn [head] in *; [done|].
    rewrite occurrences_updaters, occurrences_head by done. lia.
Qed.

Lemma pageRun_inv es : forall st, pageInv st -> pageInv (pageRun st es).
Proof.
  unfold pageRun. induction es as [|e es IH]; intros st H; [done|].
  cbn [fold_left]. by apply IH, pageStep_inv.
Qed.

Lemma loadMore_inv h st : loadMore h = Some st -> pageInv st.
Proof.
  unfold loadMore. destruct (currentPubkey h) as [pubkey|]; [|done].
  destruct (oldestTimestamp h) as [oldest|]; [|done].
  destruct (_ || _); [done|]. intros [= <-].
  unfold pageInv. cbn. split; [|split; [|split; [apply NoDup_nil_2 | done]]].
  - intros n Hn. apply elem_of_list_to_set, list_elem_of_fmap. by exists n.
  - intros n Hn. by apply elem_of_nil in Hn.
Qed.

(** [loadMore] shows notes more than once.  Every updater that ran
    appended the whole of [newNotesBuffer] to what was shown: the first
    note added to a page is shown once for each updater that has run, so
    that, once all have run, it is shown as many times as notes were
    added; with two notes or more the list shown holds the same id
    twice. *)
Theorem loadMore_repeats_notes (h : HookState) (st0 : PageState) (es : list PageEvent)
    (first : NostrNote) :
  loadMore h = Some st0 ->
  head (newNotesBuffer (pageRun st0 es)) = Some first ->
  let st := pageRun st0 es in
  (occurrences (id first) (shown st) + queued st)%nat = length (newNotesBuffer st)
  /\ (queued st = 0%nat -> (2 <= length (newNotesBuffer st))%nat ->
      ~ NoDup (map id (shown st))).
Proof.
  intros Hload Hfirst st.
  destruct (pageRun_inv es _ (loadMore_inv _ _ Hload)) as (_ & _ & _ & Hcount).
  fold st in Hcount, Hfirst. rewrite Hfirst in Hcount. split; [exact Hcount|].
  intros Hq Hlen Hnodup. rewrite Hq in Hcount.
  pose proof (occurrences_nodup (id first) _ Hnodup). lia.
Qed.


Lemma loadMore_repeats_notes_witness :
  let st := pageRun samplePageStart
              [PageNote (sampleNote "n2" 20); PageNote (sampleNote "n3" 10); Render] in
  (occurrences "n2" (shown st) + queued st)%nat = length (newNotesBuffer st)
  /\ (queued st = 0%nat -> (2 <= length (newNotesBuffer st))%nat ->
      ~ NoDup (map id (shown st))).
Proof.
  refine (loadMore_repeats_notes samplePage samplePageStart
            [PageNote (sampleNote "n2" 20); PageNote (sampleNote "n3" 10); Render]
            (sampleNote "n2" 20) _ _); evaluated.
Defined.

End NotesHookProofs.

(** ** The profile-data hook *)

Module ProfileHookProofs.
Import JS Json ProfileHook.

Section WithPlatform.
Context `{P : Platform}.

Lemma step_first_wins st e :
  firstWins st -> firstWins (step st e).
Proof.
  intros H.
  assert (forall st' : State,
            profileSets st' = profileSets st -> profileReceived st' = profileReceived st ->
            profile st' = profile st -> countSets st' = countSets st ->
            followsReceived st' = followsReceived st ->
            followingCount st' = followingCount st ->
            (isLoadingProfile st' = true -> isLoadingProfile st = true) ->
            (isLoadingFollowing st' = true -> isLoadingFollowing st = true) ->
            firstWins st') as Hsame.
  { intros st' H1 H2 H3 H4 H5 H6 H7 H8. unfold firstWins in *.
    rewrite H1, H2, H3, H4, H5, H6. destruct H as (Hp & Hc & Hpl & Hcl).
    repeat split; auto. }
  destruct H as (Hp & Hc & Hpl & Hcl).
  destruct e as [s|[i|i] m|s|s| |]; cbn [step].
  - by apply Hsame.
  - destruct m as [ev| |]; cbn [profileOnMessage]; [|by apply Hsame..].
    destruct (kind ev =? 0); [|by apply Hsame]. cbn [andb].
    destruct (profileReceived st) eqn:Hr; [by apply Hsame|]. cbn [negb].
    destruct (JSON_parse (content ev) ≫= newProfile ev) as [p|]; [|by apply Hsame].
    destruct Hp as [(Hp1 & Hp2 & Hp3) | (p0 & Hp1 & _)]; [|congruence].
    unfold firstWins. cbn. rewrite Hp1. cbn.
    split; [right; by exists p|]. split; [exact Hc|]. split; [done | exact Hcl].
  - destruct m as [ev| |]; cbn [followsOnMessage]; [|by apply Hsame..].
    destruct (kind ev =? 3); [|by apply Hsame]. cbn [andb].
    destruct (followsReceived st) eqn:Hr; [by apply Hsame|]. cbn [negb].
    destruct Hc as [(Hc1 & Hc2 & Hc3) | (n0 & Hc1 & _)]; [|congruence].
    unfold firstWins. cbn. rewrite Hc1. cbn.
    split; [exact Hp|]. split; [right; by eexists|]. split; [exact Hpl | done].
  - destruct s; unfold onend; cbn; destruct (_ && _); by apply Hsame.
  - destruct s; unfold onend; cbn; destruct (_ && _); by apply Hsame.
  - destruct (timeoutId st); by apply Hsame.
  - destruct (checkComplete st); by apply Hsame.
Qed.

Lemma run_first_wins es : forall st, firstWins st -> firstWins (run st es).
Proof.
  unfold run. induction es as [|e es IH]; intros st H; [done|].
  cbn [fold_left]. by apply IH, step_first_wins.
Qed.

(** The first answer wins.  Over any run of events, [setProfile] is
    called with a profile at most once and [setFollowingCount] with a
    count at most once; the profile and the count shown are those of
    these calls, and each ends its own loading state. *)
Theorem fetchProfile_first_answer_wins (constructed : Socket -> bool) (es : list Event) :
  let st := run (start constructed) es in
  (length (profileSets st) <= 1)%nat /\ (length (countSets st) <= 1)%nat
  /\ profile st = head (profileSets st)
  /\ followingCount st = head (countSets st)
  /\ (isLoadingProfile st = true -> profile st = None)
  /\ (isLoadingFollowing st = true -> followingCount st = None).
Proof.
  intros st.
  assert (firstWins (start constructed)) as Hinit.
  { split; [by left|]. split; [by left|]. done. }
  destruct (run_first_wins es _ Hinit) as (Hp & Hc & Hpl & Hcl). fold st in Hp, Hc, Hpl, Hcl.
  destruct Hp as [(Hp1 & _ & Hp2) | (p & _ & Hp1 & Hp2)],
           Hc as [(Hc1 & _ & Hc2) | (n & _ & Hc1 & Hc2)];
    rewrite Hp1, Hp2, Hc1, Hc2 in *; cbn; repeat split; try lia; try done.
  all: intros Hl; first [by specialize (Hpl Hl) | by specialize (Hcl Hl)].
Qed.

Lemma step_cancelled st e :
  timeoutId st = false -> timeoutId (step st e) = false.
Proof.
  intros Ht.
  destruct e as [s|[i|i] m|s|s| |]; cbn [step].
  - done.
  - destruct m as [ev| |]; cbn [profileOnMessage]; try done.
    destruct (_ && _); [|done]. by destruct (_ ≫= _).
  - destruct m as [ev| |]; cbn [followsOnMessage]; try done.
    by destruct (_ && _).
  - destruct s; unfold onend; cbn; by destruct (_ && _).
  - destruct s; unfold onend; cbn; by destruct (_ && _).
  - by rewrite Ht.
  - by destruct (checkComplete st).
Qed.

Lemma step_still_loading st e :
  timeoutId st = false -> noSocketEnds e -> carriesNoEvent e ->
  isLoadingProfile (step st e) = isLoadingProfile st
  /\ isLoadingFollowing (step st e) = isLoadingFollowing st.
Proof.
  intros Ht Hends Hev.
  destruct e as [s|[i|i] m|s|s| |]; cbn [step]; try done.
  - by destruct m.
  - by destruct m.
  - by rewrite Ht.
  - by destruct (checkComplete st).
Qed.

(** The fallback is cancelled by the first tick of the interval: the
    interval callback reads the loading flags of the first render, both
    false, so it clears the FETCH_TIMEOUT timer.  From then on the timer
    never fires, and when the relays neither answer with an event nor end
    their sockets, both loading states stay on, whatever else happens. *)
Theorem fetchProfile_fallback_is_cancelled (constructed : Socket -> bool)
    (es : list Event) :
  Forall (fun e => noSocketEnds e /\ carriesNoEvent e) es ->
  let st := run (start constructed) (Tick :: es) in
  timeoutId st = false /\ isLoadingProfile st = true /\ isLoadingFollowing st = true.
Proof.
  intros Hall st. subst st. unfold run. cbn [fold_left].
  set (st1 := step (start constructed) Tick).
  assert (timeoutId st1 = false /\ isLoadingProfile st1 = true
          /\ isLoadingFollowing st1 = true) as Hst1 by done.
  clearbody st1. revert st1 Hst1.
  induction Hall as [|e es [Hends Hev] _ IH]; intros st1 (Ht & Hp & Hf); [done|].
  cbn [fold_left]. apply IH.
  destruct (step_still_loading st1 e Ht Hends Hev) as [-> ->].
  split; [by apply step_cancelled | done].
Qed.

Lemma step_profile_reports st e :
  (profileReceived st = true -> isLoadingProfile st = false) ->
  profileCompletedRelays (step st e)
  = ((if isProfileEnd e then 1 else 0) + profileCompletedRelays st)%nat
  /\ (profileReceived (step st e) = true -> isLoadingProfile (step st e) = false)
  /\ (isLoadingProfile st = false -> isLoadingProfile (step st e) = false)
  /\ (isProfileEnd e = true ->
      (length RELAYS <= profileCompletedRelays (step st e))%nat ->
      isLoadingProfile (step st e) = false).
Proof.
  intros Hr.
  destruct e as [s|[i|i] m|s|s| |]; cbn [step isProfileEnd].
  - done.
  - destruct m as [ev| |]; cbn [profileOnMessage]; try done.
    destruct (_ && _); [|done]. by destruct (_ ≫= _).
  - destruct m as [ev| |]; cbn [followsOnMessage]; try done.
    by destruct (_ && _).
  - destruct s as [i|i]; unfold onend; cbn [profileReceived profileCompletedRelays].
    + destruct (length RELAYS <=? S (profileCompletedRelays st))%nat eqn:Hn;
        destruct (profileReceived st) eqn:Hp; cbn; repeat split; try done; auto.
      intros _ Hle. apply Nat.leb_gt in Hn. change (length RELAYS) with 3%nat in Hn. lia.
    + destruct (_ && _); by cbn.
  - destruct s as [i|i]; unfold onend; cbn [profileReceived profileCompletedRelays].
    + destruct (length RELAYS <=? S (profileCompletedRelays st))%nat eqn:Hn;
        destruct (profileReceived st) eqn:Hp; cbn; repeat split; try done; auto.
      intros _ Hle. apply Nat.leb_gt in Hn. change (length RELAYS) with 3%nat in Hn. lia.
    + destruct (_ && _); by cbn.
  - by destruct (timeoutId st).
  - by destruct (checkComplete st).
Qed.

Lemma run_profile_reports es : forall st,
  (profileReceived st = true -> isLoadingProfile st = false) ->
  let reports := length (filter (fun e => isProfileEnd e = true) es) in
  profileCompletedRelays (run st es) = (reports + profileCompletedRelays st)%nat
  /\ (profileReceived (run st es) = true -> isLoadingProfile (run st es) = false)
  /\ (isLoadingProfile st = false -> isLoadingProfile (run st es) = false)
  /\ ((1 <= reports)%nat -> (length RELAYS <= profileCompletedRelays (run st es))%nat ->
      isLoadingProfile (run st es) = false).
Proof.
  induction es as [|e es IH] using rev_ind; intros st Hr reports.
  - subst reports. cbn. repeat split; try done. lia.
  - subst reports. unfold run. rewrite fold_left_app, filter_app, length_app.
    cbn [fold_left]. fold (run st es).
    destruct (IH st Hr) as (Hn & Hrecv & Hoff & Hend).
    destruct (step_profile_reports (run st es) e Hrecv) as (Hn' & Hrecv' & Hoff' & Hend').
    assert (length (filter (fun e0 => isProfileEnd e0 = true) [e])
            = if isProfileEnd e then 1%nat else 0%nat) as ->.
    { rewrite filter_cons, filter_nil. by destruct (isProfileEnd e). }
    rewrite Hn' in Hend' |- *. rewrite Hn in Hend' |- *.
    destruct (isProfileEnd e) eqn:He.
    + repeat split; [lia | done | by auto |].
      intros _ Hle. apply Hend'; [done | lia].
    + repeat split; [lia | done | by auto |].
      intros H1 Hle. apply Hoff', Hend; [lia|]. rewrite Hn. lia.
Qed.

(** Loading of the profile ends with the third report.  [onerror] and
    [onclose] both count, so once the reports of profile sockets (errors
    and closes together, from whichever sockets) and the sockets that
    could not be constructed number three, and one report at least has
    come, the profile no longer shows as loading: also when the reports
    come from fewer than three relays. *)
Theorem fetchProfile_loading_ends_with_reports (constructed : Socket -> bool)
    (es : list Event) :
  let reports := length (filter (fun e => isProfileEnd e = true) es) in
  (1 <= reports)%nat
  /\ (length RELAYS <= profileCompletedRelays (start constructed) + reports)%nat ->
  isLoadingProfile (run (start constructed) es) = false.
Proof.
  intros reports [H1 H3].
  destruct (run_profile_reports es (start constructed)) as (Hn & _ & _ & Hend); [done|].
  apply Hend; [exact H1|]. rewrite Hn. fold reports. lia.
Qed.

End WithPlatform.

Lemma fetchProfile_loading_ends_with_reports_witness :
  let es := [SockError (ProfileWs 0); SockClose (ProfileWs 0); SockError (ProfileWs 1)] in
  isLoadingProfile (run (P := Sample.samplePlatform) (start (fun _ => true)) es) = false.
Proof.
  intros es.
  apply (fetchProfile_loading_ends_with_reports (P := Sample.samplePlatform)
           (fun _ => true) es).
  subst es. vm_compute. split; lia.
Defined.

Lemma fetchProfile_fallback_is_cancelled_witness :
  let st := run (P := Sample.samplePlatform) (start (fun _ => true))
              (Tick :: [Open (ProfileWs 0); Open (FollowsWs 0); Timeout; Tick; Timeout]) in
  timeoutId st = false /\ isLoadingProfile st = true /\ isLoadingFollowing st = true.
Proof.
  apply (fetchProfile_fallback_is_cancelled (P := Sample.samplePlatform) (fun _ => true)
           [Open (ProfileWs 0); Open (FollowsWs 0); Timeout; Tick; Timeout]).
  repeat (apply Forall_cons_2; [by split|]). apply Forall_nil_2.
Defined.

End ProfileHookProofs.

(** ** The canonical serialization determines the event *)

Module SerializationProofs.
Import JS Json Codec KeyCodec EventSigner JsonRead.
Import KeyCodecProofs EventSignerProofs.

Lemma cons_tail {A} (x : A) (l l' : list A) : x :: l = x :: l' -> l = l'.
Proof. by intros [= ->]. Qed.

Lemma unquoteChar_quoteChar (c : ascii) (r : list ascii) :
  unquoteChar (quoteChar c ++ r) = Some (c, r).
Proof.
  destruct c as [[] [] [] [] [] [] [] []]; reflexivity.
Qed.

Lemma quoted_body_inj (l l' r r' : list ascii) :
  concat (map quoteChar l) ++ dquote :: r = concat (map quoteChar l') ++ dquote :: r' ->
  l = l' /\ r = r'.
Proof.
  revert l'. induction l as [|c l IH]; intros [|c' l'] H; cbn [map concat app] in H.
  - by injection H as ->.
  - apply (f_equal unquoteChar) in H. rewrite <- app_assoc, unquoteChar_quoteChar in H.
    discriminate H.
  - apply (f_equal unquoteChar) in H. rewrite <- app_assoc, unquoteChar_quoteChar in H.
    discriminate H.
  - apply (f_equal unquoteChar) in H.
    rewrite <- !app_assoc, !unquoteChar_quoteChar in H.
    injection H as -> H. by destruct (IH _ H) as [-> ->].
Qed.

Lemma quote_chars (s : string) :
  chars (quote s) = dquote :: concat (map quoteChar (chars s)) ++ [dquote].
Proof. unfold quote. by rewrite chars_str. Qed.

(** A quoted string is read back, with what follows it. *)
Lemma quote_inj (s s' : string) (r r' : list ascii) :
  chars (quote s) ++ r = chars (quote s') ++ r' -> s = s' /\ r = r'.
Proof.
  rewrite !quote_chars. cbn [app]. rewrite <- !app_assoc. cbn [app].
  intros H. apply cons_tail in H. apply quoted_body_inj in H as [H ->]. split; [|done].
  by rewrite <- (str_chars s), <- (str_chars s'), H.
Qed.

Lemma split_at (c : ascii) (l l' r r' : list ascii) :
  c ∉ l -> c ∉ l' -> l ++ c :: r = l' ++ c :: r' -> l = l' /\ r = r'.
Proof.
  revert l'. induction l as [|x l IH]; intros [|x' l'] Hl Hl' H; cbn [app] in H.
  - by injection H as ->.
  - injection H as -> _. exfalso. apply Hl', list_elem_of_here.
  - injection H as -> _. exfalso. apply Hl, list_elem_of_here.
  - injection H as -> H. apply not_elem_of_cons in Hl as [_ Hl].
    apply not_elem_of_cons in Hl' as [_ Hl']. by destruct (IH _ Hl Hl' H) as [-> ->].
Qed.

Lemma uint_no_comma (d : Decimal.uint) : ","%char ∉ chars (NilEmpty.string_of_uint d).
Proof.
  induction d; cbn [NilEmpty.string_of_uint];
    first [apply not_elem_of_nil
          | change (chars (String ?a ?s)) with (a :: chars s);
            apply not_elem_of_cons; split; [discriminate | assumption]].
Qed.

Lemma decimal_no_comma (n : Z) : ","%char ∉ chars (decimal n).
Proof.
  unfold decimal.
  assert (forall d, ","%char ∉ chars (NilZero.string_of_uint d)) as Hu.
  { intros d. destruct d; try apply uint_no_comma.
    cbn. apply not_elem_of_cons. split; [discriminate | apply not_elem_of_nil]. }
  destruct (Z.to_int n) as [d|d]; cbn [NilZero.string_of_int]; [apply Hu|].
  change (chars (String ?a ?s)) with (a :: chars s).
  apply not_elem_of_cons. split; [discriminate | apply Hu].
Qed.

Lemma decimal_inj (n n' : Z) : decimal n = decimal n' -> n = n'.
Proof.
  unfold decimal. intros H. apply to_int_inj.
  assert (forall z, NilZero.int_of_string (NilZero.string_of_int (Z.to_int z))
                    = Some (Z.to_int z)) as Hisi.
  { intros z. apply NilZero.isi; destruct z; cbn; try discriminate.
    - intros [= Hp]. by apply Unsigned.to_uint_nonnil in Hp.
    - intros [= Hp]. by apply Unsigned.to_uint_nonnil in Hp. }
  apply (f_equal NilZero.int_of_string) in H. rewrite !Hisi in H. by injection H.
Qed.

(** A number is read back up to the comma that follows it. *)
Lemma decimal_comma_inj (n n' : Z) (r r' : list ascii) :
  chars (decimal n) ++ ","%char :: r = chars (decimal n') ++ ","%char :: r' ->
  n = n' /\ r = r'.
Proof.
  intros H. apply split_at in H as [H ->]; [|apply decimal_no_comma..].
  split; [|done]. apply decimal_inj. by rewrite <- (str_chars (decimal n)), H, str_chars.
Qed.

Lemma commaJoin_chars (l : list string) :
  chars (commaJoin l) = commaJoinChars (map chars l).
Proof.
  induction l as [|x [|y l] IH]; [done | done |].
  change (commaJoin (x :: y :: l)) with (x +:+ "," +:+ commaJoin (y :: l)).
  rewrite chars_app. change (chars ("," +:+ ?s)) with (","%char :: chars s).
  rewrite IH. done.
Qed.

(** A comma-separated list closed by a bracket is read back, element by
    element, when each element is read back with what follows it and none
    starts with the closing bracket. *)
Lemma array_inj {A} (enc : A -> list ascii) :
  (forall x x' r r', enc x ++ r = enc x' ++ r' -> x = x' /\ r = r') ->
  (forall x, exists c t, enc x = c :: t /\ c <> "]"%char /\ c <> ","%char) ->
  forall l l' r r',
    commaJoinChars (map enc l) ++ "]"%char :: r
    = commaJoinChars (map enc l') ++ "]"%char :: r' ->
    l = l' /\ r = r'.
Proof.
  intros Hinj Hhead.
  assert (forall x, commaJoinChars (map enc [x]) = enc x) as Hone by done.
  assert (forall x y l, commaJoinChars (map enc (x :: y :: l))
            = enc x ++ ","%char :: commaJoinChars (map enc (y :: l))) as Htwo by done.
  assert (forall x l r, exists c t,
            commaJoinChars (map enc (x :: l)) ++ r = c :: t /\ c <> "]"%char) as Hfirst.
  { intros x l r. destruct (Hhead x) as (c & t & Hx & Hc & _).
    destruct l as [|y l]; [rewrite Hone | rewrite Htwo]; rewrite Hx; by eexists _, _. }
  induction l as [|x l IH]; intros [|x' l'] r r' H.
  - cbn in H. by injection H as ->.
  - destruct (Hfirst x' l' ("]"%char :: r')) as (c & t & Hx & Hc).
    rewrite Hx in H. cbn in H. injection H as H _. congruence.
  - destruct (Hfirst x l ("]"%char :: r)) as (c & t & Hx & Hc).
    rewrite Hx in H. cbn in H. injection H as H _. congruence.
  - destruct l as [|y l], l' as [|y' l'].
    + rewrite !Hone in H. apply Hinj in H as [-> H]. by injection H as ->.
    + rewrite Hone, Htwo, <- app_assoc in H. apply Hinj in H as [_ H]. discriminate H.
    + rewrite Hone, Htwo, <- app_assoc in H. apply Hinj in H as [_ H]. discriminate H.
    + rewrite !Htwo, <- !app_assoc in H. apply Hinj in H as [-> H].
      apply (f_equal (@tail _)) in H. change (tail (?a :: ?b)) with b in H.
      by destruct (IH _ _ _ H) as [-> ->].
Qed.

Lemma tag_chars (tag : list string) :
  chars (tagSpec tag)
  = "["%char :: commaJoinChars (map (fun s => chars (quote s)) tag) ++ ["]"%char].
Proof.
  unfold tagSpec. rewrite !chars_app, commaJoin_chars, List.map_map. done.
Qed.

Lemma tag_inj (tag tag' : list string) (r r' : list ascii) :
  chars (tagSpec tag) ++ r = chars (tagSpec tag') ++ r' -> tag = tag' /\ r = r'.
Proof.
  rewrite !tag_chars. cbn [app]. rewrite <- !app_assoc. cbn [app]. intros H.
  apply cons_tail in H.
  apply (array_inj (fun s => chars (quote s))) in H; [done | apply quote_inj |].
  intros s. rewrite quote_chars. by eexists _, _.
Qed.

Lemma canonical_chars (event : NostrEvent) :
  chars (canonicalSerialize event)
  = "["%char :: "0"%char :: ","%char
    :: chars (quote (pubkey event)) ++ ","%char
    :: chars (decimal (created_at event)) ++ ","%char
    :: chars (decimal (kind event)) ++ ","%char
    :: "["%char :: commaJoinChars (map (fun tag => chars (tagSpec tag)) (tags event))
    ++ "]"%char :: ","%char :: chars (quote (content event)) ++ ["]"%char].
Proof.
  unfold canonicalSerialize. rewrite !chars_app, commaJoin_chars, List.map_map.
  change (chars "[") with ["["%char]. change (chars "0") with ["0"%char].
  change (chars ",") with [","%char]. change (chars "]") with ["]"%char].
  rewrite <- !app_assoc. done.
Qed.



End SerializationProofs.
